(** * The 8-to-9 repository migration: CIDv1 keys to raw multihash keys

    A shallow embedding of [ipfs-8-to-9/migration/swapper.go] and of the
    orchestration in [ipfs-8-to-9/migration/migration.go], with the
    properties of the key migration engine proved about it.

    Store operations are the only shared effects of the engine.  The worker
    code is written once, in a small monad of store requests; it is then
    given three readings: every trace a worker can emit whatever the store
    answers ([emits]), its execution against one datastore ([run]), and the
    interleaved execution of a pool of workers over one shared datastore
    ([pool_exec]). *)

From Stdlib Require Import ZArith Lia Ascii String.
From stdpp Require Import gmap strings list fin_maps.

Local Open Scope Z_scope.

(** ** Machine integers *)

(** Go's [uint64]: arithmetic wraps modulo [2^64]. *)
Definition u64 (z : Z) : Z := z mod 2 ^ 64.

(** ** Datastore keys *)

(** Modelled from the spec: go-datastore's [ds.Key] is not part of this
    repository.  A key is a cleaned, rooted path; it is kept here as the list
    of its namespaces, the root ["/"] being the empty list. *)
Abbreviation Key := (list string) (only parsing).

(** [strings.Split(s, "/")]. *)
Fixpoint split_slash (s : string) : list string :=
  match s with
  | EmptyString => [EmptyString]
  | String c r =>
      if Ascii.eqb c "/"%char then EmptyString :: split_slash r
      else match split_slash r with
           | seg :: segs => String c seg :: segs
           | [] => [String c EmptyString]
           end
  end.

(** [path.Clean] on a rooted path: empty and ["."] elements vanish and
    [".."] drops the element before it. *)
Definition clean_step (acc : list string) (seg : string) : list string :=
  if decide (seg = "" ∨ seg = ".")%string then acc
  else if decide (seg = "..")%string then removelast acc
  else acc ++ [seg].

(** Modelled from the spec: [ds.NewKey], which cleans the string it is given. *)
Definition NewKey (s : string) : Key := fold_left clean_step (split_slash s) [].

(** Modelled from the spec: [Key.String]. *)
Definition KeyString (k : Key) : string :=
  match k with
  | [] => "/"
  | _ => fold_right (λ seg acc, "/" +:+ seg +:+ acc) "" k
  end.

(** Modelled from the spec: [Key.BaseNamespace], the last namespace (the
    empty string for the root). *)
Definition BaseNamespace (k : Key) : string := List.last k ""%string.

(** Modelled from the spec: [Key.Parent]; the root is its own parent. *)
Definition Parent (k : Key) : Key := removelast k.

(** Modelled from the spec: [Key.Child]. *)
Definition Child (k k2 : Key) : Key := k ++ k2.

(** ** Errors, values and the key codec *)

Abbreviation bytes := (list Byte.byte) (only parsing).

(** Go errors: the sentinel [ds.ErrNotFound] and any other error. *)
Inductive error : Type :=
| ErrNotFound
| Err (msg : string).

#[global] Instance error_eq_dec : EqDecision error.
Proof. solve_decision. Defined.

(** The key codec the engine consumes ([go-cid], [go-ipfs-ds-help]):
    content identifiers with a version and a multihash, the binary form of a
    key, the parser of a binary content identifier, and the key of a
    multihash. *)
Class KeyCodec := {
  Cid : Type;
  Version : Cid → Z;
  Hash : Cid → bytes;
  BinaryFromDsKey : Key → bytes + error;
  Cast : bytes → Cid + error;
  MultihashToDsKey : bytes → Key;
}.

(** Swap holds the datastore keys for the original CID and for the
    destination multihash. *)
Record Swap := mkSwap { Old : Key; New : Key }.

#[global] Instance Swap_eq_dec : EqDecision Swap.
Proof. solve_decision. Defined.

(** One entry of a query's result stream: a key, or an error. *)
Record Result := mkResult { res_Key : string; res_Error : option error }.

(** ** The monad of store requests *)

(** A computation either returns, or issues one request to the shared
    datastore (or a notification on [SwapCh]) and continues with the answer. *)
Inductive prog (A : Type) : Type :=
| Ret (a : A)
| Get (k : Key) (c : bytes + error → prog A)
| Put (k : Key) (v : bytes) (c : option error → prog A)
| Delete (k : Key) (c : option error → prog A)
| Sync (p : Key) (c : option error → prog A)
| Notify (s : Swap) (c : prog A).

Arguments Ret {A} a.
Arguments Get {A} k c.
Arguments Put {A} k v c.
Arguments Delete {A} k c.
Arguments Sync {A} p c.
Arguments Notify {A} s c.

Fixpoint bind {A B} (m : prog A) (f : A → prog B) : prog B :=
  match m with
  | Ret a => f a
  | Get k c => Get k (λ r, bind (c r) f)
  | Put k v c => Put k v (λ r, bind (c r) f)
  | Delete k c => Delete k (λ r, bind (c r) f)
  | Sync p c => Sync p (λ r, bind (c r) f)
  | Notify s c => Notify s (bind c f)
  end.

#[global] Instance prog_ret : MRet prog := @Ret.
#[global] Instance prog_bind : MBind prog := λ A B f m, bind m f.

Definition store_Get (k : Key) : prog (bytes + error) := Get k Ret.
Definition store_Put (k : Key) (v : bytes) : prog (option error) := Put k v Ret.
Definition store_Delete (k : Key) : prog (option error) := Delete k Ret.
Definition store_Sync (p : Key) : prog (option error) := Sync p Ret.
Definition send (s : Swap) : prog unit := Notify s (Ret tt).

(** What a computation did: each request with the answer it got. *)
Inductive event : Type :=
| EGet (k : Key) (r : bytes + error)
| EPut (k : Key) (v : bytes) (r : option error)
| EDelete (k : Key) (r : option error)
| ESync (p : Key) (r : option error)
| ENotify (s : Swap).

(** [emits p t a]: for some answers of the store, [p] issues exactly the
    requests of [t], gets these answers and returns [a]. *)
Inductive emits {A} : prog A → list event → A → Prop :=
| emits_Ret a : emits (Ret a) [] a
| emits_Get k c r t a : emits (c r) t a → emits (Get k c) (EGet k r :: t) a
| emits_Put k v c r t a : emits (c r) t a → emits (Put k v c) (EPut k v r :: t) a
| emits_Delete k c r t a : emits (c r) t a → emits (Delete k c) (EDelete k r :: t) a
| emits_Sync p c r t a : emits (c r) t a → emits (Sync p c) (ESync p r :: t) a
| emits_Notify s c t a : emits c t a → emits (Notify s c) (ENotify s :: t) a.

(** ** The datastore interface *)

(** [ds.Batching], as far as the engine uses it.  Every operation may fail
    and may change the state of the store. *)
Class Batching (S : Type) := {
  ds_Get : Key → S → (bytes + error) * S;
  ds_Put : Key → bytes → S → option error * S;
  ds_Delete : Key → S → option error * S;
  ds_Sync : Key → S → option error * S;
  ds_Query : Key → S → (list Result + error) * S;
}.

Section Exec.
Context {S : Type} `{!Batching S}.

(** One request of a computation served by the store: the rest of the
    computation, the new store and the event.  [None] when it has returned. *)
Definition step {A} (p : prog A) (s : S) : option (prog A * S * event) :=
  match p with
  | Ret _ => None
  | Get k c => let '(r, s') := ds_Get k s in Some (c r, s', EGet k r)
  | Put k v c => let '(r, s') := ds_Put k v s in Some (c r, s', EPut k v r)
  | Delete k c => let '(r, s') := ds_Delete k s in Some (c r, s', EDelete k r)
  | Sync p c => let '(r, s') := ds_Sync p s in Some (c r, s', ESync p r)
  | Notify sw c => Some (c, s, ENotify sw)
  end.

(** A computation run alone against the store. *)
Fixpoint run {A} (p : prog A) (s : S) : A * S * list event :=
  match p with
  | Ret a => (a, s, [])
  | Get k c =>
      let '(r, s1) := ds_Get k s in
      let '(a, s2, t) := run (c r) s1 in (a, s2, EGet k r :: t)
  | Put k v c =>
      let '(r, s1) := ds_Put k v s in
      let '(a, s2, t) := run (c r) s1 in (a, s2, EPut k v r :: t)
  | Delete k c =>
      let '(r, s1) := ds_Delete k s in
      let '(a, s2, t) := run (c r) s1 in (a, s2, EDelete k r :: t)
  | Sync p c =>
      let '(r, s1) := ds_Sync p s in
      let '(a, s2, t) := run (c r) s1 in (a, s2, ESync p r :: t)
  | Notify sw c =>
      let '(a, s2, t) := run c s in (a, s2, ENotify sw :: t)
  end.
End Exec.

(** ** The engine: swapper.go *)

(** CidSwapper reads all the keys in a datastore and replaces them with
    their raw multihash.  [Store] is the shared datastore every request of
    [prog] goes to; [SwapCh] tells whether a channel is notified of every
    swap ([false] for Go's nil channel). *)
Record CidSwapper := mkCidSwapper { Prefix : Key; SwapCh : bool }.

(** swapWorker swaps old keys for new keys, syncing to disk regularly. *)
Record swapWorker := mkSwapWorker {
  swapped : Z;
  curSyncSize : Z;
  syncPrefix : Key;
  toDelete : list Key;
}.

(** [for x := range ch { ... }]: the body is run on every element received,
    in order, threading the loop's variables. *)
Fixpoint forEach {A St} (body : St → A → prog St) (st : St) (ch : list A) : prog St :=
  match ch with
  | [] => mret st
  | x :: rest => st' ← body st x; forEach body st' rest
  end.

Module Engine.
Section Engine.
Context `{KeyCodec}.

(** SyncSize specifies how much we batch data before committing and syncing
    (20MiB unless set otherwise); NWorkers sets the number of swapping threads
    to run when applying a migration (4 unless set otherwise). *)
Variable SyncSize : Z.
Variable NWorkers : nat.

(** Copied from go-ipfs-ds-help as that one is gone. *)
Definition dsKeyToCid (dsKey : Key) : Cid + error :=
  match BinaryFromDsKey dsKey with
  | inr err => inr err
  | inl kb => Cast kb
  end.

Definition sync (sw : swapWorker) : prog (option error) :=
  err ← store_Sync (syncPrefix sw);
  match err with
  | Some e => mret (Some e)
  | None => mret None
  end.

(** The deletion loop of [syncAndDelete]: it stops at the first failure. *)
Fixpoint deleteKeys (keys : list Key) : prog (option error) :=
  match keys with
  | [] => mret None
  | o :: rest =>
      err ← store_Delete o;
      match err with
      | Some e => mret (Some e)
      | None => deleteKeys rest
      end
  end.

Definition syncAndDelete (sw : swapWorker) : prog (swapWorker * option error) :=
  err ← sync sw;
  match err with
  | Some e => mret (sw, Some e)
  | None =>
      err ← deleteKeys (toDelete sw);
      match err with
      | Some e => mret (sw, Some e)
      | None =>
          mret (mkSwapWorker (swapped sw) (curSyncSize sw) (syncPrefix sw) [], None)
      end
  end.

(** swap replaces old keys with new ones. It Syncs() when the number of
    items written reaches SyncSize. Upon that it proceeds to delete the old
    items.  The worker is returned as the call leaves it, also on error. *)
Definition swap (sw : swapWorker) (old new : Key) : prog (swapWorker * option error) :=
  r ← store_Get old;
  match r with
  | inr e => mret (sw, Some e)
  | inl v =>
      let vLen := u64 (Z.of_nat (length v)) in
      err ← store_Put new v;
      match err with
      | Some e => mret (sw, Some e)
      | None =>
          let sw := mkSwapWorker (u64 (swapped sw + 1)) (u64 (curSyncSize sw + vLen))
                                 (syncPrefix sw) (toDelete sw ++ [old]) in
          if SyncSize <=? curSyncSize sw then
            let sw := mkSwapWorker (swapped sw) 0 (syncPrefix sw) (toDelete sw) in
            '(sw, err) ← syncAndDelete sw;
            match err with
            | Some e => mret (sw, Some e)
            | None => mret (sw, None)
            end
          else mret (sw, None)
      end
  end.

(** [if cswap.SwapCh != nil { cswap.SwapCh <- s }]. *)
Definition notify (cswap : CidSwapper) (s : Swap) : prog unit :=
  if SwapCh cswap then send s else mret tt.

(** The final sync both workers end with: [syncAndDelete], then a [sync]
    for the deleted items; each failure is counted. *)
Definition finalSync (sw : swapWorker) (errored : Z) : prog (swapWorker * Z) :=
  '(sw, err) ← syncAndDelete sw;
  let errored := match err with Some _ => u64 (errored + 1) | None => errored end in
  err ← sync sw;
  let errored := match err with Some _ => u64 (errored + 1) | None => errored end in
  mret (sw, errored).

(** The body of swapWorker's loop over the query results. *)
Definition swapStep (cswap : CidSwapper) (dryRun : bool)
    (st : swapWorker * Z) (res : Result) : prog (swapWorker * Z) :=
  let '(sw, errored) := st in
  match res_Error res with
  | Some _ => mret (sw, u64 (errored + 1))
  | None =>
      let oldKey := NewKey (res_Key res) in
      match dsKeyToCid (NewKey (BaseNamespace oldKey)) with
      | inr _ => mret (sw, errored)
      | inl c =>
          if Version c =? 0 then mret (sw, errored)
          else
            let mh := Hash c in
            let newKey := Child (Parent oldKey) (MultihashToDsKey mh) in
            '(sw, err) ←
              (if dryRun
               then mret (mkSwapWorker (u64 (swapped sw + 1)) (curSyncSize sw)
                                       (syncPrefix sw) (toDelete sw), None)
               else swap sw oldKey newKey);
            match err with
            | Some _ => mret (sw, u64 (errored + 1))
            | None => notify cswap (mkSwap oldKey newKey);; mret (sw, errored)
            end
      end
  end.

(** swapWorkers reads query results from a channel and renames CIDv1 keys to
    raw multihashes by reading the blocks and storing them with the new
    key. Returns the number of keys swapped and the number of errors.
    [resultsCh] is what this worker receives from the channel. *)
Definition swapWorker_run (cswap : CidSwapper) (dryRun : bool)
    (resultsCh : list Result) : prog (Z * Z) :=
  let sw := mkSwapWorker 0 0 (Prefix cswap) [] in
  '(sw, errored) ← forEach (swapStep cswap dryRun) (sw, 0) resultsCh;
  '(sw, errored) ← (if dryRun then mret (sw, errored) else finalSync sw errored);
  mret (swapped sw, errored).

(** The body of unswapWorker's loop over the swaps to undo. *)
Definition unswapStep (cswap : CidSwapper)
    (st : swapWorker * Z * gmap Key Key) (sw : Swap)
    : prog (swapWorker * Z * gmap Key Key) :=
  let '(swker, errored, unswappedMap) := st in
  let finish (swker : swapWorker) (errored : Z) : prog (swapWorker * Z * gmap Key Key) :=
    notify cswap (mkSwap (New sw) (Old sw));;
    mret (swker, errored, <[New sw := Old sw]> unswappedMap) in
  '(swker, err) ← swap swker (New sw) (Old sw);
  match err with
  | Some ErrNotFound =>
      match unswappedMap !! New sw with
      | None => mret (swker, u64 (errored + 1), unswappedMap)
      | Some swappedTo =>
          _ ← sync swker;
          r ← store_Get swappedTo;
          match r with
          | inr _ => mret (swker, u64 (errored + 1), unswappedMap)
          | inl v =>
              err ← store_Put (Old sw) v;
              let errored := match err with Some _ => u64 (errored + 1) | None => errored end in
              let swker := mkSwapWorker (u64 (swapped swker + 1)) (curSyncSize swker)
                                        (syncPrefix swker) (toDelete swker) in
              finish swker errored
          end
      end
  | Some _ => mret (swker, u64 (errored + 1), unswappedMap)
  | None => finish swker errored
  end.

(** The loop of unswapWorker, with the map from multihash to Cid it ends with. *)
Definition unswapLoop (cswap : CidSwapper) (unswapCh : list Swap)
    : prog (swapWorker * Z * gmap Key Key) :=
  forEach (unswapStep cswap) (mkSwapWorker 0 0 (Prefix cswap) [], 0, ∅) unswapCh.

(** unswap worker takes notifications from unswapCh (as they would be sent by
    the swapWorker) and undoes them. It ignores NotFound errors so that reverts
    can succeed even if they failed half-way. *)
Definition unswapWorker (cswap : CidSwapper) (unswapCh : list Swap) : prog (Z * Z) :=
  '(swker, errored, _) ← unswapLoop cswap unswapCh;
  '(swker, errored) ← finalSync swker errored;
  mret (swapped swker, errored).

(** *** The worker pool *)

(** Worker [w] of [n] receives the entries of the channel that are dealt to
    it: entry [j] goes to worker [deal[j] mod n] (worker [0] once [deal] is
    used up).  Each entry is received by exactly one worker, in channel order. *)
Fixpoint received {A} (n w : nat) (deal : list nat) (ch : list A) : list A :=
  match ch with
  | [] => []
  | x :: rest =>
      (if decide ((hd 0 deal mod n)%nat = w) then [x] else [])
        ++ received n w (tl deal) rest
  end.

Section Pool.
Context {S : Type} `{!Batching S}.

(** The goroutines of a pool, the shared store, and the requests served so
    far, each with the index of the goroutine that issued it. *)
Definition pool_state (A : Type) : Type := list (prog A) * S * list (nat * event).

(** Goroutine [i] gets its next request served (nothing happens when it has
    returned or does not exist). *)
Definition pool_step {A} (st : pool_state A) (i : nat) : pool_state A :=
  let '(pool, s, tr) := st in
  match pool !! i with
  | Some p =>
      match step p s with
      | Some (p', s', e) => (<[i := p']> pool, s', tr ++ [(i, e)])
      | None => st
      end
  | None => st
  end.

(** Every goroutine still running is run to its end, one after the other. *)
Fixpoint drain {A} (i : nat) (pool : list (prog A)) (s : S)
    : list A * S * list (nat * event) :=
  match pool with
  | [] => ([], s, [])
  | p :: rest =>
      let '(a, s1, t) := run p s in
      let '(rs, s2, t2) := drain (Datatypes.S i) rest s1 in
      (a :: rs, s2, map (pair i) t ++ t2)
  end.

(** The pool run under a schedule: the requests are served in the order the
    schedule names the goroutines; what is left when the schedule ends is
    drained.  Every interleaving of the goroutines' requests is the run of
    some schedule. *)
Definition pool_exec {A} (sched : list nat) (pool : list (prog A)) (s : S)
    : list A * S * list (nat * event) :=
  let '(pool', s', tr) := fold_left pool_step sched (pool, s, []) in
  let '(rs, s'', tr') := drain 0 pool' s' in
  (rs, s'', tr ++ tr').

(** Run workers launches several workers to run the given function which
    returns number of swapped items and number of errors.  [workers] holds
    the call of the function each goroutine makes; the two counters are added
    up atomically, so the order of the additions does not matter. *)
Definition runWorkers (sched : list nat) (workers : list (prog (Z * Z))) (s : S)
    : (Z * option error) * S * list (nat * event) :=
  let '(rs, s', tr) := pool_exec sched workers s in
  let total := fold_left (λ acc r, u64 (acc + r.1)) rs 0 in
  let nErrors := fold_left (λ acc r, u64 (acc + r.2)) rs 0 in
  if 0 <? nErrors
  then ((total, Some (Err "errors happened during the migration. Consider running it again")), s', tr)
  else ((total, None), s', tr).

(** Run lists all the keys in the datastore and triggers a swap operation for
    those corresponding to CIDv1s (replacing them by their raw multihash).
    When dryRun is true, it will not perform any changes, but notify SwapCh
    as if it would.  Run returns the total number of keys swapped.  [deal]
    and [sched] fix which worker receives which result and how the workers'
    requests interleave. *)
Definition Run (cswap : CidSwapper) (dryRun : bool) (deal sched : list nat) (s : S)
    : (Z * option error) * S * list (nat * event) :=
  match ds_Query (Prefix cswap) s with
  | (inr err, s') => ((0, Some err), s', [])
  | (inl resultsCh, s') =>
      runWorkers sched
        (map (λ w, swapWorker_run cswap dryRun (received NWorkers w deal resultsCh))
             (seq 0 NWorkers)) s'
  end.

(** Revert allows to undo any operations made by Run(). The given channel
    should receive Swap objects as they were sent by Run. It returns the
    number of swap operations performed.  Only 1 worker is run for revert. *)
Definition Revert (cswap : CidSwapper) (unswapCh : list Swap) (s : S)
    : (Z * option error) * S * list (nat * event) :=
  runWorkers [] [unswapWorker cswap unswapCh] s.

End Pool.

End Engine.
End Engine.
Export Engine.

(** The swaps sent on [SwapCh], in the order they were sent. *)
Definition notified (tr : list (nat * event)) : list Swap :=
  omap (λ ie, match ie.2 with ENotify s => Some s | _ => None end) tr.

(** The requests of goroutine [i] in a trace of the pool. *)
Definition trace_of (i : nat) (tr : list (nat * event)) : list event :=
  omap (λ ie, if decide (ie.1 = i) then Some ie.2 else None) tr.

(** ** Datastores *)

(** An in-memory datastore (go-datastore's [MapDatastore]): a finite map that
    never fails, but for [ErrNotFound] on reading an absent key.  A query
    returns the keys under the prefix. *)
#[global] Instance MapDatastore : Batching (gmap Key bytes) := {
  ds_Get k m := (match m !! k with Some v => inl v | None => inr ErrNotFound end, m);
  ds_Put k v m := (None, <[k := v]> m);
  ds_Delete k m := (None, delete k m);
  ds_Sync _ m := (None, m);
  ds_Query p m :=
    (inl (map (λ k, mkResult (KeyString k) None)
              (filter (λ k, p `prefix_of` k) (map fst (map_to_list m)))), m);
}.

(** A datastore that fails on demand (go-datastore's [failstore]): every
    request takes the next entry of the script, fails with its error if it has
    one, and is served by the map otherwise (and once the script is used up). *)
Record FailStore := mkFailStore {
  fs_values : gmap Key bytes;
  fs_script : list (option error);
}.

Definition fs_request {R} (f : FailStore) (fail : error → R)
    (serve : gmap Key bytes → R * gmap Key bytes) : R * FailStore :=
  match fs_script f with
  | Some e :: script => (fail e, mkFailStore (fs_values f) script)
  | None :: script => let '(r, m) := serve (fs_values f) in (r, mkFailStore m script)
  | [] => let '(r, m) := serve (fs_values f) in (r, mkFailStore m [])
  end.

#[global] Instance FailDatastore : Batching FailStore := {
  ds_Get k f := fs_request f inr (ds_Get k);
  ds_Put k v f := fs_request f Some (ds_Put k v);
  ds_Delete k f := fs_request f Some (ds_Delete k);
  ds_Sync p f := fs_request f Some (ds_Sync p);
  ds_Query p f := fs_request f inr (ds_Query p);
}.

(** ** The orchestration: migration.go *)

(** What the orchestration keeps on disk besides the datastore: the version
    file, the backup file [8-to-9-cids.txt] (absent, or its lines) and the
    backup file once renamed after a revert. *)
Record Repo (S : Type) := mkRepo {
  version : string;
  backup : option (list string);
  backup_reverted : option (list string);
  dstore : S;
}.
Arguments mkRepo {S} _ _ _ _.
Arguments version {S} _.
Arguments backup {S} _.
Arguments backup_reverted {S} _.
Arguments dstore {S} _.

(** How the collaborators of the orchestration answer: the repository lock,
    opening the datastore, [os.Stat] failing otherwise than with "not exist",
    opening the backup file, how many more characters the backup file takes
    before a write to it fails ([None]: no write fails), how many of the
    swaps sent the writer of the log has written when [Apply] returns without
    waiting for it, writing the version file, closing and renaming the
    backup file. *)
Record Outcomes := mkOutcomes {
  lock_err : option error;
  open_err : option error;
  stat_err : option error;
  file_err : option error;
  write_room : option nat;
  writer_done : nat;
  writeVersion_err : option error;
  close_err : option error;
  rename_err : option error;
}.

(** What the orchestration does, in order: a request of the engine served
    (or a swap sent on the channel the log writer drains), the channel of
    swaps closed, the log writer seen done, and the buffer of the log
    flushed, with the lines of this run that the backup file then holds. *)
Inductive action : Type :=
| AEngine (ie : nat * event)
| ACloseSwapCh
| AWritingDone
| AFlush (lines : list string).

Module Migration.
Section Orchestration.
Context `{KeyCodec} {S : Type} `{!Batching S}.
Variable SyncSize : Z.
Variable NWorkers : nat.

Definition migrationPrefixes : list Key := [NewKey "blocks"; NewKey "filestore"].

(** Versions returns the current version string for this migration. *)
Definition Versions : string := "8-to-9".

(** Reversible returns true. *)
Definition Reversible : bool := true.

(** Modelled from the spec: [mfsr.RepoPath.CheckVersion], which is not under
    src/: the version marker is read and compared with the expected one. *)
Definition CheckVersion (repo : Repo S) (v : string) : option error :=
  if decide (version repo = v) then None else Some (Err "versions differ").

(** One pass of [Run] over the prefixes, in order, stopping at the first
    error.  [plan] gives, per prefix, which worker receives which result and
    how the workers interleave. *)
Fixpoint runPrefixes (dryRun swapCh : bool) (plan : Key → list nat * list nat)
    (prefixes : list Key) (s : S) : option error * S * list (nat * event) :=
  match prefixes with
  | [] => (None, s, [])
  | prefix :: rest =>
      let cidSwapper := mkCidSwapper prefix swapCh in
      let '(_, err, s1, tr) :=
        Run SyncSize NWorkers cidSwapper dryRun (plan prefix).1 (plan prefix).2 s in
      match err with
      | Some e => (Some e, s1, tr)
      | None =>
          let '(err, s2, tr2) := runPrefixes dryRun swapCh plan rest s1 in
          (err, s2, tr ++ tr2)
      end
  end.

(** Only the Old string (a CID) of a swap is written: the multihash can be
    derived from it. *)
Definition logLine (sw : Swap) : string := KeyString (Old sw).

(** *** The buffered writer of the log

    [Apply] writes the log through Go's [bufio.NewWriter(f)], one
    [fmt.Fprint(buf, sw.Old.String(), "\n")] per swap, and drops the errors
    of these writes and of [buf.Flush()]. *)

(** The size of the buffer of [bufio.NewWriter]. *)
Definition defaultBufSize : nat := 4096.

(** [bufio.Writer.Write] of [m] characters while [n] are buffered: how many
    characters it passes on to the file, and how many it holds afterwards.
    What fits is buffered; otherwise the buffer is filled and flushed, or,
    when it is empty, the characters are written to the file directly. *)
Definition bufWrite (n m : nat) : nat * nat :=
  (if m <=? defaultBufSize - n then (0, n + m)
   else if n =? 0 then (m, 0)
   else
     let m' := m - (defaultBufSize - n) in
     if m' <=? defaultBufSize then (defaultBufSize, m') else (defaultBufSize + m', 0))%nat.

(** The characters passed on to the file, without a flush, once [lines] were
    written with [n] characters buffered before. *)
Fixpoint passedOn (n : nat) (lines : list string) : nat :=
  match lines with
  | [] => 0%nat
  | l :: rest =>
      let '(w, n') := bufWrite n (String.length l + 1)%nat in
      (w + passedOn n' rest)%nat
  end.

(** The characters of [lines], each followed by its newline. *)
Definition logSize (lines : list string) : nat :=
  foldr (λ l n, String.length l + 1 + n)%nat 0%nat lines.

(** What the file takes of [n] characters: all of them, or as many as it
    still has room for when a write fails.  Once a write has failed the
    writer keeps the error and writes nothing more. *)
Definition accepted (room : option nat) (n : nat) : nat :=
  match room with
  | None => n
  | Some r => (n `min` r)%nat
  end.

(** The lines read from the first [n] characters of [lines], each followed
    by its newline: the whole lines and, when the last is cut short, the part
    of it that is there. *)
Fixpoint firstChars (n : nat) (lines : list string) : list string :=
  match lines with
  | [] => []
  | l :: rest =>
      if (String.length l <? n)%nat
      then l :: firstChars (n - (String.length l + 1))%nat rest
      else if (n =? 0)%nat then [] else [substring 0 n l]
  end.

(** Apply runs the migration and writes a log file that can be used by
    Revert.  The backup file is kept as the list of its lines.  When the dry
    run fails, [Apply] returns at once: the file then holds what the buffered
    writer had passed on by itself of the lines the writer goroutine had
    written.  Otherwise the writer goroutine is waited for and the buffer is
    flushed: the file holds every line unless a write failed, which [Apply]
    does not notice. *)
Definition Apply (out : Outcomes) (dryPlan realPlan : Key → list nat * list nat)
    (repo : Repo S) : option error * Repo S * list action :=
  match lock_err out with Some e => (Some e, repo, []) | None =>
  match CheckVersion repo "8" with Some e => (Some e, repo, []) | None =>
  match open_err out with Some e => (Some e, repo, []) | None =>
  match stat_err out with Some e => (Some e, repo, []) | None =>
  match file_err out with Some e => (Some e, repo, []) | None =>
  (* If it exists, append to it. *)
  let existing := default [] (backup repo) in
  (* Add all the keys to migrate to the backup file *)
  let '(err, s1, tr1) := runPrefixes true true dryPlan migrationPrefixes (dstore repo) in
  let lines := map logLine (notified tr1) in
  match err with
  | Some e =>
      let seen := take (writer_done out) lines in
      let file := existing ++ firstChars (accepted (write_room out) (passedOn 0%nat seen)) seen in
      (Some e, mkRepo (version repo) (Some file) (backup_reverted repo) s1,
       map AEngine tr1 ++ [ACloseSwapCh])
  | None =>
      (* Wait for our writing to finish before doing the flushing. *)
      let written := firstChars (accepted (write_room out) (logSize lines)) lines in
      let file := existing ++ written in
      (* The backup file is ready. Run the migration. *)
      let '(err, s2, tr2) := runPrefixes false false realPlan migrationPrefixes s1 in
      let acts := map AEngine tr1 ++ [ACloseSwapCh; AWritingDone; AFlush written]
                    ++ map AEngine tr2 in
      match err with
      | Some e => (Some e, mkRepo (version repo) (Some file) (backup_reverted repo) s2, acts)
      | None =>
          match writeVersion_err out with
          | Some e =>
              (Some e, mkRepo (version repo) (Some file) (backup_reverted repo) s2, acts)
          | None => (None, mkRepo "9" (Some file) (backup_reverted repo) s2, acts)
          end
      end
  end
  end end end end end.

(** The goroutine of Revert that reads the backup file: every line is parsed
    back into the swap that was logged; the first line that does not parse
    sets [scannerErr] and ends the reading. *)
Fixpoint scanBackup (lines : list string) : list Swap * option error :=
  match lines with
  | [] => ([], None)
  | text :: rest =>
      let cidPath := NewKey text in
      let cidKey := NewKey (BaseNamespace cidPath) in
      let prefix := Parent cidPath in
      match dsKeyToCid cidKey with
      | inr err => ([], Some err)
      | inl cid =>
          let mhashPath := Child prefix (MultihashToDsKey (Hash cid)) in
          (* This is the original swap object which is what we wanted to
             rebuild. *)
          let sw := mkSwap cidPath mhashPath in
          let '(sws, scannerErr) := scanBackup rest in
          (sw :: sws, scannerErr)
      end
  end.

(** Revert attempts to undo the migration using the log file written by
    Apply. *)
Definition Revert (out : Outcomes) (repo : Repo S)
    : option error * Repo S * list action :=
  match lock_err out with Some e => (Some e, repo, []) | None =>
  match CheckVersion repo "9" with Some e => (Some e, repo, []) | None =>
  match open_err out with Some e => (Some e, repo, []) | None =>
  match backup repo, file_err out with
  | None, _ => (Some (Err "open: no such file or directory"), repo, [])
  | Some _, Some e => (Some e, repo, [])
  | Some lines, None =>
      let '(unswapCh, scannerErr) := scanBackup lines in
      (* The backup file contains prefixed keys, so we do not need to set
         them. *)
      let cidSwapper := mkCidSwapper [] false in
      let '(total, err, s1, tr) :=
        Engine.Revert SyncSize cidSwapper unswapCh (dstore repo) in
      let repo1 := mkRepo (version repo) (backup repo) (backup_reverted repo) s1 in
      let acts := map AEngine tr in
      match err with
      | Some e => (Some e, repo1, acts)
      | None =>
          (* Revert will only return after unswapCh is closed, so we know
             scannerErr is safe to read at this point. *)
          match scannerErr with
          | Some _ => (err, repo1, acts)
          | None =>
              match writeVersion_err out with
              | Some e => (Some e, repo1, acts)
              | None =>
                  let repo2 := mkRepo "8" (backup repo) (backup_reverted repo) s1 in
                  match close_err out with
                  | Some e => (Some e, repo2, acts)
                  | None =>
                      match rename_err out with
                      | Some e => (Some e, repo2, acts)
                      | None => (None, mkRepo "8" None (Some lines) s1, acts)
                      end
                  end
              end
          end
      end
  end
  end end end.

End Orchestration.
End Migration.

(** ** A key codec to run the engine on *)

(** A small codec with the shape of the real one.  A binary value is written
    in a key as hexadecimal digits (base32 in go-ipfs-ds-help).  A multihash
    is a hash code, the digest length and the digest.  A binary CID is either
    a bare sha2-256 multihash of 32 bytes, which is a CIDv0, or the version
    byte 1, a content-type byte and a multihash, which is a CIDv1. *)
Module TestCodec.

Definition hexdigits : list ascii := list_ascii_of_string "0123456789ABCDEF".

Definition hex_of_nibble (n : N) : ascii := nth (N.to_nat n) hexdigits "0"%char.

Definition nibble_of_hex (c : ascii) : option N :=
  (λ r, N.of_nat r.1) <$> list_find (λ d, d = c) hexdigits.

Fixpoint encode (b : bytes) : string :=
  match b with
  | [] => ""
  | x :: r =>
      String (hex_of_nibble (Byte.to_N x / 16))
        (String (hex_of_nibble (Byte.to_N x mod 16)) (encode r))
  end.

Fixpoint decode (s : string) : option bytes :=
  match s with
  | EmptyString => Some []
  | String h (String l r) =>
      hi ← nibble_of_hex h;
      lo ← nibble_of_hex l;
      x ← Byte.of_N (16 * hi + lo);
      (λ b, x :: b) <$> decode r
  | _ => None
  end.

Record cid := mkCid { version : Z; content : Byte.byte; hash : bytes }.

Definition valid_multihash (h : bytes) : bool :=
  match h with
  | code :: len :: digest =>
      (Byte.eqb code Byte.x11 || Byte.eqb code Byte.x12 || Byte.eqb code Byte.x13)
      && (Byte.to_N len =? N.of_nat (length digest))%N
  | _ => false
  end.

Definition cast (b : bytes) : cid + error :=
  match b with
  | Byte.x12 :: Byte.x20 :: digest =>
      if (length digest =? 32)%nat then inl (mkCid 0 Byte.x70 b)
      else inr (Err "invalid cid")
  | Byte.x01 :: c :: h =>
      if valid_multihash h then inl (mkCid 1 c h) else inr (Err "invalid cid")
  | _ => inr (Err "invalid cid")
  end.

Definition binary_from_key (k : Key) : bytes + error :=
  match k with
  | [] => inl []
  | [seg] =>
      match decode seg with
      | Some b => inl b
      | None => inr (Err "illegal key data")
      end
  | _ => inr (Err "illegal key data")
  end.

Definition key_of_multihash (h : bytes) : Key :=
  match h with
  | [] => []
  | _ => [encode h]
  end.

#[global] Instance codec : KeyCodec := {
  Cid := cid;
  Version := version;
  Hash := hash;
  BinaryFromDsKey := binary_from_key;
  Cast := cast;
  MultihashToDsKey := key_of_multihash;
}.

(** The sha2-256 multihash with every digest byte equal to [x]. *)
Definition multihash (x : Byte.byte) : bytes := Byte.x12 :: Byte.x20 :: replicate 32 x.

(** The key, under [blocks], of the CIDv1 with content type [c] and of the
    CIDv0 of a multihash. *)
Definition cidv1_key (c : Byte.byte) (h : bytes) : Key :=
  ["blocks"%string; encode (Byte.x01 :: c :: h)].
Definition cidv0_key (h : bytes) : Key := ["blocks"%string; encode h].

End TestCodec.

(** ** Notions the properties are stated with *)

(** The classification of a key by the forward worker: the key it is swapped
    for, when its last namespace parses as a CID of version 1 or more. *)
Definition candidate `{KeyCodec} (oldKey : Key) : option Key :=
  match dsKeyToCid (NewKey (BaseNamespace oldKey)) with
  | inr _ => None
  | inl c =>
      if Version c =? 0 then None
      else Some (Child (Parent oldKey) (MultihashToDsKey (Hash c)))
  end.

(** The trace of the deletion loop over [keys], and the error it ends with:
    successful deletions, in order, up to the first failure. *)
Inductive deletes_trace : list Key → list event → option error → Prop :=
| deletes_nil : deletes_trace [] [] None
| deletes_fail k keys e : deletes_trace (k :: keys) [EDelete k (Some e)] (Some e)
| deletes_ok k keys t r :
    deletes_trace keys t r → deletes_trace (k :: keys) (EDelete k None :: t) r.

(** The trace of [syncAndDelete] by a worker with sync prefix [p] and pending
    deletions [keys]: a sync, and when it succeeds the deletion loop. *)
Inductive flush_trace (p : Key) (keys : list Key) : list event → option error → Prop :=
| flush_sync_fail e : flush_trace p keys [ESync p (Some e)] (Some e)
| flush_deletes t r : deletes_trace keys t r → flush_trace p keys (ESync p None :: t) r.

(** A successful deletion. *)
Definition is_delete_ok (e : event) : Prop := ∃ k, e = EDelete k None.

(** A request to the datastore (as opposed to a notification of [SwapCh]). *)
Definition is_request (e : event) : bool :=
  match e with ENotify _ => false | _ => true end.

(** A successful write of a value under a key. *)
Definition is_put_ok (e : event) : bool :=
  match e with EPut _ _ None => true | _ => false end.

(** The worker [syncAndDelete] leaves: the pending deletions are forgotten
    only when all of them were made. *)
Definition flushed (sw : swapWorker) (err : option error) : swapWorker :=
  match err with
  | None => mkSwapWorker (swapped sw) (curSyncSize sw) (syncPrefix sw) []
  | Some _ => sw
  end.


(** The three ways a call of [swap] goes: the read fails; the write fails;
    or the value is written, the key is queued for deletion, and the batch
    is flushed when the byte counter has reached [SyncSize]. *)
Definition swap_outcome (SyncSize : Z) (sw : swapWorker) (old new : Key)
    (t : list event) (sw' : swapWorker) (err : option error) : Prop :=
  (∃ e, t = [EGet old (inr e)] ∧ sw' = sw ∧ err = Some e)
  ∨ (∃ v e, t = [EGet old (inl v); EPut new v (Some e)] ∧ sw' = sw ∧ err = Some e)
  ∨ (∃ v tf,
       let cur := u64 (curSyncSize sw + u64 (Z.of_nat (length v))) in
       t = EGet old (inl v) :: EPut new v None :: tf ∧
       if SyncSize <=? cur
       then flush_trace (syncPrefix sw) (toDelete sw ++ [old]) tf err ∧
            sw' = flushed (mkSwapWorker (u64 (swapped sw + 1)) 0 (syncPrefix sw)
                                        (toDelete sw ++ [old])) err
       else tf = [] ∧ err = None ∧
            sw' = mkSwapWorker (u64 (swapped sw + 1)) cur (syncPrefix sw)
                               (toDelete sw ++ [old])).


(** ** Sample data *)

(** Two CIDv1 keys [A] and [B] of the same multihash (content types dag-pb
    and raw), the key [C] of that multihash, which is also the key of its
    CIDv0, and another CIDv1 key [D] with its multihash key [E], all under
    the [blocks] prefix. *)
Module Sample.
Import TestCodec.

Definition blocks : Key := ["blocks"%string].
Definition value : bytes := [Byte.x61; Byte.x62].
Definition value' : bytes := [Byte.x63].
Definition A : Key := cidv1_key Byte.x70 (multihash Byte.xaa).
Definition B : Key := cidv1_key Byte.x55 (multihash Byte.xaa).
Definition C : Key := cidv0_key (multihash Byte.xaa).
Definition D : Key := cidv1_key Byte.x70 (multihash Byte.xbb).
Definition E : Key := cidv0_key (multihash Byte.xbb).

(** The default batch size, 20MiB. *)
Definition syncSize : Z := 20 * 1024 * 1024.

Definition cswap : CidSwapper := mkCidSwapper blocks true.
Definition worker0 : swapWorker := mkSwapWorker 0 0 blocks [].
Definition result (k : Key) : Result := mkResult (KeyString k) None.

(** Two version-1 keys of one multihash and a version-0 key of another. *)
Definition store_collapse : gmap Key bytes :=
  {[A := value; B := value; E := value']}.

(** A version-1 key and the version-0 key of the same multihash. *)
Definition store_clash : gmap Key bytes := {[A := value; C := value]}.

(** A migrated store: the version-0 keys of two multihashes. *)
Definition store_migrated : gmap Key bytes := {[C := value; E := value']}.

(** A store where [A] was restored and of which the fourth request fails. *)
Definition store_put_fails : FailStore :=
  mkFailStore {[A := value]} [None; None; None; Some (Err "put failed")].

(** A store whose third request, the first write, fails. *)
Definition store_first_put_fails : FailStore :=
  mkFailStore store_collapse [None; None; Some (Err "put failed")].

(** Collaborators that never fail. *)
Definition ok : Outcomes := mkOutcomes None None None None None 0 None None None.


(** Every result to the first worker, the workers one after the other. *)
Definition plan : Key → list nat * list nat := λ _, ([], []).


(** A store whose sixth request, the read of the second candidate, fails. *)
Definition store_second_get_fails : FailStore :=
  mkFailStore store_collapse [None; None; None; None; None; Some (Err "get failed")].

(** A repository at version 8 over that store. *)
Definition repo8_failing : Repo FailStore := mkRepo "8" None None store_second_get_fails.

(** A migrated repository whose backup file has a line that is no key of an
    identifier after the line of [A]. *)
Definition repo9_bad_log : Repo (gmap Key bytes) :=
  mkRepo "9" (Some [KeyString A; "/blocks/zz"%string]) None {[C := value]}.

End Sample.

(** *** Ordering of a worker's requests *)

(** [pair old new]: the worker is asked to swap [old] for [new]. *)

(** Every key pending deletion was read and its value written under the
    key it is swapped for. *)
Definition pending_written (pair : Key → Key → Prop) (t : list event)
    (keys : list Key) : Prop :=
  ∀ k, k ∈ keys →
    ∃ t1 new v t2, pair k new ∧ t = t1 ++ EGet k (inl v) :: EPut new v None :: t2.

(** Every deletion of a key comes after the value was written under the key
    it is swapped for, and after a later successful sync of the prefix that
    only deletions separate from it. *)
Definition delete_after_sync (pair : Key → Key → Prop) (p : Key)
    (t : list event) : Prop :=
  ∀ pre k o post, t = pre ++ EDelete k o :: post →
    ∃ t1 new v t2 t3,
      pair k new ∧
      pre = t1 ++ EGet k (inl v) :: EPut new v None :: t2 ++ ESync p None :: t3 ∧
      Forall is_delete_ok t3.

(** The pairs the backward worker is asked to swap: the new key of a swap
    received for its old key. *)
Definition unswap_pair (unswapCh : list Swap) (k new : Key) : Prop :=
  ∃ sw, sw ∈ unswapCh ∧ New sw = k ∧ Old sw = new.

(** The invariant of a worker's loop: its history [h] and its pending
    deletions. *)
Definition ordered (pair : Key → Key → Prop) (p : Key) (h : list event) (sw : swapWorker) : Prop :=
  syncPrefix sw = p ∧ pending_written pair h (toDelete sw) ∧ delete_after_sync pair p h.


(** [errored++] when [err] is an error. *)
Definition counted (errored : Z) (err : option error) : Z :=
  match err with Some _ => u64 (errored + 1) | None => errored end.

(** [sw.swapped++]. *)
Definition one_more (sw : swapWorker) : swapWorker :=
  mkSwapWorker (u64 (swapped sw + 1)) (curSyncSize sw) (syncPrefix sw) (toDelete sw).

(** What one iteration of the forward worker's loop does with a result. *)
Definition swapStep_outcome `{KeyCodec} (SyncSize : Z) (cswap : CidSwapper)
    (dryRun : bool) (sw : swapWorker) (errored : Z) (res : Result)
    (t : list event) (sw' : swapWorker) (errored' : Z) : Prop :=
  match res_Error res with
  | Some _ => t = [] ∧ sw' = sw ∧ errored' = u64 (errored + 1)
  | None =>
      let oldKey := NewKey (res_Key res) in
      match candidate oldKey with
      | None => t = [] ∧ sw' = sw ∧ errored' = errored
      | Some newKey =>
          let sent := if SwapCh cswap then [ENotify (mkSwap oldKey newKey)] else [] in
          if dryRun then t = sent ∧ sw' = one_more sw ∧ errored' = errored
          else ∃ t1 err,
                 swap_outcome SyncSize sw oldKey newKey t1 sw' err ∧
                 t = t1 ++ match err with Some _ => [] | None => sent end ∧
                 errored' = counted errored err
      end
  end.

(** What one iteration of the backward worker's loop does with a swap. *)
Definition unswapStep_outcome (SyncSize : Z) (cswap : CidSwapper)
    (swker : swapWorker) (errored : Z) (unswappedMap : gmap Key Key) (sw : Swap)
    (t : list event) (swker' : swapWorker) (errored' : Z)
    (unswappedMap' : gmap Key Key) : Prop :=
  let sent := if SwapCh cswap then [ENotify (mkSwap (New sw) (Old sw))] else [] in
  ∃ t1 sw1 err,
    swap_outcome SyncSize swker (New sw) (Old sw) t1 sw1 err ∧
    match err with
    | None =>
        t = t1 ++ sent ∧ swker' = sw1 ∧ errored' = errored ∧
        unswappedMap' = <[New sw := Old sw]> unswappedMap
    | Some ErrNotFound =>
        match unswappedMap !! New sw with
        | None =>
            t = t1 ∧ swker' = sw1 ∧ errored' = u64 (errored + 1) ∧
            unswappedMap' = unswappedMap
        | Some swappedTo =>
            ∃ r1,
              (∃ e, t = t1 ++ [ESync (syncPrefix sw1) r1; EGet swappedTo (inr e)] ∧
                    swker' = sw1 ∧ errored' = u64 (errored + 1) ∧
                    unswappedMap' = unswappedMap)
              ∨ (∃ v o,
                   t = t1 ++ [ESync (syncPrefix sw1) r1; EGet swappedTo (inl v);
                              EPut (Old sw) v o] ++ sent ∧
                   swker' = one_more sw1 ∧ errored' = counted errored o ∧
                   unswappedMap' = <[New sw := Old sw]> unswappedMap)
        end
    | Some _ =>
        t = t1 ∧ swker' = sw1 ∧ errored' = u64 (errored + 1) ∧
        unswappedMap' = unswappedMap
    end.

(** *** Flushes *)

(** A flush in two steps, all successful: the prefix is synced, then every
    pending key is deleted. *)
Definition two_step_flush (p : Key) (keys : list Key) : list event :=
  ESync p None :: map (λ k, EDelete k None) keys.

(** A flush in three steps, all successful: the prefix is synced, every
    pending key is deleted, and the prefix is synced again. *)
Definition three_step_flush (p : Key) (keys : list Key) : list event :=
  two_step_flush p keys ++ [ESync p None].

(** *** Runs of a pool *)

(** [reach st st']: the pool gets from [st] to [st'] by serving requests of
    its goroutines, one at a time, in some order. *)
Inductive reach {S : Type} `{!Batching S} {A : Type}
    : @pool_state S A → @pool_state S A → Prop :=
| reach_refl st : reach st st
| reach_step st i st' : reach (pool_step st i) st' → reach st st'.

(** *** Results of a run *)

(** The keys a worker tried to read, in order. *)
Definition attempted (t : list event) : list Key :=
  omap (λ e, match e with EGet k _ => Some k | _ => None end) t.

(** The number of values a worker wrote with success. *)
Definition written (t : list event) : Z :=
  Z.of_nat (length (filter (λ e, is_put_ok e = true) t)).

(** The keys of a stream of results that the forward worker swaps: those
    that come with no error and classify as candidates. *)
Definition candidates `{KeyCodec} (resultsCh : list Result) : list Key :=
  omap (λ res,
          match res_Error res with
          | Some _ => None
          | None =>
              let oldKey := NewKey (res_Key res) in
              match candidate oldKey with Some _ => Some oldKey | None => None end
          end) resultsCh.

(** The pairs of counters the workers of [Run] return to [runWorkers], in the
    order of the workers (none when the query fails). *)
Definition Run_workers `{KeyCodec} {S : Type} `{!Batching S} (SyncSize : Z)
    (NWorkers : nat) (cswap : CidSwapper) (dryRun : bool) (deal sched : list nat)
    (s : S) : list (Z * Z) :=
  match ds_Query (Prefix cswap) s with
  | (inr _, _) => []
  | (inl resultsCh, s') =>
      (pool_exec sched
         (map (λ w, swapWorker_run SyncSize cswap dryRun
                      (received NWorkers w deal resultsCh))
              (seq 0 NWorkers)) s').1.1
  end.

(** The sum of the components of a list of counters. *)
Definition sum_list (l : list Z) : Z := foldr Z.add 0 l.

(** *** The forward run on the in-memory datastore *)

(** [touches e k]: the request [e] reads, writes or deletes key [k]. *)
Definition touches (e : event) (k : Key) : Prop :=
  match e with
  | EGet k' _ | EPut k' _ _ | EDelete k' _ => k' = k
  | ESync _ _ | ENotify _ => False
  end.

(** A store [s1] is the store [s0] with the keys [cands] migrated: the
    candidate keys are gone, the key each is swapped for holds the value of a
    candidate swapped for it, and all other keys are as in [s0]. *)
Definition migrated `{KeyCodec} (s0 : gmap Key bytes) (cands : list Key)
    (s1 : gmap Key bytes) : Prop :=
  (∀ k, k ∈ cands → s1 !! k = None)
  ∧ (∀ k n, k ∈ cands → candidate k = Some n →
       ∃ k', k' ∈ cands ∧ candidate k' = Some n ∧ s1 !! n = s0 !! k')
  ∧ (∀ x, x ∉ cands → (∀ k, k ∈ cands → candidate k ≠ Some x) → s1 !! x = s0 !! x).

(** A request of a forward run that went well: a candidate key read with
    success, the value of a candidate written under the key it is swapped
    for, a candidate deleted, a successful sync, or the notification of the
    swap of a candidate. *)
Definition event_fine `{KeyCodec} (s0 : gmap Key bytes) (cands : list Key)
    (e : event) : Prop :=
  match e with
  | EGet k r => k ∈ cands ∧ ∃ v, s0 !! k = Some v ∧ r = inl v
  | EPut n v r => r = None ∧ ∃ k, k ∈ cands ∧ candidate k = Some n ∧ s0 !! k = Some v
  | EDelete k r => r = None ∧ k ∈ cands
  | ESync _ r => r = None
  | ENotify sw => Old sw ∈ cands ∧ candidate (Old sw) = Some (New sw)
  end.

Section ThreadSpec.
Context `{KeyCodec}.
Variable s0 : gmap Key bytes.
Variable notifying : bool.

(** The bookkeeping of a forward worker while the pool runs: the candidate
    keys it has still to write under their new key ([own], in the order it
    receives them), the key written and not yet notified ([wait]), and the
    keys written and not yet deleted ([pend], its pending deletions).

    [twp p own wait pend Q]: every request [p] makes is the next one of a
    worker with this bookkeeping, provided each is answered with success and
    each read returns the value the key has in [s0]; and [Q] holds of the
    result and the bookkeeping when [p] returns. *)
Fixpoint twp {A} (p : prog A) (own wait pend : list Key)
    (Q : A → list Key → list Key → list Key → Prop) : Prop :=
  match p with
  | Ret a => Q a own wait pend
  | Get k c =>
      (∃ own', own = k :: own') ∧
      ∃ v, s0 !! k = Some v ∧ twp (c (inl v)) own wait pend Q
  | Put n v c =>
      ∃ k own',
        own = k :: own' ∧ candidate k = Some n ∧ s0 !! k = Some v ∧
        (notifying = true → wait = []) ∧
        twp (c None) own' [k] (pend ++ [k]) Q
  | Delete k c => ∃ pend', pend = k :: pend' ∧ twp (c None) own wait pend' Q
  | Sync _ c => twp (c None) own wait pend Q
  | Notify sw c =>
      notifying = true ∧ wait = [Old sw] ∧ candidate (Old sw) = Some (New sw) ∧
      twp c own [] pend Q
  end.

End ThreadSpec.

(** The invariant of a forward run of a pool on the in-memory datastore
    that started as [s0] with the candidate keys [cands]: the bookkeeping of
    the goroutines ([owns], [waits], [pends], one entry each), the keys
    deleted so far ([gone]), and what the store and the trace are like. *)
Definition forward_inv `{KeyCodec} {A : Type} (s0 : gmap Key bytes)
    (notifying : bool) (cands : list Key)
    (Q : nat → A → list Key → list Key → list Key → Prop)
    (st : @pool_state (gmap Key bytes) A) : Prop :=
  let '(pool, s, tr) := st in
  ∃ (owns waits pends : list (list Key)) (gone : list Key),
    (length owns = length pool ∧ length waits = length pool
     ∧ length pends = length pool)
    ∧ (∀ i p, pool !! i = Some p →
       ∃ own wait pend,
         owns !! i = Some own ∧ waits !! i = Some wait ∧ pends !! i = Some pend ∧
         twp s0 notifying p own wait pend (Q i))
    ∧ gone ++ mjoin pends ++ mjoin owns ≡ₚ cands
    ∧ (notifying = true →
         (Old <$> notified tr) ++ mjoin waits ++ mjoin owns ≡ₚ cands)
    ∧ (∀ k, k ∈ mjoin pends ++ mjoin owns → s !! k = s0 !! k)
    ∧ (∀ k, k ∈ gone → s !! k = None)
    ∧ (∀ k n, k ∈ gone ++ mjoin pends → candidate k = Some n →
         ∃ k', k' ∈ cands ∧ candidate k' = Some n ∧ s !! n = s0 !! k')
    ∧ (∀ x, x ∉ cands →
         s !! x = s0 !! x ∨ ∃ k', k' ∈ cands ∧ candidate k' = Some x ∧ s !! x = s0 !! k')
    ∧ Forall (λ ie, event_fine s0 cands ie.2) tr.

(** *** Traces of the in-memory datastore *)

(** The store after a request. *)
Definition map_step (s : gmap Key bytes) (e : event) : gmap Key bytes :=
  match e with
  | EPut k v None => <[k := v]> s
  | EDelete k None => delete k s
  | _ => s
  end.

(** The request is answered the way the in-memory datastore answers it. *)
Definition map_answers (s : gmap Key bytes) (e : event) : Prop :=
  match e with
  | EGet k r => r = match s !! k with Some v => inl v | None => inr ErrNotFound end
  | EPut _ _ r | EDelete _ r | ESync _ r => r = None
  | ENotify _ => True
  end.

(** The store after a sequence of requests. *)
Definition replay (s : gmap Key bytes) (t : list event) : gmap Key bytes :=
  fold_left map_step t s.

(** A sequence of requests answered by the in-memory datastore, from [s]. *)
Fixpoint map_trace (s : gmap Key bytes) (t : list event) : Prop :=
  match t with
  | [] => True
  | e :: t' => map_answers s e ∧ map_trace (map_step s e) t'
  end.

(** The invariant of the backward worker's loop on the in-memory datastore:
    [s1] is the store it started from, [recs] all the swaps it is to undo,
    [seen] those it has gone through; then its state and the store [s]. *)
Definition unswap_inv (s1 : gmap Key bytes) (recs seen : list Swap)
    (st : swapWorker * Z * gmap Key Key) (s : gmap Key bytes) : Prop :=
  let '(swker, errored, m) := st in
  errored = 0
  ∧ swapped swker = u64 (Z.of_nat (length seen))
  ∧ (∀ sw, sw ∈ seen → s !! Old sw = s1 !! New sw)
  ∧ (∀ x, (∀ sw, sw ∈ recs → x ≠ Old sw) →
       s !! x = s1 !! x ∨ (s !! x = None ∧ ∃ sw, sw ∈ seen ∧ New sw = x))
  ∧ (∀ n k, m !! n = Some k → mkSwap k n ∈ seen)
  ∧ (∀ sw, sw ∈ seen → is_Some (m !! New sw))
  ∧ (∀ n, n ∈ toDelete swker → ∃ sw, sw ∈ seen ∧ New sw = n)
  ∧ (∀ sw, sw ∈ seen → s !! New sw = None ∨ New sw ∈ toDelete swker).

(** The requests of [t] read, write and delete only keys that satisfy [P]. *)
Definition only_touches (P : Key → Prop) (t : list event) : Prop :=
  ∀ e k, e ∈ t → touches e k → P k.

(** The keys a query of the in-memory datastore returns for a prefix. *)
Definition query_keys (prefix : Key) (s : gmap Key bytes) : list Key :=
  filter (λ k, prefix `prefix_of` k) (map fst (map_to_list s)).

(** The keys of the store are clean: each is the key of its own string. *)
Definition clean_keys (keys : list Key) : Prop :=
  ∀ k, k ∈ keys → NewKey (KeyString k) = k.

(** ** What the runs may touch *)

(** A request a forward run may make for the candidate keys [keys] under the
    prefix [p]: a candidate read or deleted, a value written under the key a
    candidate is swapped for, the prefix synced, the swap of a candidate
    sent. *)
Definition in_scope `{KeyCodec} (p : Key) (keys : list Key) (e : event) : Prop :=
  match e with
  | EGet k _ | EDelete k _ => k ∈ keys
  | EPut n _ _ => ∃ k, k ∈ keys ∧ candidate k = Some n
  | ESync q _ => q = p
  | ENotify sw => Old sw ∈ keys ∧ candidate (Old sw) = Some (New sw)
  end.


(** The key [k] was swapped for good in the trace [t]: it was read, its
    value was written with success under the key it is swapped for, and it
    was deleted with success. *)
Definition swapped_ok `{KeyCodec} (t : list event) (k : Key) : Prop :=
  ∃ n v, candidate k = Some n ∧ EGet k (inl v) ∈ t ∧ EPut n v None ∈ t
         ∧ EDelete k None ∈ t.

(** The swap a worker sends for the candidate key [k]. *)
Definition swap_of `{KeyCodec} (k : Key) : Swap := mkSwap k (default k (candidate k)).

(** A request that the store answered with an error. *)
Definition event_failed (e : event) : bool :=
  match e with
  | EGet _ (inr _) | EPut _ _ (Some _) | EDelete _ (Some _) | ESync _ (Some _) => true
  | _ => false
  end.

(** ** The whole migration *)


(** Collaborators none of which fails. *)
Definition all_ok : Outcomes := mkOutcomes None None None None None 0 None None None.

(** Every swap sent in the trace [t] comes after the read of its old key and
    the successful write of the value read under its new key. *)
Definition sent_after_written (t : list event) : Prop :=
  ∀ pre sw post, t = pre ++ ENotify sw :: post →
    ∃ v, EGet (Old sw) (inl v) ∈ pre ∧ EPut (New sw) v None ∈ pre.


(** * Properties *)

#[local] Set Warnings "-clear-no-such-hyp".

(** ** The monad and its readings *)

Lemma emits_bind {A B} (m : prog A) (f : A → prog B) t b :
  emits (m ≫= f) t b ↔ ∃ t1 a t2, emits m t1 a ∧ emits (f a) t2 b ∧ t = t1 ++ t2.
Proof.
  unfold mbind, prog_bind. revert t.
  induction m as [a|k c IH|k v c IH|k c IH|p c IH|s c IH]; intros t; simpl;
    (split;
     [ intros Hf
     | intros (t1 & a' & t2 & H1 & H2 & ->); inversion H1; subst; simpl;
       try done; constructor; apply IH; eauto 6 ]).
  - exists [], a, t. repeat split; [constructor | done].
  - inversion Hf; subst.
    match goal with Hc : emits (bind _ _) _ _ |- _ =>
      apply IH in Hc as (t1 & a & t2 & H1 & H2 & ->) end.
    exists (EGet k r :: t1), a, t2. repeat split; [by constructor | done].
  - inversion Hf; subst.
    match goal with Hc : emits (bind _ _) _ _ |- _ =>
      apply IH in Hc as (t1 & a & t2 & H1 & H2 & ->) end.
    exists (EPut k v r :: t1), a, t2. repeat split; [by constructor | done].
  - inversion Hf; subst.
    match goal with Hc : emits (bind _ _) _ _ |- _ =>
      apply IH in Hc as (t1 & a & t2 & H1 & H2 & ->) end.
    exists (EDelete k r :: t1), a, t2. repeat split; [by constructor | done].
  - inversion Hf; subst.
    match goal with Hc : emits (bind _ _) _ _ |- _ =>
      apply IH in Hc as (t1 & a & t2 & H1 & H2 & ->) end.
    exists (ESync p r :: t1), a, t2. repeat split; [by constructor | done].
  - inversion Hf; subst.
    match goal with Hc : emits (bind _ _) _ _ |- _ =>
      apply IH in Hc as (t1 & a & t2 & H1 & H2 & ->) end.
    exists (ENotify s :: t1), a, t2. repeat split; [by constructor | done].
Qed.

Lemma emits_ret {A} (a b : A) t : emits (mret a) t b ↔ t = [] ∧ b = a.
Proof.
  split.
  - intros Hr. inversion Hr; subst. done.
  - intros [-> ->]. constructor.
Qed.

Lemma emits_Get_inv k t (r : bytes + error) :
  emits (store_Get k) t r ↔ t = [EGet k r].
Proof.
  split.
  - intros Hg. inversion Hg; subst.
    match goal with Hc : emits (Ret _) _ _ |- _ => inversion Hc; subst end. done.
  - intros ->. constructor. constructor.
Qed.

Lemma emits_Put_inv k v t (r : option error) :
  emits (store_Put k v) t r ↔ t = [EPut k v r].
Proof.
  split.
  - intros Hg. inversion Hg; subst.
    match goal with Hc : emits (Ret _) _ _ |- _ => inversion Hc; subst end. done.
  - intros ->. constructor. constructor.
Qed.

Lemma emits_Delete_inv k t (r : option error) :
  emits (store_Delete k) t r ↔ t = [EDelete k r].
Proof.
  split.
  - intros Hg. inversion Hg; subst.
    match goal with Hc : emits (Ret _) _ _ |- _ => inversion Hc; subst end. done.
  - intros ->. constructor. constructor.
Qed.

Lemma emits_Sync_inv p t (r : option error) :
  emits (store_Sync p) t r ↔ t = [ESync p r].
Proof.
  split.
  - intros Hg. inversion Hg; subst.
    match goal with Hc : emits (Ret _) _ _ |- _ => inversion Hc; subst end. done.
  - intros ->. constructor. constructor.
Qed.

Lemma emits_send_inv s t (r : unit) : emits (send s) t r ↔ t = [ENotify s].
Proof.
  split.
  - intros Hg. inversion Hg; subst.
    match goal with Hc : emits (Ret _) _ _ |- _ => inversion Hc; subst end. done.
  - intros ->. destruct r. constructor. constructor.
Qed.

Section RunFacts.
Context {S : Type} `{!Batching S}.

(** What a computation does against a datastore is one of the traces it can
    emit. *)
Lemma run_emits {A} (p : prog A) (s : S) a s' t :
  run p s = (a, s', t) → emits p t a.
Proof.
  revert s a s' t.
  induction p as [a0|k c IH|k v c IH|k c IH|p c IH|sw c IH]; intros s a s' t; simpl.
  - intros [= <- <- <-]. constructor.
  - destruct (ds_Get k s) as [r s1]. destruct (run (c r) s1) as [[a1 s2] t1] eqn:Hr.
    intros [= <- <- <-]. constructor. eauto.
  - destruct (ds_Put k v s) as [r s1]. destruct (run (c r) s1) as [[a1 s2] t1] eqn:Hr.
    intros [= <- <- <-]. constructor. eauto.
  - destruct (ds_Delete k s) as [r s1]. destruct (run (c r) s1) as [[a1 s2] t1] eqn:Hr.
    intros [= <- <- <-]. constructor. eauto.
  - destruct (ds_Sync p s) as [r s1]. destruct (run (c r) s1) as [[a1 s2] t1] eqn:Hr.
    intros [= <- <- <-]. constructor. eauto.
  - destruct (run c s) as [[a1 s2] t1] eqn:Hr.
    intros [= <- <- <-]. constructor. eauto.
Qed.

Lemma run_bind {A B} (m : prog A) (f : A → prog B) (s : S) :
  run (m ≫= f) s =
  let '(a, s1, t1) := run m s in
  let '(b, s2, t2) := run (f a) s1 in (b, s2, t1 ++ t2).
Proof.
  unfold mbind, prog_bind. revert s.
  induction m as [a0|k c IH|k v c IH|k c IH|p c IH|sw c IH]; intros s; simpl.
  - by destruct (run (f a0) s) as [[b s2] t2].
  - destruct (ds_Get k s) as [r s1]. rewrite IH.
    destruct (run (c r) s1) as [[a1 s2] t1].
    by destruct (run (f a1) s2) as [[b s3] t2].
  - destruct (ds_Put k v s) as [r s1]. rewrite IH.
    destruct (run (c r) s1) as [[a1 s2] t1].
    by destruct (run (f a1) s2) as [[b s3] t2].
  - destruct (ds_Delete k s) as [r s1]. rewrite IH.
    destruct (run (c r) s1) as [[a1 s2] t1].
    by destruct (run (f a1) s2) as [[b s3] t2].
  - destruct (ds_Sync p s) as [r s1]. rewrite IH.
    destruct (run (c r) s1) as [[a1 s2] t1].
    by destruct (run (f a1) s2) as [[b s3] t2].
  - rewrite IH. destruct (run c s) as [[a1 s2] t1].
    by destruct (run (f a1) s2) as [[b s3] t2].
Qed.

End RunFacts.

(** A loop keeps what every run of its body keeps. *)
Lemma forEach_emits_inv {A St} (body : St → A → prog St)
    (I : list event → St → Prop) (ch : list A) :
  (∀ h st x t st', x ∈ ch → I h st → emits (body st x) t st' → I (h ++ t) st') →
  ∀ h st t st', I h st → emits (forEach body st ch) t st' → I (h ++ t) st'.
Proof.
  induction ch as [|x rest IH]; intros Hbody h st t st' HI Hem; simpl in Hem.
  - apply emits_ret in Hem as [-> ->]. by rewrite app_nil_r.
  - apply emits_bind in Hem as (t1 & st1 & t2 & H1 & H2 & ->).
    rewrite app_assoc. eapply IH; [| |exact H2].
    + intros h0 st0 y t0 st0' Hy. apply Hbody. by right.
    + eapply Hbody; [by left|done..].
Qed.

(** ** The log file *)



(** The buffered writer loses and invents nothing: what it passes on and
    what it holds is what it held and was given, and it never holds more
    than its buffer. *)
Lemma bufWrite_conserves (n m w n' : nat) :
  (n ≤ Migration.defaultBufSize)%nat →
  Migration.bufWrite n m = (w, n') →
  (w + n' = n + m ∧ n' ≤ Migration.defaultBufSize)%nat.
Proof.
  unfold Migration.bufWrite. generalize Migration.defaultBufSize. intros b Hn.
  destruct (Nat.leb_spec m (b - n)); [intros [= <- <-]; lia|].
  destruct (Nat.eqb_spec n 0); [intros [= <- <-]; lia|].
  destruct (Nat.leb_spec (m - (b - n)) b); intros [= <- <-]; lia.
Qed.

(** Without a flush the file is never ahead of the writer. *)
Lemma passedOn_le (n : nat) (lines : list string) :
  (n ≤ Migration.defaultBufSize)%nat →
  (Migration.passedOn n lines ≤ n + Migration.logSize lines)%nat.
Proof.
  revert n. induction lines as [|l lines IH]; intros n Hn; cbn [Migration.passedOn]; [lia|].
  change (Migration.logSize (l :: lines))
    with (String.length l + 1 + Migration.logSize lines)%nat.
  destruct (Migration.bufWrite n (String.length l + 1)) as [w n'] eqn:Hw.
  apply bufWrite_conserves in Hw as [Hsum Hn']; [|done].
  specialize (IH n' Hn'). lia.
Qed.

(** ** What the swap batch emits *)

Lemma emits_sync sw t r : emits (sync sw) t r ↔ t = [ESync (syncPrefix sw) r].
Proof.
  unfold sync. rewrite emits_bind. split.
  - intros (t1 & a & t2 & H1 & H2 & ->). apply emits_Sync_inv in H1 as ->.
    destruct a; apply emits_ret in H2 as [-> ->]; done.
  - intros ->. exists [ESync (syncPrefix sw) r], r, []. split; [by apply emits_Sync_inv|].
    split; [|done]. destruct r; by apply emits_ret.
Qed.

Lemma emits_deleteKeys keys t r : emits (deleteKeys keys) t r ↔ deletes_trace keys t r.
Proof.
  revert t. induction keys as [|k keys IH]; intros t; cbn [deleteKeys].
  - rewrite emits_ret. split.
    + intros [-> ->]. constructor.
    + intros Hd. by inversion Hd.
  - rewrite emits_bind. split.
    + intros (t1 & a & t2 & H1 & H2 & ->). apply emits_Delete_inv in H1 as ->.
      destruct a as [e|].
      * apply emits_ret in H2 as [-> ->]. constructor.
      * apply IH in H2. by constructor.
    + intros Hd. inversion Hd; subst.
      * exists [EDelete k (Some e)], (Some e), []. split; [by apply emits_Delete_inv|].
        split; [by apply emits_ret|done].
      * exists [EDelete k None], None. eexists. split; [by apply emits_Delete_inv|].
        split; [by apply IH|done].
Qed.

Lemma emits_syncAndDelete sw t sw' err :
  emits (syncAndDelete sw) t (sw', err) ↔
  flush_trace (syncPrefix sw) (toDelete sw) t err ∧ sw' = flushed sw err.
Proof.
  unfold syncAndDelete. rewrite emits_bind. split.
  - intros (t1 & a & t2 & H1 & H2 & ->). apply emits_sync in H1 as ->.
    destruct a as [e|].
    + apply emits_ret in H2 as [-> [= -> ->]]. split; [constructor|done].
    + apply emits_bind in H2 as (t3 & a & t4 & H3 & H4 & ->).
      apply emits_deleteKeys in H3.
      destruct a as [e|]; apply emits_ret in H4 as [-> [= -> ->]];
        rewrite app_nil_r; (split; [by constructor|done]).
  - intros [Hf ->]. inversion Hf; subst.
    + exists [ESync (syncPrefix sw) (Some e)], (Some e), [].
      split; [by apply emits_sync|]. split; [by apply emits_ret|done].
    + exists [ESync (syncPrefix sw) None], None, t0.
      split; [by apply emits_sync|]. split; [|done].
      apply emits_bind. exists t0, err, []. rewrite app_nil_r.
      split; [by apply emits_deleteKeys|]. split; [|done].
      destruct err; by apply emits_ret.
Qed.

Section SwapFacts.
Variable SyncSize : Z.

Lemma emits_swap sw old new t sw' err :
  emits (swap SyncSize sw old new) t (sw', err) ↔
  swap_outcome SyncSize sw old new t sw' err.
Proof.
  unfold swap, swap_outcome. rewrite emits_bind. split.
  - intros (t1 & a & t2 & H1 & H2 & ->). apply emits_Get_inv in H1 as ->.
    destruct a as [v|e].
    + apply emits_bind in H2 as (t3 & a & t4 & H3 & H4 & ->).
      apply emits_Put_inv in H3 as ->. destruct a as [e|].
      * apply emits_ret in H4 as [-> [= -> ->]]. right; left. eauto.
      * right; right. exists v, t4. split; [done|]. cbv beta iota zeta in H4 |- *.
        simpl swapped in *. simpl curSyncSize in *. simpl syncPrefix in *. simpl toDelete in *.
        destruct (SyncSize <=? _).
        -- apply emits_bind in H4 as (t5 & [sw1 e1] & t6 & H5 & H6 & ->).
           apply emits_syncAndDelete in H5 as [Hf ->]. simpl in Hf.
           destruct e1; apply emits_ret in H6 as [-> [= -> ->]];
             rewrite app_nil_r; done.
        -- by apply emits_ret in H4 as [-> [= -> ->]].
    + apply emits_ret in H2 as [-> [= -> ->]]. left. eauto.
  - intros [(e & -> & -> & ->)|[(v & e & -> & -> & ->)|(v & tf & -> & Hc)]].
    + exists [EGet old (inr e)], (inr e), []. split; [by apply emits_Get_inv|].
      split; [by apply emits_ret|done].
    + exists [EGet old (inl v)], (inl v), [EPut new v (Some e)].
      split; [by apply emits_Get_inv|]. split; [|done].
      apply emits_bind. exists [EPut new v (Some e)], (Some e), [].
      split; [by apply emits_Put_inv|]. split; [by apply emits_ret|done].
    + exists [EGet old (inl v)], (inl v), (EPut new v None :: tf).
      split; [by apply emits_Get_inv|]. split; [|done].
      apply emits_bind. exists [EPut new v None], None, tf.
      split; [by apply emits_Put_inv|]. split; [|done]. cbv beta iota zeta in Hc |- *.
      simpl swapped in *. simpl curSyncSize in *. simpl syncPrefix in *. simpl toDelete in *.
      destruct (SyncSize <=? _).
      * destruct Hc as [Hf ->]. apply emits_bind.
        eexists tf, (_, err), []. rewrite app_nil_r.
        split; [apply emits_syncAndDelete; split; [exact Hf|reflexivity]|].
        split; [|done]. destruct err; by apply emits_ret.
      * destruct Hc as (-> & -> & ->). by apply emits_ret.
Qed.

End SwapFacts.

Lemma emits_notify cswap s t (r : unit) :
  emits (notify cswap s) t r ↔ t = if SwapCh cswap then [ENotify s] else [].
Proof.
  unfold notify. destruct (SwapCh cswap).
  - apply emits_send_inv.
  - rewrite emits_ret. destruct r. split; [by intros [-> _]|by intros ->].
Qed.

(** ** Classification of a key by the forward worker *)

Section Classification.
Context `{KeyCodec} {S : Type} `{!Batching S}.
Variable SyncSize : Z.

Lemma emits_swapStep_candidate cswap sw errored res c t r :
  res_Error res = None →
  dsKeyToCid (NewKey (BaseNamespace (NewKey (res_Key res)))) = inl c →
  Version c ≠ 0 →
  emits (swapStep SyncSize cswap false (sw, errored) res) t r ↔
  ∃ t1 sw1 err,
    let oldKey := NewKey (res_Key res) in
    let newKey := Child (Parent oldKey) (MultihashToDsKey (Hash c)) in
    swap_outcome SyncSize sw oldKey newKey t1 sw1 err ∧
    t = t1 ++ match err with
              | Some _ => []
              | None => if SwapCh cswap then [ENotify (mkSwap oldKey newKey)] else []
              end ∧
    r = (sw1, match err with Some _ => u64 (errored + 1) | None => errored end).
Proof.
  intros Hres Hc Hv. unfold swapStep. rewrite Hres, Hc.
  apply Z.eqb_neq in Hv. rewrite Hv. rewrite emits_bind. split.
  - intros (t1 & [sw1 err] & t2 & H1 & H2 & ->). apply emits_swap in H1.
    exists t1, sw1, err. split; [done|]. destruct err as [e|].
    + by apply emits_ret in H2 as [-> ->].
    + apply emits_bind in H2 as (t3 & [] & t4 & H3 & H4 & ->).
      apply emits_notify in H3 as ->. apply emits_ret in H4 as [-> ->].
      by rewrite app_nil_r.
  - intros (t1 & sw1 & err & Hs & -> & ->). exists t1, (sw1, err). eexists.
    split; [by apply emits_swap|]. split; [|done]. destruct err as [e|].
    + by apply emits_ret.
    + apply emits_bind. eexists _, tt, []. rewrite app_nil_r.
      split; [by apply emits_notify|]. split; [by apply emits_ret|done].
Qed.

(** C2. For every key delivered to a swap worker, on every datastore: a key
    whose last namespace does not decode leaves the worker, its error counter
    and the store as they are, with no request made; so does a key that
    decodes to a version-0 identifier; for any other version the key is
    swapped (or, in a dry run, counted and notified) for the key made of the
    old key's parent and the key of the identifier's multihash. *)
Theorem swapStep_classification cswap dryRun sw errored res (s : S) :
  res_Error res = None →
  let oldKey := NewKey (res_Key res) in
  let '(r, s', t) := run (swapStep SyncSize cswap dryRun (sw, errored) res) s in
  match dsKeyToCid (NewKey (BaseNamespace oldKey)) with
  | inr _ => t = [] ∧ s' = s ∧ r = (sw, errored)
  | inl c =>
      if Version c =? 0 then t = [] ∧ s' = s ∧ r = (sw, errored)
      else
        let newKey := Child (Parent oldKey) (MultihashToDsKey (Hash c)) in
        let sent := if SwapCh cswap then [ENotify (mkSwap oldKey newKey)] else [] in
        if dryRun
        then t = sent ∧ s' = s ∧
             r = (mkSwapWorker (u64 (swapped sw + 1)) (curSyncSize sw)
                               (syncPrefix sw) (toDelete sw), errored)
        else ∃ t1 sw1 err,
               swap_outcome SyncSize sw oldKey newKey t1 sw1 err ∧
               t = t1 ++ match err with Some _ => [] | None => sent end ∧
               r = (sw1, match err with Some _ => u64 (errored + 1) | None => errored end)
  end.
Proof.
  intros Hres oldKey.
  destruct (run _ s) as [[r s'] t] eqn:Hrun.
  destruct (dsKeyToCid (NewKey (BaseNamespace oldKey))) as [c|e] eqn:Hc.
  - destruct (Version c =? 0) eqn:Hv.
    + unfold swapStep in Hrun. fold oldKey in Hrun. rewrite Hres, Hc, Hv in Hrun.
      by injection Hrun as <- <- <-.
    + destruct dryRun.
      * unfold swapStep in Hrun. fold oldKey in Hrun. rewrite Hres, Hc, Hv in Hrun.
        unfold notify in Hrun. destruct (SwapCh cswap); by injection Hrun as <- <- <-.
      * apply run_emits in Hrun. apply Z.eqb_neq in Hv.
        by apply (emits_swapStep_candidate _ _ _ _ c) in Hrun.
  - unfold swapStep in Hrun. fold oldKey in Hrun. rewrite Hres, Hc in Hrun.
    by injection Hrun as <- <- <-.
Qed.

End Classification.

Lemma swapStep_classification_witness :
  res_Error (Sample.result Sample.A) = None
  ∧ let oldKey := NewKey (res_Key (Sample.result Sample.A)) in
    let '(r, s', t) :=
      run (swapStep Sample.syncSize Sample.cswap false (Sample.worker0, 0)
             (Sample.result Sample.A)) Sample.store_collapse in
    match dsKeyToCid (NewKey (BaseNamespace oldKey)) with
    | inr _ => t = [] ∧ s' = Sample.store_collapse ∧ r = (Sample.worker0, 0)
    | inl c =>
        if Version c =? 0
        then t = [] ∧ s' = Sample.store_collapse ∧ r = (Sample.worker0, 0)
        else
          let newKey := Child (Parent oldKey) (MultihashToDsKey (Hash c)) in
          let sent := if SwapCh Sample.cswap
                      then [ENotify (mkSwap oldKey newKey)] else [] in
          ∃ t1 sw1 err,
            swap_outcome Sample.syncSize Sample.worker0 oldKey newKey t1 sw1 err ∧
            t = t1 ++ match err with Some _ => [] | None => sent end ∧
            r = (sw1, match err with Some _ => u64 (0 + 1) | None => 0 end)
    end.
Proof.
  split; [reflexivity|].
  apply (swapStep_classification Sample.syncSize Sample.cswap false Sample.worker0 0
           (Sample.result Sample.A) Sample.store_collapse).
  reflexivity.
Defined.

(** ** Sync before delete *)

Lemma app_eq_mid {A} (h tf pre post : list A) x :
  h ++ tf = pre ++ x :: post →
  (∃ m, h = pre ++ x :: m ∧ post = m ++ tf) ∨ (∃ m, pre = h ++ m ∧ tf = m ++ x :: post).
Proof.
  intros Heq. apply app_eq_inv in Heq as [(k & -> & Hk)|(k & -> & ->)].
  - destruct k as [|y k].
    + right. exists []. split; [by rewrite !app_nil_r|]. simpl in *. by symmetry.
    + simpl in Hk. injection Hk as <- ->. left. by exists k.
  - right. by exists k.
Qed.

Lemma deletes_trace_split keys t r d1 k o d2 :
  deletes_trace keys t r → t = d1 ++ EDelete k o :: d2 →
  Forall is_delete_ok d1 ∧ k ∈ keys.
Proof.
  intros Hd. revert d1. induction Hd as [|k0 keys e|k0 keys t r Hd IH]; intros d1 Heq.
  - by destruct d1.
  - destruct d1 as [|x d1]; [|by destruct d1].
    injection Heq as -> _ _. split; [constructor|by left].
  - destruct d1 as [|x d1].
    + injection Heq as -> _ _. split; [constructor|by left].
    + injection Heq as <- Heq. apply IH in Heq as [Hf Hk].
      split; [|by right]. constructor; [by exists k0|done].
Qed.

Lemma deletes_trace_only_deletes keys t r e :
  deletes_trace keys t r → e ∈ t → ∃ k o, e = EDelete k o.
Proof.
  intros Hd He. induction Hd as [|k0 keys e0|k0 keys t r Hd IH].
  - by apply elem_of_nil in He.
  - apply list_elem_of_singleton in He as ->. eauto.
  - apply elem_of_cons in He as [->|He]; eauto.
Qed.

Section Ordering.
Variable pair : Key → Key → Prop.
Variable p : Key.

Lemma pending_written_app h t keys :
  pending_written pair h keys → pending_written pair (h ++ t) keys.
Proof.
  intros Hp k Hk. destruct (Hp k Hk) as (t1 & new & v & t2 & Hpair & ->).
  exists t1, new, v, (t2 ++ t). split; [done|]. by rewrite <- !app_assoc.
Qed.

Lemma delete_after_sync_app h t :
  delete_after_sync pair p h → (∀ k o, EDelete k o ∉ t) →
  delete_after_sync pair p (h ++ t).
Proof.
  intros Hd Hno pre k o post Heq.
  apply app_eq_mid in Heq as [(m & -> & ->)|(m & -> & ->)].
  - by eapply Hd.
  - exfalso. apply (Hno k o). apply elem_of_app. right. by left.
Qed.

Lemma delete_after_sync_flush h keys tf err :
  pending_written pair h keys → delete_after_sync pair p h →
  flush_trace p keys tf err → delete_after_sync pair p (h ++ tf).
Proof.
  intros Hp Hd Hf pre k o post Heq.
  apply app_eq_mid in Heq as [(m & -> & ->)|(m & -> & Htf)].
  - by eapply Hd.
  - destruct Hf as [e|td r Hdel].
    + destruct m as [|x m]; [done|]. by destruct m.
    + destruct m as [|x m]; [done|]. simpl in Htf. injection Htf as <- Hm.
      destruct (deletes_trace_split _ _ _ _ _ _ _ Hdel Hm) as [Hok Hk].
      destruct (Hp k Hk) as (t1 & new & v & t2 & Hpair & ->).
      exists t1, new, v, t2, m. split; [done|]. split; [|done].
      by rewrite <- !app_assoc.
Qed.

Lemma ordered_app h t sw :
  ordered pair p h sw → (∀ k o, EDelete k o ∉ t) → ordered pair p (h ++ t) sw.
Proof.
  intros (Hpre & Hp & Hd) Hno. split; [done|].
  split; [by apply pending_written_app|by apply delete_after_sync_app].
Qed.

Lemma ordered_flush h sw tf err :
  ordered pair p h sw → flush_trace p (toDelete sw) tf err →
  ordered pair p (h ++ tf) (flushed sw err).
Proof.
  intros (Hpre & Hp & Hd) Hf. split; [by destruct err|]. split.
  - destruct err; simpl; [by apply pending_written_app|].
    intros k Hk. by apply elem_of_nil in Hk.
  - by eapply delete_after_sync_flush.
Qed.

Lemma ordered_swap SyncSize h sw old new t sw' err :
  pair old new → ordered pair p h sw → swap_outcome SyncSize sw old new t sw' err →
  ordered pair p (h ++ t) sw'.
Proof.
  intros Hpair Hord [(e & -> & -> & ->)|[(v & e & -> & -> & ->)|(v & tf & -> & Hc)]].
  - apply ordered_app; [done|]. intros k o Hin.
    by apply list_elem_of_singleton in Hin.
  - apply ordered_app; [done|]. intros k o Hin.
    apply elem_of_cons in Hin as [?|Hin]; [done|].
    by apply list_elem_of_singleton in Hin.
  - destruct Hord as (Hpre & Hp & Hd).
    assert (Hord1 : ∀ n c, ordered pair p (h ++ [EGet old (inl v); EPut new v None])
              (mkSwapWorker n c (syncPrefix sw) (toDelete sw ++ [old]))).
    { intros n c. unfold ordered; simpl. split; [done|]. split.
      - intros k Hk. apply elem_of_app in Hk as [Hk|Hk].
        + by apply (pending_written_app h _ (toDelete sw)).
        + apply list_elem_of_singleton in Hk as ->. by exists h, new, v, [].
      - apply delete_after_sync_app; [done|]. intros k o Hin.
        apply elem_of_cons in Hin as [?|Hin]; [done|].
        by apply list_elem_of_singleton in Hin. }
    cbv zeta in Hc. destruct (SyncSize <=? _).
    + destruct Hc as [Hf ->].
      replace (h ++ EGet old (inl v) :: EPut new v None :: tf)
        with ((h ++ [EGet old (inl v); EPut new v None]) ++ tf)
        by (by rewrite <- app_assoc).
      apply ordered_flush; [apply Hord1|]. simpl. by rewrite Hpre in Hf.
    + destruct Hc as (-> & -> & ->). apply Hord1.
Qed.

End Ordering.

(** *** What the workers' loops emit *)

Lemma emits_finalSync sw errored t sw' errored' :
  emits (finalSync sw errored) t (sw', errored') ↔
  ∃ tf err r2,
    flush_trace (syncPrefix sw) (toDelete sw) tf err ∧
    t = tf ++ [ESync (syncPrefix sw) r2] ∧
    sw' = flushed sw err ∧ errored' = counted (counted errored err) r2.
Proof.
  unfold finalSync. rewrite emits_bind. split.
  - intros (t1 & [sw1 err] & t2 & H1 & H2 & ->).
    apply emits_syncAndDelete in H1 as [Hf ->].
    apply emits_bind in H2 as (t3 & r2 & t4 & H3 & H4 & ->).
    apply emits_sync in H3 as ->. apply emits_ret in H4 as [-> [= -> ->]].
    exists t1, err, r2. by destruct err.
  - intros (tf & err & r2 & Hf & -> & -> & ->).
    exists tf, (flushed sw err, err). eexists.
    split; [by apply emits_syncAndDelete|]. split; [|done].
    apply emits_bind. exists [ESync (syncPrefix sw) r2], r2, [].
    split; [apply emits_sync; by destruct err|].
    split; [by apply emits_ret|done].
Qed.

Section LoopFacts.
Context `{KeyCodec}.
Variable SyncSize : Z.

Lemma emits_swapStep cswap dryRun sw errored res t sw' errored' :
  emits (swapStep SyncSize cswap dryRun (sw, errored) res) t (sw', errored') →
  swapStep_outcome SyncSize cswap dryRun sw errored res t sw' errored'.
Proof.
  unfold swapStep, swapStep_outcome, candidate.
  destruct (res_Error res) as [e|].
  { intros Hr. by apply emits_ret in Hr as [-> [= -> ->]]. }
  destruct (dsKeyToCid _) as [c|e].
  2:{ intros Hr. by apply emits_ret in Hr as [-> [= -> ->]]. }
  destruct (Version c =? 0).
  { intros Hr. by apply emits_ret in Hr as [-> [= -> ->]]. }
  intros Hr. apply emits_bind in Hr as (t1 & [sw1 err] & t2 & H1 & H2 & ->).
  assert (Htail : t2 = match err with
                       | Some _ => []
                       | None => if SwapCh cswap
                                 then [ENotify (mkSwap (NewKey (res_Key res))
                                         (Child (Parent (NewKey (res_Key res)))
                                                (MultihashToDsKey (Hash c))))]
                                 else []
                       end ∧ sw' = sw1 ∧ errored' = counted errored err).
  { destruct err as [e|].
    - by apply emits_ret in H2 as [-> [= -> ->]].
    - apply emits_bind in H2 as (t3 & [] & t4 & H3 & H4 & ->).
      apply emits_notify in H3 as ->. apply emits_ret in H4 as [-> [= -> ->]].
      by rewrite app_nil_r. }
  destruct dryRun.
  - apply emits_ret in H1 as [-> [= -> ->]]. by destruct Htail as (-> & -> & ->).
  - destruct Htail as (-> & -> & ->). apply emits_swap in H1. eauto.
Qed.

Lemma emits_unswapStep cswap swker errored m sw t swker' errored' m' :
  emits (unswapStep SyncSize cswap (swker, errored, m) sw) t (swker', errored', m') →
  unswapStep_outcome SyncSize cswap swker errored m sw t swker' errored' m'.
Proof.
  unfold unswapStep, unswapStep_outcome. intros Hr.
  apply emits_bind in Hr as (t1 & [sw1 err] & t2 & H1 & H2 & ->).
  apply emits_swap in H1. exists t1, sw1, err. split; [done|].
  assert (Hfin : ∀ swk e0 t0,
    emits (notify cswap (mkSwap (New sw) (Old sw));;
           mret (swk, e0, <[New sw := Old sw]> m)) t0 (swker', errored', m') →
    t0 = (if SwapCh cswap then [ENotify (mkSwap (New sw) (Old sw))] else []) ∧
    swker' = swk ∧ errored' = e0 ∧ m' = <[New sw := Old sw]> m).
  { intros swk e0 t0 Hn. apply emits_bind in Hn as (t3 & [] & t4 & H3 & H4 & ->).
    apply emits_notify in H3 as ->. apply emits_ret in H4 as [-> [= -> -> ->]].
    by rewrite app_nil_r. }
  destruct err as [[|msg]|].
  - destruct (m !! New sw) as [swappedTo|].
    + apply emits_bind in H2 as (t3 & r1 & t4 & H3 & H4 & ->).
      apply emits_sync in H3 as ->.
      apply emits_bind in H4 as (t5 & r2 & t6 & H5 & H6 & ->).
      apply emits_Get_inv in H5 as ->. exists r1. destruct r2 as [v|e].
      * right. apply emits_bind in H6 as (t7 & o & t8 & H7 & H8 & ->).
        apply emits_Put_inv in H7 as ->. apply Hfin in H8 as (-> & -> & -> & ->).
        exists v, o. done.
      * left. apply emits_ret in H6 as [-> [= -> -> ->]]. by exists e.
    + apply emits_ret in H2 as [-> [= -> -> ->]]. by rewrite app_nil_r.
  - apply emits_ret in H2 as [-> [= -> -> ->]]. by rewrite app_nil_r.
  - apply Hfin in H2 as (-> & -> & -> & ->). done.
Qed.

End LoopFacts.

Ltac no_delete :=
  let k := fresh "k" in let o := fresh "o" in let Hin := fresh "Hin" in
  intros k o Hin; simpl in Hin;
  repeat (apply elem_of_cons in Hin as [?|Hin]; [done|]);
  by apply elem_of_nil in Hin.

Section WorkerOrdering.
Context `{KeyCodec}.
Variable SyncSize : Z.

Lemma ordered_one_more pair p h sw :
  ordered pair p h sw → ordered pair p h (one_more sw).
Proof. by intros (? & ? & ?). Qed.

Lemma ordered_swapStep cswap p h sw errored res t sw' errored' :
  ordered (λ k new, candidate k = Some new) p h sw →
  swapStep_outcome SyncSize cswap false sw errored res t sw' errored' →
  ordered (λ k new, candidate k = Some new) p (h ++ t) sw'.
Proof.
  intros Hord. unfold swapStep_outcome.
  destruct (res_Error res); [intros (-> & -> & ->); by rewrite app_nil_r|].
  destruct (candidate _) as [newKey|] eqn:Hc;
    [|intros (-> & -> & ->); by rewrite app_nil_r].
  intros (t1 & err & Hs & -> & ->). rewrite app_assoc.
  apply ordered_app; [by eapply ordered_swap|].
  destruct err; [no_delete|]. destruct (SwapCh cswap); no_delete.
Qed.

Lemma ordered_unswapStep cswap unswapCh p h swker errored m sw t swker' errored' m' :
  sw ∈ unswapCh →
  ordered (unswap_pair unswapCh) p h swker →
  unswapStep_outcome SyncSize cswap swker errored m sw t swker' errored' m' →
  ordered (unswap_pair unswapCh) p (h ++ t) swker'.
Proof.
  intros Hin Hord (t1 & sw1 & err & Hs & Hrest).
  assert (Hord1 : ordered (unswap_pair unswapCh) p (h ++ t1) sw1).
  { eapply ordered_swap; [|done..]. by exists sw. }
  destruct err as [[|msg]|].
  - destruct (m !! New sw) as [swappedTo|].
    + destruct Hrest as (r1 & [(e & -> & -> & _)|(v & o & -> & -> & _)]).
      * rewrite app_assoc. apply ordered_app; [done|no_delete].
      * rewrite app_assoc. apply ordered_one_more. apply ordered_app; [done|].
        destruct (SwapCh cswap); no_delete.
    + by destruct Hrest as (-> & -> & _).
  - by destruct Hrest as (-> & -> & _).
  - destruct Hrest as (-> & -> & _). rewrite app_assoc.
    apply ordered_app; [done|]. destruct (SwapCh cswap); no_delete.
Qed.

Lemma ordered_finalSync pair h sw errored t sw' errored' :
  ordered pair (syncPrefix sw) h sw →
  emits (finalSync sw errored) t (sw', errored') →
  delete_after_sync pair (syncPrefix sw) (h ++ t).
Proof.
  intros Hord Hf. apply emits_finalSync in Hf as (tf & err & r2 & Hf & -> & -> & ->).
  rewrite app_assoc. apply delete_after_sync_app; [|no_delete].
  by apply (ordered_flush _ _ h sw tf err).
Qed.

Lemma swapWorker_run_ordered cswap resultsCh t r :
  emits (swapWorker_run SyncSize cswap false resultsCh) t r →
  delete_after_sync (λ k new, candidate k = Some new) (Prefix cswap) t.
Proof.
  unfold swapWorker_run. intros Hr.
  apply emits_bind in Hr as (t1 & [sw errored] & t2 & H1 & H2 & ->).
  apply emits_bind in H2 as (t3 & [sw' errored'] & t4 & H3 & H4 & ->).
  apply emits_ret in H4 as [-> ->]. rewrite app_nil_r.
  assert (Hord : ordered (λ k new, candidate k = Some new) (Prefix cswap)
                         ([] ++ t1) (sw, errored).1).
  { apply (forEach_emits_inv (swapStep SyncSize cswap false)
             (λ h st, ordered (λ k new, candidate k = Some new) (Prefix cswap) h st.1)
             resultsCh) with (st := (mkSwapWorker 0 0 (Prefix cswap) [], 0)); [| |done].
    - intros h [sw0 e0] res t [sw1 e1] _ Hord Hstep. simpl in *.
      eapply ordered_swapStep; [exact Hord|]. apply emits_swapStep. exact Hstep.
    - split; [done|]. split.
      + intros k Hk. by apply elem_of_nil in Hk.
      + intros pre k o post Heq. by destruct pre. }
  simpl in Hord. assert (Hp : syncPrefix sw = Prefix cswap) by apply Hord.
  rewrite <- Hp in *. by eapply ordered_finalSync.
Qed.

Lemma unswapWorker_ordered cswap unswapCh t r :
  emits (unswapWorker SyncSize cswap unswapCh) t r →
  delete_after_sync (unswap_pair unswapCh) (Prefix cswap) t.
Proof.
  unfold unswapWorker, unswapLoop. intros Hr.
  apply emits_bind in Hr as (t1 & [[sw errored] m] & t2 & H1 & H2 & ->).
  apply emits_bind in H2 as (t3 & [sw' errored'] & t4 & H3 & H4 & ->).
  apply emits_ret in H4 as [-> ->]. rewrite app_nil_r.
  assert (Hord : ordered (unswap_pair unswapCh) (Prefix cswap)
                         ([] ++ t1) (sw, errored, m).1.1).
  { apply (forEach_emits_inv (unswapStep SyncSize cswap)
             (λ h st, ordered (unswap_pair unswapCh) (Prefix cswap) h st.1.1)
             unswapCh) with (st := (mkSwapWorker 0 0 (Prefix cswap) [], 0, ∅)); [| |done].
    - intros h [[sw0 e0] m0] rec t [[sw1 e1] m1] Hin Hord Hstep. simpl in *.
      eapply ordered_unswapStep; [exact Hin|exact Hord|]. apply emits_unswapStep. exact Hstep.
    - split; [done|]. split.
      + intros k Hk. by apply elem_of_nil in Hk.
      + intros pre k o post Heq. by destruct pre. }
  simpl in Hord. assert (Hp : syncPrefix sw = Prefix cswap) by apply Hord.
  rewrite <- Hp in *. by eapply ordered_finalSync.
Qed.

Context {S : Type} `{!Batching S}.

(** C3. On every datastore, within one worker: a call of [swap] queues a
    key for deletion only when it has read the key and written its value
    under the new key; and in the requests of a worker, forward or backward,
    every deletion of a key comes after the successful write of its value
    under the key it is swapped for and after a later successful sync of the
    prefix, from which only deletions of the same flush separate it. *)
Theorem sync_precedes_delete cswap (s : S) :
  (∀ sw old new,
     let '(sw', _, _, t) := run (swap SyncSize sw old new) s in
     ∀ k, k ∈ toDelete sw' →
       k ∈ toDelete sw ∨
       (k = old ∧ ∃ v t', t = EGet old (inl v) :: EPut new v None :: t'))
  ∧ (∀ resultsCh,
       let '(_, _, t) := run (swapWorker_run SyncSize cswap false resultsCh) s in
       delete_after_sync (λ k new, candidate k = Some new) (Prefix cswap) t)
  ∧ (∀ unswapCh,
       let '(_, _, t) := run (unswapWorker SyncSize cswap unswapCh) s in
       delete_after_sync (unswap_pair unswapCh) (Prefix cswap) t).
Proof.
  split; [|split].
  - intros sw old new.
    destruct (run _ s) as [[[sw' err] s'] t] eqn:Hrun.
    apply run_emits, emits_swap in Hrun.
    destruct Hrun as [(e & -> & -> & ->)|[(v & e & -> & -> & ->)|(v & tf & -> & Hc)]];
      intros k Hk; [by left..|].
    cbv zeta in Hc. destruct (SyncSize <=? _).
    + destruct Hc as [_ ->]. destruct err; simpl in Hk.
      * apply elem_of_app in Hk as [Hk|Hk]; [by left|].
        apply list_elem_of_singleton in Hk as ->. right. eauto.
      * by apply elem_of_nil in Hk.
    + destruct Hc as (-> & -> & ->). simpl in Hk.
      apply elem_of_app in Hk as [Hk|Hk]; [by left|].
      apply list_elem_of_singleton in Hk as ->. right. eauto.
  - intros resultsCh. destruct (run _ s) as [[r s'] t] eqn:Hrun.
    apply run_emits in Hrun. by eapply swapWorker_run_ordered.
  - intros unswapCh. destruct (run _ s) as [[r s'] t] eqn:Hrun.
    apply run_emits in Hrun. by eapply unswapWorker_ordered.
Qed.

End WorkerOrdering.

Lemma sync_precedes_delete_witness :
  let '(_, _, t) :=
    run (swapWorker_run Sample.syncSize Sample.cswap false
           [Sample.result Sample.A; Sample.result Sample.B]) Sample.store_collapse in
  t = take 8 t ++ EDelete Sample.B None :: drop 9 t
  ∧ ∃ t1 new v t2 t3,
      candidate Sample.B = Some new ∧
      take 8 t = t1 ++ EGet Sample.B (inl v) :: EPut new v None
                    :: t2 ++ ESync Sample.blocks None :: t3 ∧
      Forall is_delete_ok t3.
Proof.
  destruct (sync_precedes_delete Sample.syncSize Sample.cswap Sample.store_collapse)
    as (_ & Hw & _).
  specialize (Hw [Sample.result Sample.A; Sample.result Sample.B]).
  assert (Ht : let t := (run (swapWorker_run Sample.syncSize Sample.cswap false
                     [Sample.result Sample.A; Sample.result Sample.B])
                   Sample.store_collapse).2 in
               t = take 8 t ++ EDelete Sample.B None :: drop 9 t)
    by (vm_compute; reflexivity).
  revert Hw Ht.
  destruct (run _ Sample.store_collapse) as [[r s'] t]. cbv beta iota zeta. cbn [snd].
  intros Hw Ht.
  split; [exact Ht|]. exact (Hw (take 8 t) Sample.B None (drop 9 t) Ht).
Defined.

(** ** Flushes of the swap batch *)

Lemma deletes_trace_all_ok keys t : deletes_trace keys t None → t = map (λ k, EDelete k None) keys.
Proof.
  revert t. induction keys as [|k keys IH]; intros t Hd; inversion Hd; subst; [done|].
  simpl. f_equal. by apply IH.
Qed.

Lemma flush_trace_all_ok p keys t : flush_trace p keys t None → t = two_step_flush p keys.
Proof.
  intros Hf. inversion Hf as [|td r Hd]; subst. unfold two_step_flush. f_equal.
  by apply deletes_trace_all_ok.
Qed.

(** On the in-memory datastore of the sample, with a batch size of 2 bytes:
    swapping [A], whose value has 2 bytes, reaches the batch size, and the
    flush is a sync and the deletion of [A], with no sync after it. *)
Lemma threshold_flush_counterexample :
  let '(sw', err, _, t) :=
    run (swap 2 Sample.worker0 Sample.A Sample.C)
        ({[Sample.A := Sample.value]} : gmap Key bytes) in
  2 ≤ u64 (curSyncSize Sample.worker0 + u64 (Z.of_nat (length Sample.value))) ∧
  err = None ∧ curSyncSize sw' = 0 ∧
  t = [EGet Sample.A (inl Sample.value); EPut Sample.C Sample.value None]
        ++ two_step_flush Sample.blocks [Sample.A] ∧
  t ≠ [EGet Sample.A (inl Sample.value); EPut Sample.C Sample.value None]
        ++ three_step_flush Sample.blocks [Sample.A].
Proof. vm_compute. repeat split; done. Qed.

Lemma swap_outcome_prefix SyncSize sw old new t sw' err :
  swap_outcome SyncSize sw old new t sw' err → syncPrefix sw' = syncPrefix sw.
Proof.
  intros [(e & _ & -> & _)|[(v & e & _ & -> & _)|(v & tf & _ & Hc)]]; [done..|].
  cbv zeta in Hc. destruct (SyncSize <=? _).
  - destruct Hc as [_ ->]. by destruct err.
  - by destruct Hc as (_ & _ & ->).
Qed.

Section Flushes.
Context `{KeyCodec} {S : Type} `{!Batching S}.
Variable SyncSize : Z.

Lemma swapStep_outcome_prefix cswap dryRun sw errored res t sw' errored' :
  swapStep_outcome SyncSize cswap dryRun sw errored res t sw' errored' →
  syncPrefix sw' = syncPrefix sw.
Proof.
  unfold swapStep_outcome. destruct (res_Error res); [by intros (_ & -> & _)|].
  destruct (candidate _); [|by intros (_ & -> & _)].
  destruct dryRun; [by intros (_ & -> & _)|].
  intros (t1 & err & Hs & _). by eapply swap_outcome_prefix.
Qed.

Lemma unswapStep_outcome_prefix cswap swker errored m sw t swker' errored' m' :
  unswapStep_outcome SyncSize cswap swker errored m sw t swker' errored' m' →
  syncPrefix swker' = syncPrefix swker.
Proof.
  intros (t1 & sw1 & err & Hs & Hrest). apply swap_outcome_prefix in Hs.
  destruct err as [[|msg]|].
  - destruct (m !! New sw).
    + by destruct Hrest as (r1 & [(e & _ & -> & _)|(v & o & _ & -> & _)]).
    + by destruct Hrest as (_ & -> & _).
  - by destruct Hrest as (_ & -> & _).
  - by destruct Hrest as (_ & -> & _).
Qed.

Lemma dry_run_no_request cswap resultsCh t r :
  emits (swapWorker_run SyncSize cswap true resultsCh) t r →
  Forall (λ e, is_request e = false) t.
Proof.
  unfold swapWorker_run. intros Hr.
  apply emits_bind in Hr as (t1 & [sw errored] & t2 & H1 & H2 & ->).
  apply emits_bind in H2 as (t3 & [sw' errored'] & t4 & H3 & H4 & ->).
  apply emits_ret in H3 as [-> _]. apply emits_ret in H4 as [-> _].
  rewrite !app_nil_r.
  refine (forEach_emits_inv (swapStep SyncSize cswap true)
            (λ h _, Forall (λ e, is_request e = false) h) resultsCh _ [] _ _ _ _ H1);
    [|done].
  intros h [sw0 e0] res t [sw1 e1] _ Hh Hstep. apply emits_swapStep in Hstep.
  apply Forall_app. split; [done|]. unfold swapStep_outcome in Hstep.
  destruct (res_Error res); [by destruct Hstep as (-> & _)|].
  destruct (candidate _); [|by destruct Hstep as (-> & _)].
  destruct Hstep as (-> & _). destruct (SwapCh cswap); repeat constructor.
Qed.

(** C4, as the code has it.  On every datastore: when a call of [swap] has
    written the value and the byte counter has reached [SyncSize], the
    counter is reset and the flush is a sync of the prefix followed, when it
    succeeds, by the deletion of the pending keys up to the first failure,
    with no sync after the deletions (when nothing fails: the two steps
    [two_step_flush], and no key is left pending); below [SyncSize] there is
    no flush.  A worker that is not in a dry run, forward or backward, ends
    with the flush of the keys its loop left pending followed by a sync of
    the prefix (when nothing fails: the three steps [three_step_flush]).  A
    dry run makes no request at all. *)
Theorem flush_steps cswap (s : S) :
  (∀ sw old new,
     let '(sw', err, _, t) := run (swap SyncSize sw old new) s in
     ∀ v t', t = EGet old (inl v) :: EPut new v None :: t' →
       let cur := u64 (curSyncSize sw + u64 (Z.of_nat (length v))) in
       (SyncSize ≤ cur →
          curSyncSize sw' = 0 ∧
          flush_trace (syncPrefix sw) (toDelete sw ++ [old]) t' err ∧
          (err = None →
             t' = two_step_flush (syncPrefix sw) (toDelete sw ++ [old]) ∧
             toDelete sw' = []))
       ∧ (cur < SyncSize → t' = [] ∧ curSyncSize sw' = cur))
  ∧ (∀ resultsCh,
       let '(sw, _, s1, h) :=
         run (forEach (swapStep SyncSize cswap false)
                      (mkSwapWorker 0 0 (Prefix cswap) [], 0) resultsCh) s in
       let '(_, _, t) := run (swapWorker_run SyncSize cswap false resultsCh) s in
       ∃ tf err r2,
         t = h ++ tf ++ [ESync (Prefix cswap) r2] ∧
         flush_trace (Prefix cswap) (toDelete sw) tf err ∧
         (err = None → r2 = None →
            tf ++ [ESync (Prefix cswap) r2] = three_step_flush (Prefix cswap) (toDelete sw)))
  ∧ (∀ unswapCh,
       let '(swker, _, _, s1, h) := run (unswapLoop SyncSize cswap unswapCh) s in
       let '(_, _, t) := run (unswapWorker SyncSize cswap unswapCh) s in
       ∃ tf err r2,
         t = h ++ tf ++ [ESync (Prefix cswap) r2] ∧
         flush_trace (Prefix cswap) (toDelete swker) tf err ∧
         (err = None → r2 = None →
            tf ++ [ESync (Prefix cswap) r2]
            = three_step_flush (Prefix cswap) (toDelete swker)))
  ∧ (∀ resultsCh,
       let '(_, s', t) := run (swapWorker_run SyncSize cswap true resultsCh) s in
       Forall (λ e, is_request e = false) t).
Proof.
  split; [|split; [|split]].
  - intros sw old new. destruct (run _ s) as [[[sw' err] s'] t] eqn:Hrun.
    apply run_emits, emits_swap in Hrun. intros v t' Ht cur.
    destruct Hrun as [(e & -> & _)|[(v0 & e & -> & _)|(v0 & tf & -> & Hc)]];
      [discriminate..|].
    simplify_eq. cbv zeta in Hc. fold cur in Hc. split.
    + intros Hle. apply Z.leb_le in Hle. rewrite Hle in Hc. destruct Hc as [Hf ->].
      split; [by destruct err|]. split; [done|]. intros ->. simpl.
      split; [by apply flush_trace_all_ok|done].
    + intros Hlt. apply Z.leb_gt in Hlt. rewrite Hlt in Hc.
      by destruct Hc as (-> & -> & ->).
  - intros resultsCh. unfold swapWorker_run. rewrite run_bind.
    destruct (run (forEach _ _ _) s) as [[[sw errored] s1] h] eqn:Hloop.
    assert (Hp : syncPrefix sw = Prefix cswap).
    { apply run_emits in Hloop.
      refine (forEach_emits_inv (swapStep SyncSize cswap false)
                (λ _ st, syncPrefix st.1 = Prefix cswap) resultsCh _ [] _ _ _ _ Hloop);
        [|done].
      intros h0 [sw0 e0] res t0 [sw1 e1] _ Hh Hstep.
      apply emits_swapStep, swapStep_outcome_prefix in Hstep. simpl in *. congruence. }
    destruct (run _ s1) as [[r s2] t2] eqn:Hfin.
    apply run_emits in Hfin.
    apply emits_bind in Hfin as (t3 & [sw' errored'] & t4 & H3 & H4 & ->).
    apply emits_ret in H4 as [-> _]. rewrite app_nil_r.
    apply emits_finalSync in H3 as (tf & err & r2 & Hf & -> & _).
    rewrite Hp in *. exists tf, err, r2. split; [done|]. split; [done|].
    intros -> ->. unfold three_step_flush. f_equal. by apply flush_trace_all_ok.
  - intros unswapCh. unfold unswapWorker. rewrite run_bind.
    destruct (run (unswapLoop _ _ _) s) as [[[[swker errored] m] s1] h] eqn:Hloop.
    assert (Hp : syncPrefix swker = Prefix cswap).
    { apply run_emits in Hloop. unfold unswapLoop in Hloop.
      refine (forEach_emits_inv (unswapStep SyncSize cswap)
                (λ _ st, syncPrefix st.1.1 = Prefix cswap) unswapCh _ [] _ _ _ _ Hloop);
        [|done].
      intros h0 [[sw0 e0] m0] rec t0 [[sw1 e1] m1] _ Hh Hstep.
      apply emits_unswapStep, unswapStep_outcome_prefix in Hstep. simpl in *. congruence. }
    destruct (run _ s1) as [[r s2] t2] eqn:Hfin.
    apply run_emits in Hfin.
    apply emits_bind in Hfin as (t3 & [sw' errored'] & t4 & H3 & H4 & ->).
    apply emits_ret in H4 as [-> _]. rewrite app_nil_r.
    apply emits_finalSync in H3 as (tf & err & r2 & Hf & -> & _).
    rewrite Hp in *. exists tf, err, r2. split; [done|]. split; [done|].
    intros -> ->. unfold three_step_flush. f_equal. by apply flush_trace_all_ok.
  - intros resultsCh. destruct (run _ s) as [[r s'] t] eqn:Hrun.
    apply run_emits in Hrun. by eapply dry_run_no_request.
Qed.

End Flushes.

Lemma flush_steps_witness :
  let '(sw', err, _, t) :=
    run (swap 2 Sample.worker0 Sample.A Sample.C) Sample.store_collapse in
  t = EGet Sample.A (inl Sample.value) :: EPut Sample.C Sample.value None :: drop 2 t
  ∧ curSyncSize sw' = 0
  ∧ flush_trace Sample.blocks [Sample.A] (drop 2 t) err
  ∧ drop 2 t = two_step_flush Sample.blocks [Sample.A]
  ∧ toDelete sw' = [].
Proof.
  destruct (flush_steps 2 Sample.cswap Sample.store_collapse) as (Hw & _).
  specialize (Hw Sample.worker0 Sample.A Sample.C).
  assert (Ht : let x := run (swap 2 Sample.worker0 Sample.A Sample.C)
                          Sample.store_collapse in
               x.2 = EGet Sample.A (inl Sample.value)
                       :: EPut Sample.C Sample.value None :: drop 2 x.2
               ∧ x.1.1.2 = None)
    by (vm_compute; split; reflexivity).
  revert Hw Ht.
  destruct (run _ Sample.store_collapse) as [[[sw' err] s'] t].
  cbv beta iota zeta. cbn [fst snd]. intros Hw [Ht Herr].
  destruct (Hw Sample.value (drop 2 t) Ht) as [Hge _].
  destruct Hge as (Hcur & Hflush & Hok); [vm_compute; discriminate|].
  destruct (Hok Herr) as [Htwo Hdel].
  split; [exact Ht|]. split; [exact Hcur|]. split; [exact Hflush|].
  split; [exact Htwo|exact Hdel].
Defined.

(** ** The de-duplication map of the backward worker *)

Lemma u64_succ_neq x : u64 (x + 1) ≠ x.
Proof.
  unfold u64. intros Heq.
  pose proof (Z.mod_pos_bound (x + 1) (2 ^ 64) ltac:(lia)) as Hb.
  assert (Hx : 0 ≤ x < 2 ^ 64) by lia.
  destruct (decide (x + 1 < 2 ^ 64)).
  - rewrite Z.mod_small in Heq by lia. lia.
  - assert (x + 1 = 2 ^ 64) as Hmax by lia. rewrite Hmax, Z.mod_same in Heq by lia. lia.
Qed.

(** On the in-memory datastore of the sample, where [A] and [B] were both
    swapped for [C]: once [A] is restored the entry of [C] names [A]; once
    [B] is restored too, with no error, the entry names [B]. *)
Lemma first_success_counterexample :
  let store : gmap Key bytes := {[Sample.C := Sample.value]} in
  let '(_, errored1, m1, _, _) :=
    run (unswapLoop Sample.syncSize Sample.cswap [mkSwap Sample.A Sample.C]) store in
  let '(_, errored2, m2, _, _) :=
    run (unswapLoop Sample.syncSize Sample.cswap
           [mkSwap Sample.A Sample.C; mkSwap Sample.B Sample.C]) store in
  errored1 = 0 ∧ m1 !! Sample.C = Some Sample.A ∧
  errored2 = 0 ∧ m2 !! Sample.C = Some Sample.B ∧ m2 !! Sample.C ≠ Some Sample.A.
Proof. vm_compute. repeat split; done. Qed.

Section RevertSteps.
Context {S : Type} `{!Batching S}.
Variable SyncSize : Z.

(** C7, as the code has it.  On every datastore, one iteration of the backward
    worker either leaves the map as it is and counts an error, or sets the
    entry of the swap's new key to the swap's old key, whatever the entry
    was; and it does the latter whenever it counts no error.  So the entry
    of a new key names the old key of the last swap restored for it. *)
Theorem last_success_wins (cswap : CidSwapper) (swker : swapWorker) (errored : Z)
    (m : gmap Key Key) (sw : Swap) (s : S) :
  let '(_, errored', m', _, _) := run (unswapStep SyncSize cswap (swker, errored, m) sw) s in
  (m' = <[New sw := Old sw]> m ∨ (m' = m ∧ errored' = u64 (errored + 1)))
  ∧ (errored' = errored → m' !! New sw = Some (Old sw)).
Proof.
  destruct (run _ s) as [[[[swker' errored'] m'] s'] t] eqn:Hrun.
  apply run_emits, emits_unswapStep in Hrun.
  destruct Hrun as (t1 & sw1 & err & Hs & Hrest).
  assert (Hne := u64_succ_neq errored).
  destruct err as [[|msg]|].
  - destruct (m !! New sw) as [swappedTo|].
    + destruct Hrest as (r1 & [(e & _ & _ & -> & ->)|(v & o & _ & _ & -> & ->)]).
      * split; [by right|done].
      * split; [by left|]. intros _. by rewrite lookup_insert_eq.
    + destruct Hrest as (_ & _ & -> & ->). split; [by right|done].
  - destruct Hrest as (_ & _ & -> & ->). split; [by right|done].
  - destruct Hrest as (_ & _ & -> & ->). split; [by left|].
    intros _. by rewrite lookup_insert_eq.
Qed.

(** C10. On every datastore, in one iteration of the backward worker: when
    the value is missing under the swap's new key, the map names a key
    restored before, its value is read, and writing it under the swap's old
    key fails, then the error is counted and yet the iteration goes on as
    after a success: the worker's count of swaps is incremented, the swap is
    notified (when a channel is set) and the map's entry of the new key is
    set to the old key. *)
Theorem failed_restore_is_counted (cswap : CidSwapper) (swker : swapWorker) (errored : Z)
    (m : gmap Key Key) (sw : Swap) (s : S) :
  let '(swker', errored', m', _, t) :=
    run (unswapStep SyncSize cswap (swker, errored, m) sw) s in
  ∀ r1 swappedTo v e rest,
    t = EGet (New sw) (inr ErrNotFound) :: ESync (syncPrefix swker) r1
          :: EGet swappedTo (inl v) :: EPut (Old sw) v (Some e) :: rest →
    m !! New sw = Some swappedTo ∧
    swker' = one_more swker ∧
    errored' = u64 (errored + 1) ∧
    rest = (if SwapCh cswap then [ENotify (mkSwap (New sw) (Old sw))] else []) ∧
    m' = <[New sw := Old sw]> m.
Proof.
  destruct (run _ s) as [[[[swker' errored'] m'] s'] t] eqn:Hrun.
  apply run_emits, emits_unswapStep in Hrun.
  intros r1 swappedTo v e rest Ht.
  destruct Hrun as (t1 & sw1 & err & Hs & Hrest).
  assert (Hpre : ∃ t2, t = t1 ++ t2).
  { destruct err as [[|msg]|]; [destruct (m !! New sw)|..].
    - destruct Hrest as (r1' & [(e1 & -> & _)|(v1 & o & -> & _)]); eauto.
    - destruct Hrest as (-> & _). exists []. by rewrite app_nil_r.
    - destruct Hrest as (-> & _). exists []. by rewrite app_nil_r.
    - destruct Hrest as (-> & _). eauto. }
  destruct Hs as [(e0 & -> & -> & ->)|[(v0 & e0 & -> & _)|(v0 & tf & -> & _)]];
    [|destruct Hpre as [t2 ->]; discriminate..].
  clear Hpre.
  destruct e0 as [|msg].
  - destruct (m !! New sw) as [swappedTo'|].
    + destruct Hrest as (r1' & [(e1 & -> & _)|(v1 & o & -> & -> & -> & ->)]).
      * simplify_eq.
      * simpl in Ht. simplify_eq. done.
    + destruct Hrest as (-> & _). simplify_eq.
  - destruct Hrest as (-> & _). simplify_eq.
Qed.

End RevertSteps.

Lemma last_success_wins_witness :
  let m : gmap Key Key := {[Sample.C := Sample.A]} in
  let store : gmap Key bytes := {[Sample.C := Sample.value]} in
  let '(_, errored', m', _, _) :=
    run (unswapStep Sample.syncSize Sample.cswap (Sample.worker0, 0, m)
           (mkSwap Sample.B Sample.C)) store in
  errored' = 0 ∧ m !! Sample.C = Some Sample.A ∧ m' !! Sample.C = Some Sample.B.
Proof.
  intros m store.
  pose proof (last_success_wins Sample.syncSize Sample.cswap Sample.worker0 0 m
                (mkSwap Sample.B Sample.C) store) as Hw.
  assert (Herr : (run (unswapStep Sample.syncSize Sample.cswap (Sample.worker0, 0, m)
                         (mkSwap Sample.B Sample.C)) store).1.1.1.2 = 0)
    by (vm_compute; reflexivity).
  revert Hw Herr.
  destruct (run _ store) as [[[[swker' errored'] m'] s'] t]. cbn [fst snd].
  intros [_ Hw] Herr.
  split; [exact Herr|]. split; [reflexivity|]. apply Hw. exact Herr.
Defined.

Lemma failed_restore_is_counted_witness :
  let m : gmap Key Key := {[Sample.C := Sample.A]} in
  let '(swker', errored', m', _, t) :=
    run (unswapStep Sample.syncSize Sample.cswap (Sample.worker0, 0, m)
           (mkSwap Sample.B Sample.C)) Sample.store_put_fails in
  t = [EGet Sample.C (inr ErrNotFound); ESync Sample.blocks None;
       EGet Sample.A (inl Sample.value);
       EPut Sample.B Sample.value (Some (Err "put failed"));
       ENotify (mkSwap Sample.C Sample.B)]
  ∧ swker' = one_more Sample.worker0
  ∧ errored' = u64 (0 + 1)
  ∧ m' = <[Sample.C := Sample.B]> m.
Proof.
  intros m.
  pose proof (failed_restore_is_counted Sample.syncSize Sample.cswap Sample.worker0 0 m
                (mkSwap Sample.B Sample.C) Sample.store_put_fails) as Hw.
  assert (Ht : (run (unswapStep Sample.syncSize Sample.cswap (Sample.worker0, 0, m)
                       (mkSwap Sample.B Sample.C)) Sample.store_put_fails).2
               = [EGet Sample.C (inr ErrNotFound); ESync Sample.blocks None;
                  EGet Sample.A (inl Sample.value);
                  EPut Sample.B Sample.value (Some (Err "put failed"));
                  ENotify (mkSwap Sample.C Sample.B)])
    by (vm_compute; reflexivity).
  revert Hw Ht.
  destruct (run _ Sample.store_put_fails) as [[[[swker' errored'] m'] s'] t].
  cbn [fst snd]. intros Hw Ht.
  destruct (Hw None Sample.A Sample.value (Err "put failed")
              [ENotify (mkSwap Sample.C Sample.B)] Ht) as (_ & H1 & H2 & _ & H3).
  split; [exact Ht|]. split; [exact H1|]. split; [exact H2|exact H3].
Defined.

(** ** Reversal by the orchestration *)

Section RevertOrchestration.
Context `{KeyCodec} {S : Type} `{!Batching S}.
Variable SyncSize : Z.

(** C9. When the repository is locked, checked and opened, the backup file
    is read up to a line that does not parse ([scannerErr] is that error),
    and the engine reverts the swaps read before it without error, then
    [Migration.Revert] returns the engine's error variable, which is nil, and
    not the scan error; the version file and the backup file are left as
    they were. *)
Theorem scan_error_is_lost (out : Outcomes) (repo : Repo S) lines unswapCh scannerErr :
  lock_err out = None →
  version repo = "9"%string →
  open_err out = None →
  backup repo = Some lines →
  file_err out = None →
  Migration.scanBackup lines = (unswapCh, Some scannerErr) →
  let '(_, err, _, _) :=
    Engine.Revert SyncSize (mkCidSwapper [] false) unswapCh (dstore repo) in
  let '(result, repo', _) := Migration.Revert SyncSize out repo in
  err = None →
  result = err ∧ result ≠ Some scannerErr ∧
  version repo' = "9"%string ∧ backup repo' = Some lines.
Proof.
  intros Hlock Hver Hopen Hbackup Hfile Hscan.
  unfold Migration.Revert, Migration.CheckVersion.
  rewrite Hlock, Hver, Hopen, Hbackup, Hfile, Hscan.
  destruct (decide _) as [_|]; [|done].
  destruct (Engine.Revert _ _ _ _) as [[[total err] s1] tr].
  destruct err as [e|]; [done|]. by intros _.
Qed.

End RevertOrchestration.

Lemma scan_error_is_lost_witness :
  let lines := [KeyString Sample.A; "/blocks/zz"%string] in
  Migration.scanBackup lines
    = ([mkSwap Sample.A Sample.C], Some (Err "illegal key data"))
  ∧ let '(_, err, _, _) :=
      Engine.Revert Sample.syncSize (mkCidSwapper [] false) [mkSwap Sample.A Sample.C]
        (dstore Sample.repo9_bad_log) in
    let '(result, repo', _) :=
      Migration.Revert Sample.syncSize Sample.ok Sample.repo9_bad_log in
    err = None ∧ result = None ∧ result ≠ Some (Err "illegal key data")
    ∧ version repo' = "9"%string ∧ backup repo' = Some lines.
Proof.
  intros lines.
  assert (Hscan : Migration.scanBackup lines
                  = ([mkSwap Sample.A Sample.C], Some (Err "illegal key data")))
    by (vm_compute; reflexivity).
  split; [exact Hscan|].
  pose proof (scan_error_is_lost Sample.syncSize Sample.ok Sample.repo9_bad_log lines
                [mkSwap Sample.A Sample.C] (Err "illegal key data")
                eq_refl eq_refl eq_refl eq_refl eq_refl Hscan) as Hw.
  assert (Herr : (Engine.Revert Sample.syncSize (mkCidSwapper [] false)
                    [mkSwap Sample.A Sample.C] (dstore Sample.repo9_bad_log)).1.1.2
                 = None)
    by (vm_compute; reflexivity).
  revert Hw Herr.
  destruct (Engine.Revert _ _ _ _) as [[[total err] s1] tr]. cbn [fst snd].
  destruct (Migration.Revert _ _ _) as [[result repo'] acts].
  intros Hw Herr. destruct (Hw Herr) as (Hres & Hne & Hver & Hbackup).
  split; [exact Herr|]. split; [by rewrite Hres|]. split; [exact Hne|].
  split; [exact Hver|exact Hbackup].
Defined.

(** ** Runs of a pool of workers *)

Section PoolFacts.
Context {S : Type} `{!Batching S} {A : Type}.
Implicit Types (pool : list (prog A)) (s : S) (tr : list (nat * event)).

Lemma reach_trans (st1 st2 st3 : @pool_state S A) :
  reach st1 st2 → reach st2 st3 → reach st1 st3.
Proof.
  induction 1 as [st|st i st' Hr IH]; [done|]. intros H3.
  eapply reach_step. by apply IH.
Qed.

Lemma reach_schedule sched (st : @pool_state S A) : reach st (fold_left pool_step sched st).
Proof.
  revert st. induction sched as [|i sched IH]; intros st; simpl.
  - constructor.
  - eapply reach_step. apply IH.
Qed.

(** What a step of the pool is: nothing, or one request of one goroutine. *)
Lemma pool_step_cases pool s tr i :
  pool_step (pool, s, tr) i = (pool, s, tr)
  ∨ ∃ p p' s' e,
      pool !! i = Some p ∧ step p s = Some (p', s', e) ∧
      pool_step (pool, s, tr) i = (<[i := p']> pool, s', tr ++ [(i, e)]).
Proof.
  unfold pool_step. destruct (pool !! i) as [p|] eqn:Hp; [|by left].
  destruct (step p s) as [[[p' s'] e]|] eqn:Hs; [|by left].
  right. by exists p, p', s', e.
Qed.

Lemma reach_inv (I : @pool_state S A → Prop) (st st' : @pool_state S A) :
  (∀ pool s tr i p p' s' e,
     I (pool, s, tr) → pool !! i = Some p → step p s = Some (p', s', e) →
     I (<[i := p']> pool, s', tr ++ [(i, e)])) →
  reach st st' → I st → I st'.
Proof.
  intros Hstep. induction 1 as [st|st i st' Hr IH]; [done|]. intros HI.
  apply IH. destruct st as [[pool s] tr].
  destruct (pool_step_cases pool s tr i) as [->|(p & p' & s' & e & Hp & Hs & ->)];
    [done|by eapply Hstep].
Qed.

Lemma reach_after_step pool s tr i (p p' : prog A) s1 e a s' t :
  pool !! i = Some p → step p s = Some (p', s1, e) →
  reach (<[i := p']> pool, s1, tr ++ [(i, e)])
        (<[i := Ret a]> (<[i := p']> pool), s', (tr ++ [(i, e)]) ++ map (pair i) t) →
  reach (pool, s, tr) (<[i := Ret a]> pool, s', tr ++ map (pair i) (e :: t)).
Proof.
  intros Hp Hs Hr. apply (reach_step _ i). unfold pool_step. rewrite Hp, Hs.
  rewrite list_insert_insert_eq, <- app_assoc in Hr. exact Hr.
Qed.

(** A goroutine of the pool run to its end. *)
Lemma reach_run pool s tr i (p : prog A) a s' t :
  pool !! i = Some p → run p s = (a, s', t) →
  reach (pool, s, tr) (<[i := Ret a]> pool, s', tr ++ map (pair i) t).
Proof.
  revert pool s tr s' t.
  induction p as [a0|k c IH|k v c IH|k c IH|q c IH|sw c IH];
    intros pool s tr s' t Hp Hrun; simpl in Hrun.
  - injection Hrun as <- <- <-. rewrite app_nil_r, list_insert_id by done. constructor.
  - destruct (ds_Get k s) as [r s1] eqn:Hop.
    destruct (run (c r) s1) as [[a1 s2] t1] eqn:Hr. injection Hrun as <- <- <-.
    eapply reach_after_step; [done|simpl; by rewrite Hop|].
    eapply IH; [|exact Hr]. apply list_lookup_insert_eq. by eapply lookup_lt_Some.
  - destruct (ds_Put k v s) as [r s1] eqn:Hop.
    destruct (run (c r) s1) as [[a1 s2] t1] eqn:Hr. injection Hrun as <- <- <-.
    eapply reach_after_step; [done|simpl; by rewrite Hop|].
    eapply IH; [|exact Hr]. apply list_lookup_insert_eq. by eapply lookup_lt_Some.
  - destruct (ds_Delete k s) as [r s1] eqn:Hop.
    destruct (run (c r) s1) as [[a1 s2] t1] eqn:Hr. injection Hrun as <- <- <-.
    eapply reach_after_step; [done|simpl; by rewrite Hop|].
    eapply IH; [|exact Hr]. apply list_lookup_insert_eq. by eapply lookup_lt_Some.
  - destruct (ds_Sync q s) as [r s1] eqn:Hop.
    destruct (run (c r) s1) as [[a1 s2] t1] eqn:Hr. injection Hrun as <- <- <-.
    eapply reach_after_step; [done|simpl; by rewrite Hop|].
    eapply IH; [|exact Hr]. apply list_lookup_insert_eq. by eapply lookup_lt_Some.
  - destruct (run c s) as [[a1 s2] t1] eqn:Hr. injection Hrun as <- <- <-.
    eapply reach_after_step; [done|done|].
    eapply IH; [|exact Hr]. apply list_lookup_insert_eq. by eapply lookup_lt_Some.
Qed.

Lemma reach_drain (rest pre : list (prog A)) s tr rs s' tr' :
  drain (length pre) rest s = (rs, s', tr') →
  reach (pre ++ rest, s, tr) (pre ++ map Ret rs, s', tr ++ tr').
Proof.
  revert pre s tr rs s' tr'.
  induction rest as [|p rest IH]; intros pre s tr rs s' tr' Hd; simpl in Hd.
  - injection Hd as <- <- <-. simpl. rewrite !app_nil_r. apply reach_refl.
  - destruct (run p s) as [[a s1] t] eqn:Hrun.
    destruct (drain _ rest s1) as [[rs2 s2] t2] eqn:Hd2. injection Hd as <- <- <-.
    eapply reach_trans.
    + eapply (reach_run _ _ _ (length pre)); [|done].
      by rewrite lookup_app_r, Nat.sub_diag.
    + rewrite insert_app_r_alt, Nat.sub_diag by done. simpl.
      replace (pre ++ Ret a :: rest) with ((pre ++ [Ret a]) ++ rest)
        by (by rewrite <- app_assoc).
      replace (pre ++ Ret a :: map Ret rs2) with ((pre ++ [Ret a]) ++ map Ret rs2)
        by (by rewrite <- app_assoc).
      rewrite app_assoc.
      apply (IH (pre ++ [Ret a])). by rewrite length_app, Nat.add_1_r.
Qed.

(** The run of a pool is reached by serving requests one at a time, and all
    the goroutines have returned at its end. *)
Lemma pool_exec_reach sched pool s rs s' tr :
  pool_exec sched pool s = (rs, s', tr) →
  reach (pool, s, []) (map Ret rs, s', tr).
Proof.
  unfold pool_exec. intros Hexec.
  pose proof (reach_schedule sched (pool, s, [])) as Hsched.
  destruct (fold_left pool_step sched (pool, s, [])) as [[pool1 s1] tr1].
  destruct (drain 0 pool1 s1) as [[rs1 s2] tr2] eqn:Hd. injection Hexec as <- <- <-.
  eapply reach_trans; [done|]. by apply (reach_drain pool1 [] s1 tr1).
Qed.

End PoolFacts.

(** ** What a pool run means for each worker *)

Lemma step_emits {S : Type} `{!Batching S} {A} (p p' : prog A) (s s' : S) e t a :
  step p s = Some (p', s', e) → emits p' t a → emits p (e :: t) a.
Proof.
  destruct p as [a0|k c|k v c|k c|q c|sw c]; simpl; [done|..].
  - destruct (ds_Get k s) as [r s1]. intros [= <- <- <-]. by constructor.
  - destruct (ds_Put k v s) as [r s1]. intros [= <- <- <-]. by constructor.
  - destruct (ds_Delete k s) as [r s1]. intros [= <- <- <-]. by constructor.
  - destruct (ds_Sync q s) as [r s1]. intros [= <- <- <-]. by constructor.
  - intros [= <- <- <-]. by constructor.
Qed.

Lemma trace_of_app i tr1 tr2 : trace_of i (tr1 ++ tr2) = trace_of i tr1 ++ trace_of i tr2.
Proof. unfold trace_of. by rewrite omap_app. Qed.

Lemma trace_of_single i j e :
  trace_of i [(j, e)] = if decide (j = i) then [e] else [].
Proof. unfold trace_of. simpl. by destruct (decide (j = i)). Qed.

Section Projection.
Context {S : Type} `{!Batching S} {A : Type}.

(** The requests of goroutine [i] in a pool run, with their answers, are a
    trace of the program of goroutine [i], and the run returns its result. *)
Lemma pool_exec_project sched (pool : list (prog A)) (s : S) rs s' tr :
  pool_exec sched pool s = (rs, s', tr) →
  length rs = length pool ∧
  ∀ i p, pool !! i = Some p → ∃ a, rs !! i = Some a ∧ emits p (trace_of i tr) a.
Proof.
  intros Hexec. apply pool_exec_reach in Hexec.
  pose (I := λ st : @pool_state S A,
    length st.1.1 = length pool ∧
    ∀ i p, pool !! i = Some p →
      ∃ p', st.1.1 !! i = Some p' ∧
            ∀ t a, emits p' t a → emits p (trace_of i st.2 ++ t) a).
  assert (HI : I (map Ret rs, s', tr)).
  { eapply (reach_inv I); [|exact Hexec|].
    - intros pool1 s1 tr1 i p p' s2 e [Hlen Hall] Hp Hstep. split.
      + simpl. by rewrite length_insert.
      + intros j p0 Hp0. simpl in *. destruct (Hall j p0 Hp0) as (q & Hq & Hem).
        destruct (decide (i = j)) as [->|Hne].
        * exists p'. split.
          -- apply list_lookup_insert_eq. by eapply lookup_lt_Some.
          -- intros t a Ha. rewrite trace_of_app, trace_of_single.
             rewrite decide_True by done. rewrite <- app_assoc. simpl.
             apply Hem. rewrite Hq in Hp. injection Hp as ->.
             by eapply step_emits.
        * exists q. split; [by rewrite list_lookup_insert_ne|].
          intros t a Ha. rewrite trace_of_app, trace_of_single.
          rewrite decide_False by done. rewrite app_nil_r. by apply Hem.
    - split; [done|]. intros i p Hp. exists p. split; [done|]. by intros t a. }
  destruct HI as [Hlen Hall]. simpl in *. rewrite length_map in Hlen.
  split; [done|]. intros i p Hp. destruct (Hall i p Hp) as (p' & Hp' & Hem).
  rewrite list_lookup_fmap in Hp'. destruct (rs !! i) as [a|]; [|done].
  injection Hp' as <-. exists a. split; [done|].
  specialize (Hem [] a (emits_Ret a)). by rewrite app_nil_r in Hem.
Qed.

End Projection.

(** *** Counters *)

Lemma u64_nonneg x : 0 ≤ u64 x.
Proof. unfold u64. apply Z.mod_pos_bound. lia. Qed.

Lemma u64_le x : 0 ≤ x → u64 x ≤ x.
Proof. intros Hx. unfold u64. apply Z.mod_le; lia. Qed.

Lemma u64_small x : 0 ≤ x < 2 ^ 64 → u64 x = x.
Proof. intros Hx. unfold u64. by apply Z.mod_small. Qed.

Lemma u64_add_l a b : u64 (u64 a + b) = u64 (a + b).
Proof. unfold u64. apply Z.add_mod_idemp_l. lia. Qed.

Lemma u64_add_r a b : u64 (a + u64 b) = u64 (a + b).
Proof. unfold u64. apply Z.add_mod_idemp_r. lia. Qed.

Lemma counted_bounds errored err : 0 ≤ errored → 0 ≤ counted errored err ≤ errored + 1.
Proof.
  intros He. destruct err; simpl; [|lia].
  split; [apply u64_nonneg|apply u64_le; lia].
Qed.

Lemma written_app t1 t2 : written (t1 ++ t2) = written t1 + written t2.
Proof. unfold written. rewrite filter_app, length_app. lia. Qed.

Lemma attempted_app t1 t2 : attempted (t1 ++ t2) = attempted t1 ++ attempted t2.
Proof. unfold attempted. by rewrite omap_app. Qed.

Lemma deletes_trace_quiet keys t r :
  deletes_trace keys t r → written t = 0 ∧ attempted t = [].
Proof. induction 1; by cbn. Qed.

Lemma flush_trace_quiet p keys t r :
  flush_trace p keys t r → written t = 0 ∧ attempted t = [].
Proof. destruct 1 as [e|t r Hd]; [done|]. by apply deletes_trace_quiet in Hd. Qed.

Lemma notify_quiet (b : bool) s :
  written (if b then [ENotify s] else []) = 0
  ∧ attempted (if b then [ENotify s] else []) = [].
Proof. by destruct b. Qed.

Lemma swap_outcome_counts SyncSize sw old new t sw' err c :
  swap_outcome SyncSize sw old new t sw' err → swapped sw = u64 c →
  attempted t = [old] ∧ swapped sw' = u64 (c + written t).
Proof.
  intros [(e & -> & -> & ->)|[(v & e & -> & -> & ->)|(v & tf & -> & Hc)]] Hsw.
  - cbn. by rewrite Z.add_0_r.
  - cbn. by rewrite Z.add_0_r.
  - assert (Hq : written tf = 0 ∧ attempted tf = []
                 ∧ swapped sw' = u64 (swapped sw + 1)).
    { cbv zeta in Hc. destruct (SyncSize <=? _).
      - destruct Hc as [Hf ->]. apply flush_trace_quiet in Hf as [-> ->].
        by destruct err.
      - by destruct Hc as (-> & -> & ->). }
    destruct Hq as (Hw & Ha & ->).
    change (EGet old (inl v) :: EPut new v None :: tf)
      with ([EGet old (inl v); EPut new v None] ++ tf).
    rewrite attempted_app, written_app, Ha, Hw, Hsw. cbn.
    split; [done|]. rewrite u64_add_l. f_equal; lia.
Qed.

(** A loop keeps what every run of its body keeps, also about the part of
    the channel it has gone through. *)
Lemma forEach_emits_ind {A St} (body : St → A → prog St)
    (I : list A → list event → St → Prop) :
  (∀ seen x h st t st',
     I seen h st → emits (body st x) t st' → I (seen ++ [x]) (h ++ t) st') →
  ∀ ch seen h st t st',
    I seen h st → emits (forEach body st ch) t st' → I (seen ++ ch) (h ++ t) st'.
Proof.
  intros Hbody. induction ch as [|x rest IH]; intros seen h st t st' HI Hem;
    cbn [forEach] in Hem.
  - apply emits_ret in Hem as [-> ->]. by rewrite !app_nil_r.
  - apply emits_bind in Hem as (t1 & st1 & t2 & H1 & H2 & ->).
    rewrite app_assoc, (cons_middle x), app_assoc. eapply IH; [|exact H2].
    by eapply Hbody.
Qed.

Section WorkerCounts.
Context `{KeyCodec}.
Variable SyncSize : Z.

Lemma candidates_snoc seen res :
  candidates (seen ++ [res]) =
  candidates seen ++
    match res_Error res with
    | Some _ => []
    | None => match candidate (NewKey (res_Key res)) with
              | Some _ => [NewKey (res_Key res)]
              | None => []
              end
    end.
Proof.
  unfold candidates. rewrite omap_app. f_equal. cbn.
  destruct (res_Error res); [done|]. by destruct (candidate _).
Qed.

(** What the forward worker returns, whatever the store answers: the
    number of values it wrote, having tried to read every candidate key it
    received, and a number of errors of at most two more than the results it
    received. *)
Lemma swapWorker_run_counts cswap dryRun resultsCh t n e :
  emits (swapWorker_run SyncSize cswap dryRun resultsCh) t (n, e) →
  0 ≤ e ≤ Z.of_nat (length resultsCh) + 2 ∧
  (dryRun = false → n = u64 (written t) ∧ attempted t = candidates resultsCh).
Proof.
  unfold swapWorker_run. intros Hr.
  apply emits_bind in Hr as (t1 & [sw errored] & t2 & H1 & H2 & ->).
  apply emits_bind in H2 as (t3 & [sw' errored'] & t4 & H3 & H4 & ->).
  apply emits_ret in H4 as [-> [= -> ->]]. rewrite app_nil_r.
  pose (I := λ (seen : list Result) (h : list event) (st : swapWorker * Z),
    0 ≤ st.2 ≤ Z.of_nat (length seen) ∧
    (dryRun = false →
       swapped st.1 = u64 (written h) ∧ attempted h = candidates seen)).
  assert (HI : I ([] ++ resultsCh) ([] ++ t1) (sw, errored)).
  { eapply (forEach_emits_ind (swapStep SyncSize cswap dryRun) I); [| |exact H1].
    - intros seen res h [sw0 e0] t [sw1 e1] [Hb Hc] Hstep.
      apply emits_swapStep in Hstep. unfold I in *. cbn [fst snd] in *.
      rewrite length_app, candidates_snoc, written_app, attempted_app. cbn [length].
      unfold swapStep_outcome in Hstep. destruct (res_Error res).
      { destruct Hstep as (-> & -> & ->). split.
        - pose proof (u64_nonneg (e0 + 1)). pose proof (u64_le (e0 + 1)). lia.
        - intros Hd. destruct (Hc Hd) as [-> ->]. cbn. by rewrite Z.add_0_r, app_nil_r. }
      destruct (candidate _) as [newKey|].
      2:{ destruct Hstep as (-> & -> & ->). split; [lia|].
          intros Hd. destruct (Hc Hd) as [-> ->]. cbn. by rewrite Z.add_0_r, app_nil_r. }
      destruct dryRun.
      { destruct Hstep as (-> & -> & ->). split; [lia|done]. }
      destruct Hstep as (t1' & err & Hs & -> & ->).
      destruct (Hc eq_refl) as [Hsw Hat]. split.
      + pose proof (counted_bounds e0 err). lia.
      + intros _. apply (swap_outcome_counts _ _ _ _ _ _ _ (written h)) in Hs
          as [Ha1 Hs1]; [|done].
        rewrite written_app, attempted_app, Ha1, Hat, Hs1.
        assert (Hq : written (match err with
                              | Some _ => []
                              | None => if SwapCh cswap
                                        then [ENotify (mkSwap (NewKey (res_Key res)) newKey)]
                                        else []
                              end) = 0
                     ∧ attempted (match err with
                              | Some _ => []
                              | None => if SwapCh cswap
                                        then [ENotify (mkSwap (NewKey (res_Key res)) newKey)]
                                        else []
                              end) = []).
        { destruct err; [done|]. apply notify_quiet. }
        destruct Hq as [-> ->]. by rewrite Z.add_0_r, app_nil_r.
    - unfold I. cbn. split; [lia|done]. }
  destruct HI as [Hb Hc]. cbn [fst snd app] in *. destruct dryRun.
  - apply emits_ret in H3 as [-> [= <- <-]]. split; [lia|done].
  - apply emits_finalSync in H3 as (tf & err & r2 & Hf & -> & -> & ->).
    apply flush_trace_quiet in Hf as [Hw Ha]. split.
    + pose proof (counted_bounds errored err).
      pose proof (counted_bounds (counted errored err) r2). lia.
    + intros _. destruct (Hc eq_refl) as [Hsw Hat].
      rewrite !written_app, !attempted_app, Hw, Ha, Hat. cbn.
      rewrite !Z.add_0_r, app_nil_r. by destruct err.
Qed.

End WorkerCounts.

(** *** The aggregate of a run *)

Lemma fold_u64_sum {A} (f : A → Z) (rs : list A) a :
  fold_left (λ acc r, u64 (acc + f r)) rs (u64 a) = u64 (a + sum_list (f <$> rs)).
Proof.
  revert a. induction rs as [|r rs IH]; intros a;
    cbn [fold_left fmap list_fmap]; unfold sum_list; cbn [foldr].
  - by rewrite Z.add_0_r.
  - rewrite u64_add_l, IH. unfold sum_list. f_equal. lia.
Qed.

Lemma sum_list_bounds {A} (f : A → Z) (rs : list A) B :
  Forall (λ r, 0 ≤ f r ≤ B) rs →
  0 ≤ sum_list (f <$> rs) ≤ Z.of_nat (length rs) * B
  ∧ (0 < sum_list (f <$> rs) ↔ Exists (λ r, 0 < f r) rs).
Proof.
  induction 1 as [|r rs Hr Hrs IH]; cbn [fmap list_fmap sum_list foldr length].
  - split; [lia|]. split; [lia|]. intros Hex. by apply Exists_nil in Hex.
  - destruct IH as [Hb Hiff]. fold (sum_list (f <$> rs)).
    split; [rewrite Nat2Z.inj_succ, Z.mul_succ_l; lia|].
    rewrite Exists_cons. split.
    + intros Hpos. destruct (decide (0 < f r)); [by left|]. right. apply Hiff. lia.
    + intros [Hpos|Hex]; [lia|]. apply Hiff in Hex. lia.
Qed.

Lemma received_length {A} n w deal (ch : list A) :
  (length (received n w deal ch) ≤ length ch)%nat.
Proof.
  revert deal. induction ch as [|x ch IH]; intros deal; cbn; [lia|].
  specialize (IH (tl deal)). destruct (decide _); cbn; lia.
Qed.

(** A run of [Run] whose query fails on the first request: the store of the
    sample that fails its first request.  The run returns an error, though
    no worker was started and so none recorded an error. *)
Lemma Run_error_counterexample :
  let store := mkFailStore {[Sample.A := Sample.value]} [Some (Err "query failed")] in
  let '(_, err, _, tr) := Run Sample.syncSize 4 Sample.cswap false [] [] store in
  err = Some (Err "query failed") ∧ tr = [] ∧
  Forall (λ r, r.2 = 0)
         (Run_workers Sample.syncSize 4 Sample.cswap false [] [] store).
Proof. vm_compute. repeat split; constructor. Qed.

Section RunResult.
Context `{KeyCodec} {S : Type} `{!Batching S}.
Variable SyncSize : Z.
Variable NWorkers : nat.

(** C6, as the code has it.  On every datastore, whichever worker gets
    which result and however the workers interleave: when the query fails,
    [Run] returns 0 and the error of the query, and no worker runs.
    Otherwise it returns the sum (modulo 2^64) of the counts of its
    [NWorkers] workers; the count of a worker of a real run is the number of
    values it wrote with success, and the worker has tried to read every
    candidate key it received, whatever failed before; and, when the results
    are few enough for the error counters not to wrap, a non-nil error is
    returned if and only if some worker counted an error. *)
Theorem Run_result cswap dryRun deal sched (s : S) :
  let rs := Run_workers SyncSize NWorkers cswap dryRun deal sched s in
  let '(total, err, _, tr) := Run SyncSize NWorkers cswap dryRun deal sched s in
  match (ds_Query (Prefix cswap) s).1 with
  | inr e => total = 0 ∧ err = Some e ∧ tr = [] ∧ rs = []
  | inl resultsCh =>
      length rs = NWorkers ∧
      total = u64 (sum_list (fst <$> rs)) ∧
      (Z.of_nat NWorkers * (Z.of_nat (length resultsCh) + 2) < 2 ^ 64 →
       err ≠ None ↔ Exists (λ r, 0 < r.2) rs) ∧
      ∀ w n e, rs !! w = Some (n, e) →
        let got := received NWorkers w deal resultsCh in
        emits (swapWorker_run SyncSize cswap dryRun got) (trace_of w tr) (n, e) ∧
        (dryRun = false →
           n = u64 (written (trace_of w tr)) ∧
           attempted (trace_of w tr) = candidates got)
  end.
Proof.
  unfold Run, Run_workers. cbv zeta.
  destruct (ds_Query (Prefix cswap) s) as [[resultsCh|e] s0]; cbn [fst].
  2:{ done. }
  unfold runWorkers.
  destruct (pool_exec sched _ s0) as [[rs s'] tr] eqn:Hexec. cbn [fst].
  apply pool_exec_project in Hexec as [Hlen Hproj].
  rewrite length_map, length_seq in Hlen.
  assert (Hworker : ∀ w n e, rs !! w = Some (n, e) →
            emits (swapWorker_run SyncSize cswap dryRun
                     (received NWorkers w deal resultsCh)) (trace_of w tr) (n, e)).
  { intros w n e Hw.
    assert (Hlt : (w < NWorkers)%nat) by (rewrite <- Hlen; by eapply lookup_lt_Some).
    edestruct (Hproj w) as (a & Ha & Hem).
    { rewrite list_lookup_fmap, lookup_seq_lt by done. reflexivity. }
    rewrite Hw in Ha. by injection Ha as <-. }
  assert (Herr : Forall (λ r : Z * Z, 0 ≤ r.2 ≤ Z.of_nat (length resultsCh) + 2) rs).
  { apply Forall_lookup. intros w [n e] Hw. apply Hworker in Hw.
    apply swapWorker_run_counts in Hw as [Hb _]. cbn.
    pose proof (received_length NWorkers w deal resultsCh). lia. }
  pose proof (fold_u64_sum fst rs 0) as Htotal.
  pose proof (fold_u64_sum snd rs 0) as Hnerr.
  change (u64 0) with 0 in Htotal, Hnerr. rewrite Z.add_0_l in Htotal, Hnerr.
  rewrite Htotal, Hnerr.
  apply (sum_list_bounds snd) in Herr as [Hb Hiff].
  assert (Hres : ∀ w n e, rs !! w = Some (n, e) →
            emits (swapWorker_run SyncSize cswap dryRun
                     (received NWorkers w deal resultsCh)) (trace_of w tr) (n, e) ∧
            (dryRun = false →
               n = u64 (written (trace_of w tr)) ∧
               attempted (trace_of w tr) = candidates (received NWorkers w deal resultsCh))).
  { intros w n e Hw. apply Hworker in Hw. split; [done|].
    by apply swapWorker_run_counts in Hw as [_ Hc]. }
  assert (Hiff' : Z.of_nat NWorkers * (Z.of_nat (length resultsCh) + 2) < 2 ^ 64 →
            (0 <? u64 (sum_list (snd <$> rs))) = true ↔ Exists (λ r : Z * Z, 0 < r.2) rs).
  { intros Hsmall. rewrite u64_small by (rewrite Hlen in Hb; lia).
    rewrite Z.ltb_lt. exact Hiff. }
  destruct (0 <? u64 (sum_list (snd <$> rs))) eqn:Hpos; cbv beta iota zeta.
  - split; [done|]. split; [done|]. split; [|exact Hres].
    intros Hsmall. split; [intros _; by apply Hiff'|done].
  - split; [done|]. split; [done|]. split; [|exact Hres].
    intros Hsmall. split; [done|]. intros Hex. apply Hiff' in Hex; [congruence|done].
Qed.

End RunResult.

Lemma Run_result_witness :
  let rs := Run_workers Sample.syncSize 2 Sample.cswap false [] []
              Sample.store_first_put_fails in
  let '(total, err, _, tr) :=
    Run Sample.syncSize 2 Sample.cswap false [] [] Sample.store_first_put_fails in
  length rs = 2%nat
  ∧ total = u64 (sum_list (fst <$> rs))
  ∧ err ≠ None
  ∧ Exists (λ r, 0 < r.2) rs.
Proof.
  pose proof (Run_result Sample.syncSize 2 Sample.cswap false [] []
                Sample.store_first_put_fails) as Hw.
  assert (Hq : ∃ resultsCh,
             (ds_Query (Prefix Sample.cswap) Sample.store_first_put_fails).1
             = inl resultsCh ∧ length resultsCh = 3%nat)
    by (eexists; split; vm_compute; reflexivity).
  assert (Herr : (Run Sample.syncSize 2 Sample.cswap false [] []
                    Sample.store_first_put_fails).1.1.2 ≠ None)
    by (vm_compute; discriminate).
  destruct Hq as (resultsCh & Hq & Hlen).
  cbv zeta in Hw |- *. rewrite Hq in Hw. revert Hw Herr.
  destruct (Run _ _ _ _ _ _ _) as [[[total err] s'] tr]. cbn [fst snd].
  intros (Hrs & Htotal & Hiff & _) Herr. rewrite Hlen in Hiff.
  split; [exact Hrs|]. split; [exact Htotal|]. split; [exact Herr|].
  apply Hiff; [reflexivity|exact Herr].
Defined.

(** ** The forward run on the in-memory datastore *)

Lemma concat_insert_perm {A} (ls : list (list A)) i l :
  ls !! i = Some l →
  ∃ rest, mjoin ls ≡ₚ l ++ rest ∧ ∀ l', mjoin (<[i := l']> ls) ≡ₚ l' ++ rest.
Proof.
  intros Hl. exists (mjoin (take i ls) ++ mjoin (drop (S i) ls)). split.
  - rewrite <- (take_drop_middle ls i l Hl) at 1.
    rewrite join_app. simpl. solve_Permutation.
  - intros l'. rewrite insert_take_drop by (by eapply lookup_lt_Some).
    rewrite join_app. simpl. solve_Permutation.
Qed.

Lemma elem_of_concat_lookup {A} (ls : list (list A)) i l x :
  ls !! i = Some l → x ∈ l → x ∈ mjoin ls.
Proof.
  intros Hl Hx. apply list_elem_of_join. exists l. split; [done|].
  by eapply list_elem_of_lookup_2.
Qed.

Lemma notified_snoc tr i e :
  notified (tr ++ [(i, e)]) =
  notified tr ++ match e with ENotify sw => [sw] | _ => [] end.
Proof. unfold notified. rewrite omap_app. f_equal. by destruct e. Qed.

Section ForwardInvariant.
Context `{KeyCodec} {A : Type}.
Variable s0 : gmap Key bytes.
Variable notifying : bool.
Variable cands : list Key.
Variable Q : nat → A → list Key → list Key → list Key → Prop.
Hypothesis cands_NoDup : NoDup cands.
Hypothesis targets_final : ∀ k n, k ∈ cands → candidate k = Some n → n ∉ cands.

(** The bookkeeping of goroutine [i] replaced along with its program. *)
Lemma table_insert (pool : list (prog A)) (owns waits pends : list (list Key))
    i p p' own wait pend own' wait' pend' :
  (∀ j q, pool !! j = Some q →
     ∃ o w d, owns !! j = Some o ∧ waits !! j = Some w ∧ pends !! j = Some d ∧
              twp s0 notifying q o w d (Q j)) →
  pool !! i = Some p → owns !! i = Some own → waits !! i = Some wait →
  pends !! i = Some pend →
  twp s0 notifying p' own' wait' pend' (Q i) →
  ∀ j q, <[i := p']> pool !! j = Some q →
    ∃ o w d,
      <[i := own']> owns !! j = Some o ∧ <[i := wait']> waits !! j = Some w ∧
      <[i := pend']> pends !! j = Some d ∧ twp s0 notifying q o w d (Q j).
Proof.
  intros Htab Hp Ho Hw Hd Htwp j q Hq. destruct (decide (i = j)) as [<-|Hne].
  - rewrite list_lookup_insert_eq in Hq by (by eapply lookup_lt_Some).
    injection Hq as <-. exists own', wait', pend'.
    rewrite !list_lookup_insert_eq by (by eapply lookup_lt_Some). done.
  - rewrite list_lookup_insert_ne in Hq by done.
    rewrite !list_lookup_insert_ne by done. by apply Htab.
Qed.

Lemma forward_inv_step (pool : list (prog A)) (s : gmap Key bytes) tr i p p' s' e :
  forward_inv s0 notifying cands Q (pool, s, tr) →
  pool !! i = Some p → step p s = Some (p', s', e) →
  forward_inv s0 notifying cands Q (<[i := p']> pool, s', tr ++ [(i, e)]).
Proof.
  intros (owns & waits & pends & gone & Hlen & Htab & Hperm & Hnot & Hkeep & Hgone
          & Himg & Hother & Htr) Hp Hstep.
  destruct (Htab i p Hp) as (own & wait & pend & Ho & Hw & Hd & Htwp).
  assert (Hnd : NoDup (gone ++ mjoin pends ++ mjoin owns)) by by rewrite Hperm.
  assert (Hin : ∀ k, k ∈ gone ++ mjoin pends ++ mjoin owns → k ∈ cands).
  { intros k Hk. by rewrite <- Hperm. }
  destruct (concat_insert_perm owns i own Ho) as (resto & Hco & Hco').
  destruct (concat_insert_perm waits i wait Hw) as (restw & Hcw & Hcw').
  destruct (concat_insert_perm pends i pend Hd) as (restd & Hcd & Hcd').
  destruct p as [a|k c|n v c|k c|q c|sw c]; simpl in Hstep; [done|..].
  - (* a read *)
    destruct Htwp as [[own' ->] (v & Hv & Htwp)].
    assert (Hk : k ∈ mjoin owns) by (eapply elem_of_concat_lookup; [done|by left]).
    assert (Hsk : s !! k = Some v).
    { rewrite <- Hv. apply Hkeep. apply elem_of_app. by right. }
    rewrite Hsk in Hstep. injection Hstep as <- <- <-.
    exists owns, waits, pends, gone. split; [by rewrite !length_insert|]. split.
    { intros j q Hq. eapply (table_insert pool owns waits pends i) in Hq; [|done..].
      by rewrite !list_insert_id in Hq by done. }
    rewrite notified_snoc, app_nil_r. repeat split; [done..|].
    apply Forall_app. split; [done|]. constructor; [|done]. split; [|by exists v].
    apply Hin. rewrite !elem_of_app. by right; right.
  - (* a write *)
    destruct Htwp as (k & own' & -> & Hcand & Hv & Hwait & Htwp).
    injection Hstep as <- <- <-.
    assert (Hk : k ∈ cands).
    { apply Hin. rewrite !elem_of_app. right; right.
      eapply elem_of_concat_lookup; [done|by left]. }
    assert (Hn : n ∉ cands) by by eapply targets_final.
    exists (<[i := own']> owns), (<[i := [k]]> waits), (<[i := pend ++ [k]]> pends), gone.
    split; [by rewrite !length_insert|]. split; [by eapply table_insert|]. split.
    { rewrite Hco', Hcd'. rewrite <- Hperm, Hco, Hcd. solve_Permutation. }
    rewrite notified_snoc, app_nil_r. split.
    { intros Hnf. rewrite Hco', Hcw'. rewrite <- (Hnot Hnf), Hco, Hcw.
      rewrite (Hwait Hnf). solve_Permutation. }
    assert (Hsub : ∀ x, x ∈ gone ++ mjoin (<[i := pend ++ [k]]> pends)
                          ++ mjoin (<[i := own']> owns) → x ∈ cands).
    { intros x. rewrite Hco', Hcd'. intros Hx. apply Hin. rewrite Hco, Hcd.
      set_solver. }
    split.
    { intros x Hx. rewrite lookup_insert_ne.
      - apply Hkeep. revert Hx. rewrite Hco', Hcd', Hco, Hcd. set_solver.
      - intros ->. apply Hn, Hsub. set_solver. }
    split.
    { intros x Hx. rewrite lookup_insert_ne; [by apply Hgone|].
      intros ->. apply Hn, Hin. rewrite elem_of_app. by left. }
    split.
    { intros x m Hx Hm. destruct (decide (m = n)) as [->|Hne].
      - exists k. by rewrite lookup_insert_eq.
      - rewrite lookup_insert_ne by done. apply (Himg x m); [|done].
        revert Hx. rewrite Hcd', Hcd. rewrite !elem_of_app, elem_of_cons.
        intros [?|[[?|[->|Hnil]]|?]]; [by left|by right; left|..|by right; right].
        + congruence.
        + by apply elem_of_nil in Hnil. }
    split.
    { intros x Hx. destruct (decide (x = n)) as [->|Hne].
      - right. exists k. by rewrite lookup_insert_eq.
      - rewrite lookup_insert_ne by done. by apply Hother. }
    apply Forall_app. split; [done|]. constructor; [|done]. split; [done|]. by exists k.
  - (* a deletion *)
    destruct Htwp as (pend' & -> & Htwp). injection Hstep as <- <- <-.
    assert (Hk : k ∈ cands).
    { apply Hin. rewrite !elem_of_app. right; left.
      eapply elem_of_concat_lookup; [done|by left]. }
    exists owns, waits, (<[i := pend']> pends), (k :: gone).
    split; [by rewrite !length_insert|]. split.
    { intros j q Hq.
      eapply (table_insert pool owns waits pends i _ _ own wait _ own wait pend') in Hq;
        [|done..].
      by rewrite !(list_insert_id owns), !(list_insert_id waits) in Hq by done. }
    split.
    { rewrite Hcd'. rewrite <- Hperm, Hcd. solve_Permutation. }
    rewrite notified_snoc, app_nil_r. split; [done|].
    rewrite Hcd in Hnd.
    assert (Hfresh : k ∉ gone ++ (pend' ++ restd) ++ mjoin owns).
    { intros Hx. assert (Hnd' : NoDup (k :: gone ++ (pend' ++ restd) ++ mjoin owns)).
      { eapply NoDup_Permutation_proper; [|exact Hnd]. solve_Permutation. }
      by apply NoDup_cons in Hnd' as [? _]. }
    split.
    { intros x Hx. rewrite lookup_delete_ne.
      - apply Hkeep. revert Hx. rewrite Hcd', Hcd. set_solver.
      - intros ->. apply Hfresh. revert Hx. rewrite Hcd'. set_solver. }
    split.
    { intros x Hx. apply elem_of_cons in Hx as [->|Hx]; [by rewrite lookup_delete_eq|].
      rewrite lookup_delete_ne; [by apply Hgone|].
      intros ->. apply Hfresh. rewrite elem_of_app. by left. }
    split.
    { intros x m Hx Hm.
      assert (Hxc : x ∈ gone ++ mjoin pends).
      { revert Hx. rewrite Hcd', Hcd. set_solver. }
      destruct (Himg x m Hxc Hm) as (k' & Hk' & Hc' & Hs').
      exists k'. split; [done|]. split; [done|]. rewrite lookup_delete_ne; [done|].
      intros ->. eapply targets_final; [|exact Hm|done]. apply Hin.
      rewrite app_assoc. apply elem_of_app. by left. }
    split.
    { intros x Hx. rewrite lookup_delete_ne by (by intros ->). by apply Hother. }
    apply Forall_app. split; [done|]. by constructor.
  - (* a sync *)
    injection Hstep as <- <- <-.
    exists owns, waits, pends, gone. split; [by rewrite !length_insert|]. split.
    { intros j p0 Hq. eapply (table_insert pool owns waits pends i) in Hq; [|done..].
      by rewrite !list_insert_id in Hq by done. }
    rewrite notified_snoc, app_nil_r. repeat split; [done..|].
    apply Forall_app. split; [done|]. by constructor.
  - (* a notification *)
    destruct Htwp as (Hnf & -> & Hcand & Htwp). injection Hstep as <- <- <-.
    exists owns, (<[i := []]> waits), pends, gone. split; [by rewrite !length_insert|]. split.
    { intros j p0 Hq.
      eapply (table_insert pool owns waits pends i _ _ own _ pend own [] pend) in Hq;
        [|done..].
      by rewrite !(list_insert_id owns), !(list_insert_id pends) in Hq by done. }
    split; [done|]. rewrite notified_snoc. split.
    { intros _. rewrite fmap_app, Hcw'. rewrite <- (Hnot Hnf), Hcw. simpl.
      solve_Permutation. }
    repeat split; [done..|].
    apply Forall_app. split; [done|]. constructor; [|done]. split; [|done].
    rewrite <- (Hnot Hnf), Hcw. rewrite !elem_of_app. right; left. left. by left.
Qed.

End ForwardInvariant.

(** *** The forward worker keeps its bookkeeping *)

Section ThreadFacts.
Context `{KeyCodec}.
Variable s0 : gmap Key bytes.
Variable SyncSize : Z.
Variable cswap : CidSwapper.
Local Abbreviation twp := (twp s0 (SwapCh cswap)).

Lemma twp_bind {A B} (m : prog A) (f : A → prog B) own wait pend Q :
  twp m own wait pend (λ a o w d, twp (f a) o w d Q) →
  twp (m ≫= f) own wait pend Q.
Proof.
  unfold mbind, prog_bind. revert own wait pend.
  induction m as [a|k c IH|n v c IH|k c IH|q c IH|sw c IH]; intros own wait pend; simpl.
  - done.
  - intros [Ho (v & Hv & Ht)]. split; [done|]. exists v. split; [done|]. by apply IH.
  - intros (k & own' & -> & Hc & Hv & Hw & Ht). exists k, own'.
    repeat split; [done..|]. by apply IH.
  - intros (pend' & -> & Ht). exists pend'. split; [done|]. by apply IH.
  - apply IH.
  - intros (Hn & -> & Hc & Ht). repeat split; [done..|]. by apply IH.
Qed.

Lemma twp_Get k v own' wait pend Q :
  s0 !! k = Some v → Q (inl v) (k :: own') wait pend →
  twp (store_Get k) (k :: own') wait pend Q.
Proof. intros Hv HQ. simpl. split; [by exists own'|]. by exists v. Qed.

Lemma twp_Put n v k own' wait pend Q :
  candidate k = Some n → s0 !! k = Some v → (SwapCh cswap = true → wait = []) →
  Q None own' [k] (pend ++ [k]) →
  twp (store_Put n v) (k :: own') wait pend Q.
Proof. intros Hc Hv Hw HQ. simpl. by exists k, own'. Qed.

Lemma twp_Delete k own wait pend' Q :
  Q None own wait pend' → twp (store_Delete k) own wait (k :: pend') Q.
Proof. intros HQ. simpl. by exists pend'. Qed.

Lemma twp_Sync p own wait pend Q :
  Q None own wait pend → twp (store_Sync p) own wait pend Q.
Proof. done. Qed.

Lemma twp_notify sw own pend wait Q :
  candidate (Old sw) = Some (New sw) →
  (SwapCh cswap = true → wait = [Old sw]) →
  (∀ wait', (SwapCh cswap = true → wait' = []) → Q tt own wait' pend) →
  twp (notify cswap sw) own wait pend Q.
Proof.
  intros Hc Hw HQ. unfold notify. destruct (SwapCh cswap) eqn:Hs; simpl.
  - repeat split; [by apply Hw|done|by apply HQ].
  - by apply HQ.
Qed.

Lemma twp_sync sw own wait pend Q :
  Q None own wait pend → twp (sync sw) own wait pend Q.
Proof. intros HQ. unfold sync. apply twp_bind. by apply twp_Sync. Qed.

Lemma twp_deleteKeys keys rest own wait Q :
  Q None own wait rest → twp (deleteKeys keys) own wait (keys ++ rest) Q.
Proof.
  intros HQ. induction keys as [|k keys IH]; [done|].
  cbn [deleteKeys]. apply twp_bind. apply twp_Delete. exact IH.
Qed.

Lemma twp_syncAndDelete sw own wait Q :
  Q (flushed sw None, None) own wait [] →
  twp (syncAndDelete sw) own wait (toDelete sw) Q.
Proof.
  intros HQ. unfold syncAndDelete. apply twp_bind. apply twp_sync. apply twp_bind.
  pose proof (twp_deleteKeys (toDelete sw) [] own wait) as Hd.
  rewrite app_nil_r in Hd. apply Hd. exact HQ.
Qed.

Lemma twp_swap sw old new v own' wait Q :
  candidate old = Some new → s0 !! old = Some v →
  (SwapCh cswap = true → wait = []) →
  (∀ sw', swapped sw' = u64 (swapped sw + 1) → syncPrefix sw' = syncPrefix sw →
          Q (sw', None) own' [old] (toDelete sw')) →
  twp (swap SyncSize sw old new) (old :: own') wait (toDelete sw) Q.
Proof.
  intros Hc Hv Hw HQ. unfold swap. apply twp_bind. eapply twp_Get; [done|].
  apply twp_bind. eapply twp_Put; [done..|]. cbv beta iota zeta.
  destruct (SyncSize <=? _).
  - apply twp_bind.
    apply (twp_syncAndDelete
             (mkSwapWorker (u64 (swapped sw + 1)) 0 (syncPrefix sw) (toDelete sw ++ [old]))).
    by apply HQ.
  - by apply (HQ (mkSwapWorker _ _ _ _)).
Qed.

Lemma twp_finalSync sw errored own wait Q :
  Q (flushed sw None, errored) own wait [] →
  twp (finalSync sw errored) own wait (toDelete sw) Q.
Proof.
  intros HQ. unfold finalSync. apply twp_bind. apply twp_syncAndDelete.
  apply twp_bind. apply twp_sync. exact HQ.
Qed.

Lemma candidates_cons res rest :
  candidates (res :: rest) =
  match res_Error res with
  | Some _ => []
  | None => match candidate (NewKey (res_Key res)) with
            | Some _ => [NewKey (res_Key res)]
            | None => []
            end
  end ++ candidates rest.
Proof.
  unfold candidates. cbn [omap list_omap]. destruct (res_Error res); [done|].
  by destruct (candidate _).
Qed.

Lemma swapStep_unfold sw errored res :
  res_Error res = None →
  swapStep SyncSize cswap false (sw, errored) res =
  let oldKey := NewKey (res_Key res) in
  match candidate oldKey with
  | None => mret (sw, errored)
  | Some newKey =>
      '(sw, err) ← swap SyncSize sw oldKey newKey;
      match err with
      | Some _ => mret (sw, u64 (errored + 1))
      | None => notify cswap (mkSwap oldKey newKey);; mret (sw, errored)
      end
  end.
Proof.
  intros Hnone. unfold swapStep, candidate. rewrite Hnone.
  destruct (dsKeyToCid _) as [c|e]; [|done]. by destruct (Version c =? 0).
Qed.

Lemma u64_idem x : u64 (u64 x) = u64 x.
Proof. unfold u64. apply Z.mod_mod. lia. Qed.

Lemma twp_swapLoop resultsCh sw errored wait Q :
  Forall (λ res, res_Error res = None) resultsCh →
  (∀ k, k ∈ candidates resultsCh → is_Some (s0 !! k)) →
  (SwapCh cswap = true → wait = []) →
  (∀ sw' wait',
     swapped sw' = u64 (swapped sw + Z.of_nat (length (candidates resultsCh))) →
     syncPrefix sw' = syncPrefix sw →
     (SwapCh cswap = true → wait' = []) →
     Q (sw', errored) [] wait' (toDelete sw')) →
  swapped sw = u64 (swapped sw) →
  twp (forEach (swapStep SyncSize cswap false) (sw, errored) resultsCh)
      (candidates resultsCh) wait (toDelete sw) Q.
Proof.
  intros Hres. revert sw wait.
  induction Hres as [|res rest Hnone Hrest IH]; intros sw wait Hs0 Hw HQ Hsw.
  - simpl. apply HQ; [|done..]. by rewrite Z.add_0_r.
  - cbn [forEach]. apply twp_bind. rewrite swapStep_unfold by done.
    rewrite candidates_cons, Hnone in Hs0, HQ |- *. cbv zeta.
    destruct (candidate (NewKey (res_Key res))) as [newKey|] eqn:Hc.
    + destruct (Hs0 (NewKey (res_Key res))) as [v Hv]; [by left|].
      apply twp_bind. eapply twp_swap; [done..|].
      intros sw1 Hsw1 Hp1. apply twp_bind. apply twp_notify; [done..|].
      intros wait' Hw'. apply IH.
      * intros k Hk. apply Hs0. by right.
      * done.
      * intros sw' wait'' Hsw' Hp' Hw''. apply HQ; [|congruence|done].
        rewrite Hsw', Hsw1, u64_add_l. f_equal. cbn [app length].
        rewrite Nat2Z.inj_succ. lia.
      * by rewrite Hsw1, u64_idem.
    + apply IH; [done..| |done].
      intros sw' wait' Hsw' Hp' Hw'. by apply HQ.
Qed.

(** The forward worker, given the candidate keys of its results as the keys
    it has to write: it returns their number and no error, with nothing left
    to write, to notify or to delete. *)
Lemma twp_swapWorker_run resultsCh :
  Forall (λ res, res_Error res = None) resultsCh →
  (∀ k, k ∈ candidates resultsCh → is_Some (s0 !! k)) →
  twp (swapWorker_run SyncSize cswap false resultsCh) (candidates resultsCh) [] []
      (λ r own wait pend,
         r = (u64 (Z.of_nat (length (candidates resultsCh))), 0) ∧
         own = [] ∧ pend = [] ∧ (SwapCh cswap = true → wait = [])).
Proof.
  intros Hres Hs0. unfold swapWorker_run. apply twp_bind.
  apply (twp_swapLoop resultsCh (mkSwapWorker 0 0 (Prefix cswap) [])); [done..| |done].
  intros sw' wait' Hsw' Hp' Hw'. apply twp_bind. apply twp_finalSync.
  simpl. by rewrite Hsw'.
Qed.

End ThreadFacts.

(** *** Every result is received by exactly one worker *)

Lemma join_map_app_perm {A B} (a b : A → list B) (l : list A) :
  mjoin (map (λ w, a w ++ b w) l) ≡ₚ mjoin (map a l) ++ mjoin (map b l).
Proof.
  induction l as [|x l IH]; [done|]. cbn. rewrite IH. solve_Permutation.
Qed.

Lemma join_map_single {B} (X : list B) (c a n : nat) :
  mjoin (map (λ w, if decide (c = w) then X else []) (seq a n))
  = if decide (a ≤ c < a + n)%nat then X else [].
Proof.
  revert a. induction n as [|n IH]; intros a; cbn.
  - rewrite decide_False by lia. done.
  - rewrite IH. destruct (decide (c = a)) as [->|Hne].
    + rewrite decide_False by lia. rewrite decide_True by lia. by rewrite app_nil_r.
    + destruct (decide (S a ≤ c < S a + n)%nat).
      * rewrite decide_True by lia. done.
      * rewrite decide_False by lia. done.
Qed.

Lemma received_omap_perm {A B} (f : A → option B) (n : nat) deal (ch : list A) :
  (0 < n)%nat →
  mjoin (map (λ w, omap f (received n w deal ch)) (seq 0 n)) ≡ₚ omap f ch.
Proof.
  intros Hn. revert deal. induction ch as [|x ch IH]; intros deal.
  - cbn [received omap list_omap]. clear Hn. generalize 0%nat.
    induction n as [|n IHn]; intros a; [done|]. cbn. apply IHn.
  - cbn [received].
    assert (Heq : map (λ w, omap f ((if decide ((hd 0 deal mod n)%nat = w) then [x] else [])
                                     ++ received n w (tl deal) ch)) (seq 0 n)
                  = map (λ w, (if decide ((hd 0 deal mod n)%nat = w)
                               then omap f [x] else [])
                              ++ omap f (received n w (tl deal) ch)) (seq 0 n)).
    { apply map_ext. intros w. rewrite omap_app. by destruct (decide _). }
    rewrite Heq, join_map_app_perm, IH, join_map_single.
    rewrite decide_True.
    + change (x :: ch) with ([x] ++ ch). by rewrite omap_app.
    + split; [lia|]. apply Nat.mod_upper_bound. lia.
Qed.

Lemma received_sublist {A} (P : A → Prop) n w deal (ch : list A) :
  Forall P ch → Forall P (received n w deal ch).
Proof.
  intros Hall. revert deal. induction Hall as [|x ch Hx Hch IH]; intros deal; cbn.
  - constructor.
  - apply Forall_app. split; [|apply IH]. destruct (decide _); by repeat constructor.
Qed.

(** *** The forward run of the pool *)

Section ForwardPool.
Context `{KeyCodec}.
Variable s0 : gmap Key bytes.
Variable SyncSize : Z.
Variable cswap : CidSwapper.
Variable n : nat.
Variable deal : list nat.
Variable resultsCh : list Result.
Hypothesis workers : (0 < n)%nat.
Hypothesis no_error : Forall (λ res, res_Error res = None) resultsCh.
Hypothesis distinct : NoDup (candidates resultsCh).
Hypothesis present : ∀ k, k ∈ candidates resultsCh → is_Some (s0 !! k).
Hypothesis targets_final :
  ∀ k m, k ∈ candidates resultsCh → candidate k = Some m → m ∉ candidates resultsCh.

(** On the in-memory datastore, however the results are dealt and however
    the workers interleave, a forward run over error-free results with
    distinct candidate keys, all present, none of which is the target of
    another, migrates these keys, with no error counted, by requests that
    all succeed and concern these keys and their targets only, and notifies
    each swap once. *)
Lemma forward_pool (sched : list nat) (rs : list (Z * Z)) (s1 : gmap Key bytes)
    (tr : list (nat * event)) :
  pool_exec sched
    (map (λ w, swapWorker_run SyncSize cswap false (received n w deal resultsCh))
         (seq 0 n)) s0 = (rs, s1, tr) →
  migrated s0 (candidates resultsCh) s1
  ∧ Forall (λ r : Z * Z, r.2 = 0) rs
  ∧ Forall (λ ie, event_fine s0 (candidates resultsCh) ie.2) tr
  ∧ (SwapCh cswap = true → Old <$> notified tr ≡ₚ candidates resultsCh).
Proof.
  intros Hexec. apply pool_exec_reach in Hexec.
  pose (Q := λ (i : nat) (r : Z * Z) (own wait pend : list Key),
    r = (u64 (Z.of_nat (length (candidates (received n i deal resultsCh)))), 0)
    ∧ own = [] ∧ pend = [] ∧ (SwapCh cswap = true → wait = [])).
  assert (Hjoin : ∀ m a, mjoin (map (λ _ : nat, @nil Key) (seq a m)) = []).
  { induction m as [|m IH]; intros a; [done|]. cbn. apply IH. }
  assert (Hfinal : forward_inv s0 (SwapCh cswap) (candidates resultsCh) Q
                     (map Ret rs, s1, tr)).
  { eapply (reach_inv (forward_inv s0 (SwapCh cswap) (candidates resultsCh) Q));
      [|exact Hexec|].
    - intros pool s tr0 i p p' s' e Hinv Hp Hstep.
      by eapply forward_inv_step.
    - exists (map (λ w, candidates (received n w deal resultsCh)) (seq 0 n)),
             (map (λ _, []) (seq 0 n)), (map (λ _, []) (seq 0 n)), [].
      split; [by rewrite !length_map|]. split.
      { intros i p Hp. rewrite list_lookup_fmap in Hp.
        destruct (seq 0 n !! i) as [w|] eqn:Hw; [|done]. injection Hp as <-.
        apply lookup_seq in Hw as [-> Hlt]. simpl.
        exists (candidates (received n i deal resultsCh)), [], [].
        rewrite !list_lookup_fmap, !lookup_seq_lt by done. repeat split; [].
        apply twp_swapWorker_run.
        - by apply received_sublist.
        - intros k Hk. apply present. unfold candidates in *.
          rewrite <- (received_omap_perm _ n deal resultsCh workers).
          apply list_elem_of_join. eexists. split; [exact Hk|].
          apply list_elem_of_fmap. exists i. split; [done|].
          apply elem_of_seq. lia. }
      rewrite !Hjoin. cbn [app fmap list_fmap notified omap list_omap].
      assert (Hpart : mjoin (map (λ w, candidates (received n w deal resultsCh)) (seq 0 n))
                      ≡ₚ candidates resultsCh).
      { unfold candidates. apply (received_omap_perm _ n deal resultsCh workers). }
      split; [done|]. split; [done|]. split; [done|].
      split; [by intros k Hk; apply elem_of_nil in Hk|].
      split; [by intros k m Hk; apply elem_of_nil in Hk|].
      split; [by left|constructor]. }
  destruct Hfinal as (owns & waits & pends & gone & (Hlo & Hlw & Hlp) & Htab & Hperm
                      & Hnot & Hkeep & Hgone & Himg & Hother & Htr).
  rewrite length_map in Hlo, Hlw, Hlp.
  assert (Hdone : ∀ i, (i < length rs)%nat →
            ∃ r, rs !! i = Some r ∧ r.2 = 0 ∧ owns !! i = Some [] ∧ pends !! i = Some []
                 ∧ (SwapCh cswap = true → waits !! i = Some [])).
  { intros i Hi. destruct (lookup_lt_is_Some_2 rs i Hi) as [r Hr].
    destruct (Htab i (Ret r)) as (own & wait & pend & Ho & Hw & Hd & HQ).
    { by rewrite list_lookup_fmap, Hr. }
    simpl in HQ. destruct HQ as (Hr' & -> & -> & Hwait). exists r.
    split; [done|]. split; [by rewrite Hr'|]. split; [done|]. split; [done|].
    intros Hs. by rewrite Hw, (Hwait Hs). }
  assert (Hempty : ∀ ls : list (list Key),
            length ls = length rs → (∀ i, (i < length rs)%nat → ls !! i = Some []) →
            mjoin ls = []).
  { intros ls Hl Hall. apply join_nil_2, Forall_lookup. intros i l Hil.
    rewrite Hall in Hil by (rewrite <- Hl; by eapply lookup_lt_Some). by injection Hil. }
  assert (Ho : mjoin owns = []).
  { apply Hempty; [done|]. intros i Hi. by destruct (Hdone i Hi) as (r & _ & _ & ? & _). }
  assert (Hp : mjoin pends = []).
  { apply Hempty; [done|]. intros i Hi. by destruct (Hdone i Hi) as (r & _ & _ & _ & ? & _). }
  rewrite Ho, Hp in Hperm. rewrite Hp, !app_nil_r in Himg.
  cbn [app] in Hperm. rewrite app_nil_r in Hperm.
  split; [|split; [|split]].
  - split; [|split].
    + intros k Hk. apply Hgone. by rewrite Hperm.
    + intros k m Hk Hm. apply (Himg k m); [by rewrite Hperm|done].
    + intros x Hx Hno. destruct (Hother x Hx) as [?|(k' & Hk' & Hc' & _)]; [done|].
      by destruct (Hno k' Hk').
  - apply Forall_lookup. intros i r Hr.
    destruct (Hdone i) as (r' & Hr' & H0 & _); [by eapply lookup_lt_Some|]. congruence.
  - done.
  - intros Hs. rewrite <- (Hnot Hs), Ho.
    assert (Hw : mjoin waits = []).
    { apply Hempty; [done|]. intros i Hi.
      destruct (Hdone i Hi) as (r & _ & _ & _ & _ & Hw). by apply Hw. }
    by rewrite Hw, !app_nil_r.
Qed.

End ForwardPool.

(** ** The backward run on the in-memory datastore *)

Lemma replay_app s t1 t2 : replay s (t1 ++ t2) = replay (replay s t1) t2.
Proof. unfold replay. apply fold_left_app. Qed.

Lemma map_trace_app s t1 t2 :
  map_trace s (t1 ++ t2) ↔ map_trace s t1 ∧ map_trace (replay s t1) t2.
Proof.
  revert s. induction t1 as [|e t1 IH]; intros s; simpl.
  - tauto.
  - rewrite IH. unfold replay. simpl. tauto.
Qed.

(** A run against the in-memory datastore is a trace of the program that the
    datastore answers, and ends in the store the trace replays to. *)
Lemma run_map_trace {A} (p : prog A) (s : gmap Key bytes) a s' t :
  run p s = (a, s', t) → emits p t a ∧ map_trace s t ∧ s' = replay s t.
Proof.
  intros Hrun. split; [exact (run_emits _ _ _ _ _ Hrun)|]. revert s a s' t Hrun.
  induction p as [a0|k c IH|k v c IH|k c IH|q c IH|sw c IH]; intros s a s' t; simpl.
  - by intros [= <- <- <-].
  - destruct (run (c _) s) as [[a1 s2] t1] eqn:Hr. intros [= <- <- <-].
    apply IH in Hr as [Ht ->]. done.
  - destruct (run (c None) _) as [[a1 s2] t1] eqn:Hr. intros [= <- <- <-].
    apply IH in Hr as [Ht ->]. done.
  - destruct (run (c None) _) as [[a1 s2] t1] eqn:Hr. intros [= <- <- <-].
    apply IH in Hr as [Ht ->]. done.
  - destruct (run (c None) s) as [[a1 s2] t1] eqn:Hr. intros [= <- <- <-].
    apply IH in Hr as [Ht ->]. done.
  - destruct (run c s) as [[a1 s2] t1] eqn:Hr. intros [= <- <- <-].
    apply IH in Hr as [Ht ->]. done.
Qed.

Lemma deletes_trace_map keys t r s :
  deletes_trace keys t r → map_trace s t →
  r = None ∧ ∀ x, replay s t !! x = if decide (x ∈ keys) then None else s !! x.
Proof.
  intros Hd. revert s. induction Hd as [|k keys e|k keys t r Hd IH]; intros s Ht.
  - split; [done|]. intros x. rewrite decide_False; [done|]. apply not_elem_of_nil.
  - by destruct Ht as [[=] _].
  - destruct Ht as [_ Ht]. simpl in Ht. destruct (IH _ Ht) as [-> Hl].
    split; [done|]. intros x. unfold replay in *. simpl. rewrite Hl.
    destruct (decide (x = k)) as [->|Hne].
    + rewrite (decide_True (P := k ∈ k :: keys)) by by left.
      destruct (decide _); [done|]. by rewrite lookup_delete_eq.
    + rewrite lookup_delete_ne by done.
      destruct (decide (x ∈ keys)).
      * rewrite decide_True; [done|]. by right.
      * rewrite decide_False; [done|]. rewrite elem_of_cons. tauto.
Qed.

Lemma flush_trace_map p keys t r s :
  flush_trace p keys t r → map_trace s t →
  r = None ∧ ∀ x, replay s t !! x = if decide (x ∈ keys) then None else s !! x.
Proof.
  intros [e|td r' Hd] Ht.
  - by destruct Ht as [[=] _].
  - destruct Ht as [_ Ht]. simpl in Ht.
    destruct (deletes_trace_map _ _ _ _ Hd Ht) as [-> Hl]. split; [done|].
    intros x. unfold replay in *. simpl. apply Hl.
Qed.

Lemma forEach_emits_prefix {A St} (body : St → A → prog St)
    (I : list A → list event → St → Prop) (ch : list A) :
  (∀ seen x rest h st t st',
     ch = seen ++ x :: rest →
     I seen h st → emits (body st x) t st' → I (seen ++ [x]) (h ++ t) st') →
  ∀ h st t st', I [] h st → emits (forEach body st ch) t st' → I ch (h ++ t) st'.
Proof.
  intros Hbody.
  assert (Hgen : ∀ rest seen h st t st',
            ch = seen ++ rest → I seen h st → emits (forEach body st rest) t st' →
            I (seen ++ rest) (h ++ t) st').
  { induction rest as [|x rest IH]; intros seen h st t st' Hch HI Hem;
      cbn [forEach] in Hem.
    - apply emits_ret in Hem as [-> ->]. by rewrite !app_nil_r.
    - apply emits_bind in Hem as (t1 & st1 & t2 & H1 & H2 & ->).
      rewrite app_assoc, (cons_middle x), app_assoc.
      apply (IH (seen ++ [x]) (h ++ t1) st1); [by rewrite <- app_assoc| |exact H2].
      eapply Hbody; [exact Hch|exact HI|exact H1]. }
  intros h st t st' HI Hem. exact (Hgen ch [] h st t st' eq_refl HI Hem).
Qed.

Lemma replay_sent s (b : bool) sw : replay s (if b then [ENotify sw] else []) = s.
Proof. by destruct b. Qed.

Lemma map_trace_sent s (b : bool) sw : map_trace s (if b then [ENotify sw] else []).
Proof. by destruct b. Qed.

Section BackwardInvariant.
Variable s1 : gmap Key bytes.
Variable recs : list Swap.
Variable SyncSize : Z.
Variable cswap : CidSwapper.
Hypothesis olds_distinct : NoDup (Old <$> recs).
Hypothesis news_present : ∀ sw, sw ∈ recs → is_Some (s1 !! New sw).
Hypothesis olds_not_news : ∀ sw sw', sw ∈ recs → sw' ∈ recs → Old sw ≠ New sw'.

Lemma unswap_inv_step seen sw rest swker errored m s t swker' errored' m' :
  recs = seen ++ sw :: rest →
  unswap_inv s1 recs seen (swker, errored, m) s →
  unswapStep_outcome SyncSize cswap swker errored m sw t swker' errored' m' →
  map_trace s t →
  unswap_inv s1 recs (seen ++ [sw]) (swker', errored', m') (replay s t).
Proof.
  intros Hrecs (J1 & J2 & J3 & J4 & J5 & J6 & J7 & J8) (t1 & sw1 & err & Hs & Hrest) Ht.
  assert (Hsw : sw ∈ recs) by (rewrite Hrecs; set_solver).
  assert (Hseen : ∀ sw0, sw0 ∈ seen → sw0 ∈ recs) by (rewrite Hrecs; set_solver).
  assert (F2 : ∀ sw0, sw0 ∈ seen → Old sw0 ≠ Old sw).
  { intros sw0 Hin Heq. rewrite Hrecs, fmap_app in olds_distinct.
    apply NoDup_app in olds_distinct as (_ & Hdis & _).
    apply (Hdis (Old sw0)); [by apply list_elem_of_fmap_2|]. rewrite Heq. by left. }
  assert (Hn : s !! New sw = s1 !! New sw
               ∨ (s !! New sw = None ∧ ∃ sw0, sw0 ∈ seen ∧ New sw0 = New sw)).
  { apply J4. intros sw0 Hin Heq. by apply (olds_not_news sw0 sw). }
  assert (Hlen : u64 (u64 (Z.of_nat (length seen)) + 1)
                 = u64 (Z.of_nat (length (seen ++ [sw])))).
  { rewrite u64_add_l, length_app. f_equal. simpl. lia. }
  assert (Hsweta : mkSwap (Old sw) (New sw) = sw) by by destruct sw.
  (* the invariant once the value [v] is written under the old key, the
     keys in [dels] are deleted, and the new key is pending unless deleted *)
  assert (Hwritten : ∀ (v : bytes) (s' : gmap Key bytes) (swk : swapWorker)
                       (dels : list Key),
    s1 !! New sw = Some v →
    (∀ x, s' !! x = if decide (x ∈ dels) then None else <[Old sw := v]> s !! x) →
    (∀ x, x ∈ dels → x = New sw ∨ x ∈ toDelete swker) →
    swapped swk = u64 (Z.of_nat (length (seen ++ [sw]))) →
    (∀ x, x ∈ toDelete swk → x = New sw ∨ x ∈ toDelete swker) →
    (∀ x, x ∈ toDelete swker → x ∉ dels → x ∈ toDelete swk) →
    (s !! New sw = None ∨ New sw ∈ dels ∨ New sw ∈ toDelete swk) →
    unswap_inv s1 recs (seen ++ [sw]) (swk, 0, <[New sw := Old sw]> m) s').
  { intros v s' swk dels Hv Hs' Hdels Hswk Htd Htd' Hnew.
    assert (Hdnew : ∀ x, x ∈ dels → ∃ sw0, sw0 ∈ seen ++ [sw] ∧ New sw0 = x).
    { intros x Hx. destruct (Hdels x Hx) as [->|Hx'].
      - exists sw. set_solver.
      - destruct (J7 x Hx') as (sw0 & ? & ?). exists sw0. set_solver. }
    assert (Hold : ∀ sw0, sw0 ∈ recs → Old sw0 ∉ dels).
    { intros sw0 Hin Hx. destruct (Hdnew _ Hx) as (sw' & Hin' & Heq).
      apply (olds_not_news sw0 sw'); [done| |done].
      apply elem_of_app in Hin' as [?|Hin']; [by apply Hseen|].
      by apply list_elem_of_singleton in Hin' as ->. }
    split; [done|]. split; [done|]. split.
    { intros sw0 Hin. rewrite Hs', decide_False by (apply Hold; set_solver).
      apply elem_of_app in Hin as [Hin|Hin].
      - rewrite lookup_insert_ne by (intros Heq; by apply (F2 sw0)). by apply J3.
      - apply list_elem_of_singleton in Hin as ->. by rewrite lookup_insert_eq. }
    split.
    { intros x Hx. rewrite Hs'. destruct (decide (x ∈ dels)) as [Hd|Hd].
      - right. split; [done|]. destruct (Hdnew x Hd) as (sw0 & ? & ?). by exists sw0.
      - rewrite lookup_insert_ne by (intros Heq; by apply (Hx sw)).
        destruct (J4 x Hx) as [?|(? & sw0 & ? & ?)]; [by left|].
        right. split; [done|]. exists sw0. set_solver. }
    split.
    { intros n k Hm. destruct (decide (n = New sw)) as [->|Hne].
      - rewrite lookup_insert_eq in Hm. injection Hm as <-. rewrite Hsweta. set_solver.
      - rewrite lookup_insert_ne in Hm by done. apply J5 in Hm. set_solver. }
    split.
    { intros sw0 Hin. destruct (decide (New sw0 = New sw)) as [->|Hne].
      - by rewrite lookup_insert_eq.
      - rewrite lookup_insert_ne by done. apply J6.
        apply elem_of_app in Hin as [?|Hin]; [done|].
        by apply list_elem_of_singleton in Hin as ->. }
    split.
    { intros x Hx. apply Htd in Hx as [->|Hx].
      - exists sw. set_solver.
      - destruct (J7 x Hx) as (sw0 & ? & ?). exists sw0. set_solver. }
    intros sw0 Hin. rewrite Hs'.
    destruct (decide (New sw0 ∈ dels)) as [Hd|Hd]; [by left|].
    rewrite lookup_insert_ne by (intros Heq; apply (olds_not_news sw sw0); [done| |done];
      apply elem_of_app in Hin as [?|Hin]; [by apply Hseen|];
      by apply list_elem_of_singleton in Hin as ->).
    apply elem_of_app in Hin as [Hin|Hin].
    - destruct (J8 sw0 Hin) as [?|Hx]; [by left|]. right. by apply Htd'.
    - apply list_elem_of_singleton in Hin as ->.
      destruct Hnew as [?|[?|?]]; [by left|done|by right]. }
  assert (Hpre : ∃ t2, t = t1 ++ t2).
  { destruct err as [[|msg]|]; [destruct (m !! New sw)|..].
    - destruct Hrest as (r1' & [(e1 & -> & _)|(v1 & o & -> & _)]); eauto.
    - destruct Hrest as (-> & _). exists []. by rewrite app_nil_r.
    - destruct Hrest as (-> & _). exists []. by rewrite app_nil_r.
    - destruct Hrest as (-> & _). eauto. }
  destruct Hs as [(e & -> & -> & ->)|[(v & e & -> & -> & ->)|(v & tf & -> & Hc)]].
  - (* the value is missing under the new key *)
    assert (Ht1 : ∃ t2, t = EGet (New sw) (inr e) :: t2).
    { destruct e as [|msg]; [destruct (m !! New sw)|].
      - destruct Hrest as (r1 & [(e1 & -> & _)|(v1 & o & -> & _)]); eauto.
      - destruct Hrest as (-> & _). eauto.
      - destruct Hrest as (-> & _). eauto. }
    destruct Ht1 as [t2 Ht2]. pose proof Ht as Ht'. rewrite Ht2 in Ht'.
    destruct Ht' as [Hget _]. simpl in Hget.
    destruct (s !! New sw) as [v0|] eqn:Hsn; [done|]. injection Hget as ->.
    destruct (news_present sw Hsw) as [v Hv].
    destruct Hn as [Hn|(_ & sw0 & Hin0 & Heq0)]; [congruence|].
    destruct (J6 sw0 Hin0) as [swappedTo Hm]. rewrite Heq0 in Hm. rewrite Hm in Hrest.
    assert (Hto : s !! swappedTo = Some v).
    { apply J5 in Hm. rewrite <- Hv. by apply (J3 _ Hm). }
    clear Ht2 t2.
    destruct Hrest as (r1 & [(e1 & -> & _)|(v1 & o & -> & -> & -> & ->)]).
    + simpl in Ht. destruct Ht as (_ & _ & Hget & _). simpl in Hget.
      by rewrite Hto in Hget.
    + simpl in Ht. destruct Ht as (_ & _ & Hget & Hput & _). simpl in Hget, Hput.
      rewrite Hto in Hget. injection Hget as ->. subst o. cbn [counted]. rewrite J1.
      apply (Hwritten v _ _ []); [done| | | | | |by left].
      * intros x. rewrite decide_False by apply not_elem_of_nil.
        by rewrite !replay_app, replay_sent.
      * intros x Hx. by apply elem_of_nil in Hx.
      * cbn [one_more swapped]. by rewrite J2.
      * intros x Hx. by right.
      * by intros x Hx _.
  - (* the write cannot fail *)
    exfalso. destruct Hpre as [t2 ->]. simpl in Ht. by destruct Ht as (_ & [=] & _).
  - (* the value is there: it is written under the old key *)
    assert (Hv : s !! New sw = Some v ∧ map_trace (<[Old sw := v]> s) tf).
    { destruct Hpre as [t2 ->]. simpl in Ht. destruct Ht as (Hget & _ & Ht).
      apply map_trace_app in Ht as [Ht _]. split; [|done].
      destruct (s !! New sw); by simplify_eq. }
    destruct Hv as [Hsn Htf].
    assert (Hs1 : s1 !! New sw = Some v).
    { destruct Hn as [<-|[Hnone _]]; [done|congruence]. }
    cbv zeta in Hc. destruct (SyncSize <=? _).
    + destruct Hc as [Hf ->].
      destruct (flush_trace_map _ _ _ _ _ Hf Htf) as [-> Hl].
      destruct Hrest as (-> & -> & -> & ->). rewrite J1.
      apply (Hwritten v _ _ (toDelete swker ++ [New sw])); [done| | | | | |].
      * intros x. rewrite replay_app, replay_sent.
        change (EGet (New sw) (inl v) :: EPut (Old sw) v None :: tf)
          with ([EGet (New sw) (inl v); EPut (Old sw) v None] ++ tf).
        rewrite replay_app. apply Hl.
      * set_solver.
      * cbn [flushed swapped]. by rewrite J2.
      * cbn [flushed toDelete]. intros x Hx. by apply elem_of_nil in Hx.
      * set_solver.
      * right; left. set_solver.
    + destruct Hc as (-> & -> & ->). destruct Hrest as (-> & -> & -> & ->). rewrite J1.
      apply (Hwritten v _ _ []); [done| | | | | |].
      * intros x. rewrite decide_False by apply not_elem_of_nil.
        by rewrite replay_app, replay_sent.
      * intros x Hx. by apply elem_of_nil in Hx.
      * cbn [swapped]. by rewrite J2.
      * cbn [toDelete]. set_solver.
      * cbn [toDelete]. set_solver.
      * right; right. cbn [toDelete]. set_solver.
Qed.

(** On the in-memory datastore, the backward worker given distinct old keys,
    none of which is a new key, and new keys that are all present: it counts
    every swap and no error, every old key gets the value its new key had,
    every new key is deleted and no other key changes. *)
Lemma unswapWorker_map (s2 : gmap Key bytes) (n e : Z) (t : list event) :
  run (unswapWorker SyncSize cswap recs) s1 = ((n, e), s2, t) →
  e = 0 ∧ n = u64 (Z.of_nat (length recs))
  ∧ (∀ sw, sw ∈ recs → s2 !! Old sw = s1 !! New sw)
  ∧ (∀ sw, sw ∈ recs → s2 !! New sw = None)
  ∧ (∀ x, (∀ sw, sw ∈ recs → x ≠ Old sw ∧ x ≠ New sw) → s2 !! x = s1 !! x).
Proof.
  intros Hrun. apply run_map_trace in Hrun as (Hem & Ht & ->).
  unfold unswapWorker in Hem.
  apply emits_bind in Hem as (t1 & [[swker errored] m] & t2 & H1 & H2 & ->).
  apply emits_bind in H2 as (t3 & [sw' errored'] & t4 & H3 & H4 & ->).
  apply emits_ret in H4 as [-> [= -> ->]]. rewrite app_nil_r in *.
  apply map_trace_app in Ht as [Ht1 Ht3]. rewrite replay_app.
  assert (Hloop : unswap_inv s1 recs recs (swker, errored, m) (replay s1 t1)).
  { unfold unswapLoop in H1.
    refine (forEach_emits_prefix (unswapStep SyncSize cswap)
              (λ seen h st, map_trace s1 h → unswap_inv s1 recs seen st (replay s1 h))
              recs _ [] _ _ _ _ H1 Ht1).
    - intros seen sw rest h [[swk0 e0] m0] t [[swk1 e1] m1] Hrecs HI Hstep Hht.
      apply map_trace_app in Hht as [Hh Htt]. rewrite replay_app.
      eapply unswap_inv_step; [exact Hrecs|by apply HI| |exact Htt].
      by apply emits_unswapStep.
    - intros _. repeat split; try done.
      + intros sw Hin. by apply elem_of_nil in Hin.
      + intros x _. by left.
      + intros sw Hin. by apply elem_of_nil in Hin.
      + intros x Hin. by apply elem_of_nil in Hin.
      + intros sw Hin. by apply elem_of_nil in Hin. }
  destruct Hloop as (J1 & J2 & J3 & J4 & J5 & J6 & J7 & J8).
  apply emits_finalSync in H3 as (tf & err & r2 & Hf & -> & -> & ->).
  apply map_trace_app in Ht3 as [Htf Hsync].
  destruct (flush_trace_map _ _ _ _ _ Hf Htf) as [-> Hl].
  destruct Hsync as [Hr2 _]. simpl in Hr2. subst r2.
  rewrite replay_app. change (replay ?s [ESync ?p None]) with s.
  assert (Hnew : ∀ x, x ∈ toDelete swker → ∀ sw, sw ∈ recs → x ≠ Old sw).
  { intros x Hx sw Hin ->. destruct (J7 _ Hx) as (sw0 & Hin0 & Heq).
    by apply (olds_not_news sw sw0). }
  split; [by rewrite J1|]. split; [done|]. split; [|split].
  - intros sw Hin. rewrite Hl, decide_False; [by apply J3|].
    intros Hx. by apply (Hnew _ Hx sw).
  - intros sw Hin. rewrite Hl. destruct (decide _) as [|Hd]; [done|].
    by destruct (J8 sw Hin).
  - intros x Hx. rewrite Hl, decide_False.
    + destruct (J4 x) as [?|(_ & sw0 & Hin0 & Heq)]; [by intros sw Hin; apply Hx|done|].
      by destruct (Hx sw0 Hin0).
    + intros Hd. destruct (J7 _ Hd) as (sw0 & Hin0 & Heq). by destruct (Hx sw0 Hin0).
Qed.

End BackwardInvariant.

(** *** The keys the backward worker touches *)

Lemma only_touches_app P t1 t2 :
  only_touches P (t1 ++ t2) ↔ only_touches P t1 ∧ only_touches P t2.
Proof. unfold only_touches. setoid_rewrite elem_of_app. naive_solver. Qed.

Lemma only_touches_nil P : only_touches P [].
Proof. intros e k He. by apply elem_of_nil in He. Qed.

Lemma only_touches_cons P e t :
  only_touches P (e :: t) ↔ (∀ k, touches e k → P k) ∧ only_touches P t.
Proof. unfold only_touches. setoid_rewrite elem_of_cons. naive_solver. Qed.

Lemma only_touches_sent P (b : bool) sw :
  only_touches P (if b then [ENotify sw] else []).
Proof.
  destruct b; [|apply only_touches_nil]. apply only_touches_cons.
  split; [by intros k []|apply only_touches_nil].
Qed.

Lemma deletes_trace_touches keys t r :
  deletes_trace keys t r → only_touches (λ k, k ∈ keys) t.
Proof.
  induction 1 as [|k keys e|k keys t r Hd IH].
  - apply only_touches_nil.
  - apply only_touches_cons. split; [|apply only_touches_nil].
    intros k' <-. by left.
  - apply only_touches_cons. split; [intros k' <-; by left|].
    intros e k' He Hk. right. by eapply IH.
Qed.

Lemma flush_trace_touches p keys t r :
  flush_trace p keys t r → only_touches (λ k, k ∈ keys) t.
Proof.
  intros [e|td r' Hd]; apply only_touches_cons; (split; [by intros k []|]).
  - apply only_touches_nil.
  - by eapply deletes_trace_touches.
Qed.

Lemma swap_outcome_touches (P : Key → Prop) SyncSize sw old new t sw' err :
  P old → P new → (∀ k, k ∈ toDelete sw → P k) →
  swap_outcome SyncSize sw old new t sw' err →
  only_touches P t ∧ (∀ k, k ∈ toDelete sw' → P k).
Proof.
  intros Hold Hnew Htd [(e & -> & -> & ->)|[(v & e & -> & -> & ->)|(v & tf & -> & Hc)]].
  - split; [|done]. apply only_touches_cons.
    split; [by intros k <-|apply only_touches_nil].
  - split; [|done]. apply only_touches_cons. split; [by intros k <-|].
    apply only_touches_cons. split; [by intros k <-|apply only_touches_nil].
  - assert (Htd' : ∀ k, k ∈ toDelete sw ++ [old] → P k).
    { intros k Hk. apply elem_of_app in Hk as [?|Hk]; [by apply Htd|].
      by apply list_elem_of_singleton in Hk as ->. }
    assert (Hq : only_touches P tf ∧ ∀ k, k ∈ toDelete sw' → P k).
    { cbv zeta in Hc. destruct (SyncSize <=? _).
      - destruct Hc as [Hf ->]. split.
        + intros e k He Hk. apply Htd'. by eapply (flush_trace_touches _ _ _ _ Hf).
        + destruct err; simpl; [done|]. intros k Hk. by apply elem_of_nil in Hk.
      - destruct Hc as (-> & -> & ->). split; [apply only_touches_nil|done]. }
    destruct Hq as [Hq1 Hq2]. split; [|done].
    apply only_touches_cons. split; [by intros k <-|].
    apply only_touches_cons. split; [by intros k <-|done].
Qed.

Lemma unswapWorker_touches SyncSize cswap recs t r :
  emits (unswapWorker SyncSize cswap recs) t r →
  only_touches (λ k, ∃ sw, sw ∈ recs ∧ (k = Old sw ∨ k = New sw)) t.
Proof.
  set (P := λ k : Key, ∃ sw, sw ∈ recs ∧ (k = Old sw ∨ k = New sw)).
  unfold unswapWorker, unswapLoop. intros Hem.
  apply emits_bind in Hem as (t1 & [[swker errored] m] & t2 & H1 & H2 & ->).
  apply emits_bind in H2 as (t3 & [sw' errored'] & t4 & H3 & H4 & ->).
  apply emits_ret in H4 as [-> _]. rewrite app_nil_r.
  pose (I := λ (h : list event) (st : swapWorker * Z * gmap Key Key),
    only_touches P h ∧ (∀ k, k ∈ toDelete st.1.1 → P k)
    ∧ (∀ n k, st.2 !! n = Some k → P k)).
  assert (HI : I ([] ++ t1) (swker, errored, m)).
  { refine (forEach_emits_inv (unswapStep SyncSize cswap) I recs _ [] _ _ _ _ H1).
    - intros h [[swk0 e0] m0] sw t [[swk1 e1] m1] Hin (Hh & Htd & Hm) Hstep.
      apply emits_unswapStep in Hstep as (t0 & sw1 & err & Hs & Hrest).
      assert (Pold : P (Old sw)) by (exists sw; eauto).
      assert (Pnew : P (New sw)) by (exists sw; eauto).
      cbn [fst snd] in *.
      destruct (swap_outcome_touches P _ _ _ _ _ _ _ Pnew Pold Htd Hs) as [Ht0 Htd1].
      assert (Hins : ∀ n k, <[New sw := Old sw]> m0 !! n = Some k → P k).
      { intros n k Hl. destruct (decide (n = New sw)) as [->|Hne].
        - rewrite lookup_insert_eq in Hl. by injection Hl as <-.
        - rewrite lookup_insert_ne in Hl by done. by eapply Hm. }
      unfold I. cbn [fst snd]. rewrite only_touches_app.
      destruct err as [[|msg]|].
      + destruct (m0 !! New sw) as [swappedTo|] eqn:Hmn.
        * destruct Hrest as (r1 & [(e' & -> & -> & _ & ->)|(v & o & -> & -> & _ & ->)]).
          -- repeat split; [done| |done..]. apply only_touches_app. split; [done|].
             apply only_touches_cons. split; [by intros k []|].
             apply only_touches_cons. split; [|apply only_touches_nil].
             intros k <-. by eapply Hm.
          -- repeat split; [done| |done..]. apply only_touches_app. split; [done|].
             apply only_touches_cons. split; [by intros k []|].
             apply only_touches_cons. split; [intros k <-; by eapply Hm|].
             apply only_touches_cons. split; [by intros k <-|].
             apply only_touches_sent.
        * by destruct Hrest as (-> & -> & _ & ->).
      + by destruct Hrest as (-> & -> & _ & ->).
      + destruct Hrest as (-> & -> & _ & ->). repeat split; [done| |done..].
        apply only_touches_app. split; [done|apply only_touches_sent].
    - repeat split; [apply only_touches_nil|..].
      + intros k Hk. by apply elem_of_nil in Hk.
      + intros n k Hl. cbn [snd] in Hl. by rewrite lookup_empty in Hl. }
  destruct HI as (Hh & Htd & _). cbn [fst snd app] in *.
  apply only_touches_app. split; [done|].
  apply emits_finalSync in H3 as (tf & err & r2 & Hf & -> & _).
  apply only_touches_app. split.
  - intros e k He Hk. apply Htd. by eapply (flush_trace_touches _ _ _ _ Hf).
  - apply only_touches_cons. split; [by intros k []|apply only_touches_nil].
Qed.

(** ** Forward and back on the in-memory datastore *)

Section MapRuns.
Context `{KeyCodec}.
Variable SyncSize : Z.
Variable NWorkers : nat.

Lemma query_keys_NoDup (prefix : Key) (s : gmap Key bytes) : NoDup (query_keys prefix s).
Proof. apply NoDup_filter. apply NoDup_fst_map_to_list. Qed.

Lemma query_keys_present (prefix : Key) (s : gmap Key bytes) (k : Key) :
  k ∈ query_keys prefix s → is_Some (s !! k).
Proof.
  unfold query_keys. intros Hk. apply list_elem_of_filter in Hk as [_ Hk].
  apply list_elem_of_fmap in Hk as ([k' v] & -> & Hkv).
  apply elem_of_map_to_list in Hkv. by exists v.
Qed.

Lemma candidates_query keys :
  clean_keys keys →
  candidates (map (λ k, mkResult (KeyString k) None) keys)
  = filter (λ k, is_Some (candidate k)) keys.
Proof.
  intros Hclean. induction keys as [|k keys IH]; [done|].
  cbn [map]. rewrite candidates_cons. cbn [res_Error res_Key].
  rewrite (Hclean k) by by left. rewrite IH by (intros k' Hk'; apply Hclean; by right).
  rewrite filter_cons. destruct (candidate k) as [n|] eqn:Hc.
  - rewrite decide_True by done. done.
  - rewrite decide_False; [done|]. by intros [? ?].
Qed.

Lemma Run_map (cswap : CidSwapper) (dryRun : bool) (deal sched : list nat)
    (s0 : gmap Key bytes) :
  Run SyncSize NWorkers cswap dryRun deal sched s0 =
  runWorkers sched
    (map (λ w, swapWorker_run SyncSize cswap dryRun
                 (received NWorkers w deal
                    (map (λ k, mkResult (KeyString k) None)
                         (query_keys (Prefix cswap) s0))))
         (seq 0 NWorkers)) s0.
Proof. done. Qed.

Lemma Revert_map (cswap : CidSwapper) (recs : list Swap) (s1 : gmap Key bytes) :
  Revert SyncSize cswap recs s1 =
  let '(n, e, s2, t) := run (unswapWorker SyncSize cswap recs) s1 in
  (u64 n, if 0 <? u64 e then Some (Err "errors happened during the migration. Consider running it again") else None,
   s2, map (pair 0%nat) t).
Proof.
  unfold Revert, runWorkers, pool_exec. cbn [fold_left drain].
  destruct (run _ s1) as [[[n e] s2] t]. cbn [fold_left fst snd app].
  rewrite app_nil_r, !Z.add_0_l. by destruct (0 <? u64 e).
Qed.

Lemma sum_list_zero {A} (f : A → Z) (rs : list A) :
  Forall (λ r, f r = 0) rs → sum_list (f <$> rs) = 0.
Proof.
  induction 1 as [|r rs Hr Hrs IH]; [done|].
  unfold sum_list in *. rewrite fmap_cons. cbn [foldr]. rewrite IH. lia.
Qed.

(** The forward run of [Run] on the in-memory datastore whose keys under the
    prefix are clean and where no key a candidate is swapped for is itself a
    candidate. *)
Lemma Run_forward (cswap : CidSwapper) (deal sched : list nat) (s0 s1 : gmap Key bytes)
    (total : Z) (err : option error) (tr : list (nat * event)) :
  (0 < NWorkers)%nat →
  clean_keys (query_keys (Prefix cswap) s0) →
  (∀ k m, k ∈ query_keys (Prefix cswap) s0 → candidate k = Some m →
          m ∈ query_keys (Prefix cswap) s0 → candidate m = None) →
  Run SyncSize NWorkers cswap false deal sched s0 = (total, err, s1, tr) →
  let cands := filter (λ k, is_Some (candidate k)) (query_keys (Prefix cswap) s0) in
  err = None ∧ migrated s0 cands s1
  ∧ Forall (λ ie, event_fine s0 cands ie.2) tr
  ∧ (SwapCh cswap = true → Old <$> notified tr ≡ₚ cands).
Proof.
  intros Hn Hclean Hfinal. rewrite Run_map. unfold runWorkers.
  destruct (pool_exec _ _ _) as [[rs s1'] tr'] eqn:Hexec.
  apply forward_pool in Hexec; [|done|..].
  - rewrite candidates_query in Hexec by done.
    destruct Hexec as (Hmig & Hrs & Htr & Hnot).
    pose proof (fold_u64_sum snd rs 0) as Hnerr. change (u64 0) with 0 in Hnerr.
    rewrite Hnerr, Z.add_0_l, sum_list_zero by done. change (0 <? u64 0) with false.
    intros [= <- <- <- <-]. done.
  - apply Forall_forall. intros res Hres. apply list_elem_of_fmap in Hres as (k & -> & _).
    done.
  - rewrite candidates_query by done. apply NoDup_filter, query_keys_NoDup.
  - rewrite candidates_query by done. intros k Hk.
    apply list_elem_of_filter in Hk as [_ Hk]. by eapply query_keys_present.
  - rewrite candidates_query by done. intros k m Hk Hc Hm.
    apply list_elem_of_filter in Hk as [_ Hk]. apply list_elem_of_filter in Hm as [Hcm Hm].
    rewrite (Hfinal k m Hk Hc Hm) in Hcm. by destruct Hcm.
Qed.

Lemma elem_of_notified (tr : list (nat * event)) sw :
  sw ∈ notified tr ↔ ∃ i, (i, ENotify sw) ∈ tr.
Proof.
  unfold notified. rewrite list_elem_of_omap. split.
  - intros ([i e] & Hin & He). destruct e; simplify_eq/=. by exists i.
  - intros [i Hin]. by exists (i, ENotify sw).
Qed.

Lemma pool_exec_nil {S : Type} `{!Batching S} {A : Type} (sched : list nat) (s : S) :
  pool_exec sched ([] : list (prog A)) s = ([], s, []).
Proof.
  unfold pool_exec.
  assert (Hfold : fold_left pool_step sched ([] : list (prog A), s, [])
                  = ([], s, [])).
  { induction sched as [|i sched IH]; [done|]. simpl. exact IH. }
  by rewrite Hfold.
Qed.

(** Once the keys [cands] of [s0] are migrated, the reversal of swaps that
    name each of them once restores [s0], provided the keys they were swapped
    for were free in [s0] and keys swapped for the same key held the same
    value; and it touches these keys and the keys they are swapped for only. *)
Lemma revert_restores (cswap' : CidSwapper) (s0 s1 s2 : gmap Key bytes)
    (cands : list Key) (recs : list Swap) (total : Z) (err : option error)
    (tr' : list (nat * event)) :
  NoDup cands → Old <$> recs ≡ₚ cands →
  (∀ sw, sw ∈ recs → candidate (Old sw) = Some (New sw)) →
  (∀ k, k ∈ cands → is_Some (s0 !! k)) →
  (∀ k m, k ∈ cands → candidate k = Some m → s0 !! m = None) →
  (∀ k k' m, k ∈ cands → k' ∈ cands → candidate k = Some m → candidate k' = Some m →
             s0 !! k = s0 !! k') →
  migrated s0 cands s1 →
  Revert SyncSize cswap' recs s1 = (total, err, s2, tr') →
  s2 = s0 ∧ err = None
  ∧ ∀ ie k, ie ∈ tr' → touches ie.2 k →
      k ∈ cands ∨ ∃ k', k' ∈ cands ∧ candidate k' = Some k.
Proof.
  intros Hnd Hperm Hpair Hpresent Hfresh Hsame (Hm1 & Hm2 & Hm3).
  rewrite Revert_map. destruct (run _ s1) as [[[n e] s2'] t] eqn:Hrun.
  assert (Hold : ∀ sw, sw ∈ recs → Old sw ∈ cands).
  { intros sw Hin. rewrite <- Hperm. by apply list_elem_of_fmap_2. }
  assert (Hcand : ∀ k, k ∈ cands → ∃ sw, sw ∈ recs ∧ Old sw = k).
  { intros k Hk. rewrite <- Hperm in Hk.
    apply list_elem_of_fmap in Hk as (sw & -> & Hin). by exists sw. }
  pose proof (unswapWorker_touches _ _ _ _ _ (run_emits _ _ _ _ _ Hrun)) as Htouch.
  apply unswapWorker_map in Hrun as (-> & -> & Hr1 & Hr2 & Hr3).
  - change (0 <? u64 0) with false. intros [= <- <- <- <-]. split; [|split; [done|]].
    + apply map_eq. intros x.
      destruct (decide (x ∈ Old <$> recs)) as [Hx|Hx].
      { apply list_elem_of_fmap in Hx as (sw & -> & Hin). rewrite (Hr1 sw Hin).
        destruct (Hm2 (Old sw) (New sw)) as (k' & Hk' & Hc' & ->); [by apply Hold|by apply Hpair|].
        apply (Hsame k' (Old sw) (New sw)); [done|by apply Hold|done|by apply Hpair]. }
      destruct (decide (x ∈ New <$> recs)) as [Hx'|Hx'].
      { apply list_elem_of_fmap in Hx' as (sw & -> & Hin). rewrite (Hr2 sw Hin).
        symmetry. apply (Hfresh (Old sw)); [by apply Hold|by apply Hpair]. }
      rewrite Hr3.
      * apply Hm3; [by rewrite <- Hperm|].
        intros k Hk Hc. destruct (Hcand k Hk) as (sw & Hin & <-).
        rewrite (Hpair sw Hin) in Hc. injection Hc as <-.
        apply Hx'. by apply list_elem_of_fmap_2.
      * intros sw Hin. split; intros ->; [apply Hx|apply Hx']; by apply list_elem_of_fmap_2.
    + intros [i e] k Hin Hk. apply list_elem_of_fmap in Hin as (e' & [= -> ->] & Hin).
      destruct (Htouch e' k Hin Hk) as (sw & Hsw & [->| ->]).
      * left. by apply Hold.
      * right. exists (Old sw). split; [by apply Hold|by apply Hpair].
  - by rewrite Hperm.
  - intros sw Hin. destruct (Hm2 (Old sw) (New sw)) as (k' & Hk' & Hc' & ->);
      [by apply Hold|by apply Hpair|]. by apply Hpresent.
  - intros sw sw' Hin Hin' Heq.
    destruct (Hpresent (Old sw)) as [v Hv]; [by apply Hold|].
    rewrite Heq, (Hfresh (Old sw') (New sw')) in Hv; [done|by apply Hold|by apply Hpair].
Qed.

(** C1 (as amended): on the in-memory datastore, for any number of workers,
    any deal of the keys to workers and any schedule, when the swapper has a
    channel for its swaps, the keys under the prefix are clean, no key a
    candidate is swapped for is in the store, and candidates swapped for the
    same key hold the same value: the forward run followed by the reversal of
    the swaps it notified ends with the original store, both without an error,
    and no request of either touches a key of the store that is not a
    candidate (a key whose last segment is no identifier, or one of version
    0). *)
Theorem roundtrip (cswap cswap' : CidSwapper) (deal sched : list nat)
    (s0 : gmap Key bytes) :
  SwapCh cswap = true →
  clean_keys (query_keys (Prefix cswap) s0) →
  (∀ k m, k ∈ query_keys (Prefix cswap) s0 → candidate k = Some m → s0 !! m = None) →
  (∀ k k' m, k ∈ query_keys (Prefix cswap) s0 → k' ∈ query_keys (Prefix cswap) s0 →
     candidate k = Some m → candidate k' = Some m → s0 !! k = s0 !! k') →
  let '(_, err, s1, tr) := Run SyncSize NWorkers cswap false deal sched s0 in
  let '(_, err', s2, tr') := Revert SyncSize cswap' (notified tr) s1 in
  s2 = s0 ∧ err = None ∧ err' = None
  ∧ ∀ k, is_Some (s0 !! k) → candidate k = None →
      ∀ ie, ie ∈ tr ++ tr' → ¬ touches ie.2 k.
Proof.
  intros Hch Hclean Hfresh Hsame.
  destruct (Run _ _ _ _ _ _ _) as [[[total err] s1] tr] eqn:HRun.
  destruct (Revert _ _ _ _) as [[[total' err'] s2] tr'] eqn:HRev.
  set (keys := query_keys (Prefix cswap) s0) in *.
  set (cands := filter (λ k, is_Some (candidate k)) keys).
  assert (Hsub : ∀ k, k ∈ cands → k ∈ keys).
  { intros k Hk. by apply list_elem_of_filter in Hk as [_ Hk]. }
  assert (Hquiet : ∀ k x, is_Some (s0 !! k) → candidate k = None →
            x ∈ cands ∨ (∃ k', k' ∈ cands ∧ candidate k' = Some x) → x ≠ k).
  { intros k x [v Hv] Hnone [Hx|(k' & Hk' & Hc)] ->.
    - apply list_elem_of_filter in Hx as [[m Hm] _]. congruence.
    - rewrite (Hfresh k' k) in Hv; [done|by apply Hsub|done]. }
  assert (Hfwd : err = None ∧ ∃ cands', (∀ k, k ∈ cands' → k ∈ cands)
            ∧ NoDup cands' ∧ migrated s0 cands' s1
            ∧ Forall (λ ie, event_fine s0 cands' ie.2) tr
            ∧ Old <$> notified tr ≡ₚ cands').
  { destruct (decide (0 < NWorkers)%nat) as [Hn|Hn].
    - apply Run_forward in HRun as (-> & Hmig & Hfine & Hnot); [|done..|].
      + split; [done|]. exists cands. split_and!; [done| |done|done|by apply Hnot].
        apply NoDup_filter, query_keys_NoDup.
      + intros k m Hk Hc Hm. apply query_keys_present in Hm as [v Hv].
        by rewrite (Hfresh k m) in Hv.
    - assert (NWorkers = 0%nat) as Hz by lia.
      rewrite Run_map in HRun. unfold runWorkers in HRun. rewrite Hz in HRun.
      simpl in HRun. rewrite pool_exec_nil in HRun. simpl in HRun.
      change (0 <? u64 0) with false in HRun. injection HRun as <- <- <- <-.
      split; [done|]. exists []. split_and!.
      + intros k Hk. by apply elem_of_nil in Hk.
      + constructor.
      + split_and!; [intros k Hk; by apply elem_of_nil in Hk
                    |intros k m Hk; by apply elem_of_nil in Hk|done].
      + constructor.
      + done. }
  destruct Hfwd as (-> & cands' & Hsub' & Hnd & Hmig & Hfine & Hnot).
  assert (Hpair : ∀ sw, sw ∈ notified tr → candidate (Old sw) = Some (New sw)).
  { intros sw Hsw. apply elem_of_notified in Hsw as [i Hin].
    rewrite Forall_forall in Hfine. by destruct (Hfine _ Hin) as [_ Hc]. }
  eapply revert_restores in HRev as (-> & -> & Htouch); [|done|exact Hnot|done|..|exact Hmig].
  - split_and!; [done..|].
    intros k Hk Hnone [i e] Hin Ht. apply elem_of_app in Hin as [Hin|Hin].
    + rewrite Forall_forall in Hfine. specialize (Hfine _ Hin). simpl in *.
      eapply (Hquiet k k Hk Hnone); [|done].
      destruct e as [k0 r|k0 v r|k0 r|p r|sw]; simpl in *; try done; subst k0.
      * left. apply Hsub'. by destruct Hfine.
      * right. destruct Hfine as (_ & k' & Hk' & Hc & _). exists k'. auto.
      * left. apply Hsub'. by destruct Hfine.
    + destruct (Htouch _ _ Hin Ht) as [Hx|(k' & Hk' & Hc)].
      * by apply (Hquiet k k Hk Hnone); [left; apply Hsub'|].
      * apply (Hquiet k k Hk Hnone); [right; exists k'; auto|done].
  - intros k Hk. apply (query_keys_present (Prefix cswap)). by apply Hsub, Hsub'.
  - intros k m Hk. apply Hfresh. by apply Hsub, Hsub'.
  - intros k k' m Hk Hk'. apply Hsame; by apply Hsub, Hsub'.
Qed.

End MapRuns.

(** C1 (counterexample): a store whose keys are the version-1 key [A] and the
    version-0 key [C] of the same multihash. The forward run writes the value
    of [A] under [C], the reversal deletes [C], and the store they end with
    has lost [C]. *)
Lemma roundtrip_counterexample :
  let s0 := Sample.store_clash in
  (∃ c, dsKeyToCid (NewKey (BaseNamespace Sample.A)) = inl c ∧ Version c = 1)
  ∧ (∃ c, dsKeyToCid (NewKey (BaseNamespace Sample.C)) = inl c ∧ Version c = 0)
  ∧ let '(_, err, s1, tr) := Run Sample.syncSize 4 Sample.cswap false [] [] s0 in
    let '(_, err', s2, tr') := Revert Sample.syncSize Sample.cswap (notified tr) s1 in
    err = None ∧ err' = None
    ∧ s0 !! Sample.C = Some Sample.value ∧ s2 !! Sample.C = None
    ∧ (0%nat, EPut Sample.C Sample.value None) ∈ tr
    ∧ (0%nat, EDelete Sample.C None) ∈ tr'.
Proof.
  split; [eexists; split; reflexivity|].
  split; [eexists; split; reflexivity|].
  vm_compute. split_and!; try reflexivity; repeat constructor.
Qed.

Lemma roundtrip_witness :
  let '(_, err, s1, tr) :=
    Run Sample.syncSize 4 Sample.cswap false [1; 0]%nat [0; 1; 1; 0]%nat
      Sample.store_collapse in
  let '(_, err', s2, tr') := Revert Sample.syncSize Sample.cswap (notified tr) s1 in
  s2 = Sample.store_collapse ∧ err = None ∧ err' = None
  ∧ ∀ k, is_Some (Sample.store_collapse !! k) → candidate k = None →
      ∀ ie, ie ∈ tr ++ tr' → ¬ touches ie.2 k.
Proof.
  apply (roundtrip Sample.syncSize 4 Sample.cswap Sample.cswap [1; 0]%nat
           [0; 1; 1; 0]%nat Sample.store_collapse).
  - reflexivity.
  - intros k Hk. vm_compute in Hk.
    repeat (apply elem_of_cons in Hk as [->|Hk]); try reflexivity.
    by apply elem_of_nil in Hk.
  - intros k m Hk Hc. vm_compute in Hk.
    repeat (apply elem_of_cons in Hk as [->|Hk]); try (by apply elem_of_nil in Hk);
      vm_compute in Hc; try discriminate; injection Hc as <-; reflexivity.
  - intros k k' m Hk Hk' Hc Hc'. vm_compute in Hk, Hk'.
    repeat (apply elem_of_cons in Hk as [->|Hk]); try (by apply elem_of_nil in Hk);
      repeat (apply elem_of_cons in Hk' as [->|Hk']); try (by apply elem_of_nil in Hk');
      vm_compute in Hc, Hc'; try discriminate; reflexivity.
Defined.

(** ** Keys that collapse *)

Section Collapse.
Context `{KeyCodec}.
Variable SyncSize : Z.
Variable NWorkers : nat.

(** The restoration of [old] from [new] when [new] is no longer in the store
    and the map of restored keys knows that [new] was restored to [prev]: the
    value is read from [prev] and written under [old], nothing is counted as
    an error, and the map now names [old]. *)
Lemma unswapStep_dedup (cswap : CidSwapper) (swker : swapWorker) (errored : Z)
    (m : gmap Key Key) (s : gmap Key bytes) (old new prev : Key) (w : bytes) :
  s !! new = None → m !! new = Some prev → s !! prev = Some w →
  run (unswapStep SyncSize cswap (swker, errored, m) (mkSwap old new)) s =
    ((one_more swker, errored, <[new := old]> m), <[old := w]> s,
     [EGet new (inr ErrNotFound); ESync (syncPrefix swker) None;
      EGet prev (inl w); EPut old w None]
     ++ (if SwapCh cswap then [ENotify (mkSwap new old)] else [])).
Proof.
  intros Hnew Hm Hprev. unfold unswapStep, swap, sync, notify, one_more.
  cbn. rewrite Hnew. cbn. rewrite Hm. cbn. rewrite Hprev. cbn.
  by destruct (SwapCh cswap).
Qed.

(** C5: on the in-memory datastore, let [A] and [B] be two keys under the
    prefix that are both swapped for [C].  The forward run ends without [A]
    and [B] and with one value at [C], that of a key swapped for [C], and it
    notifies both swaps.  The reversal of the two swaps, in either order,
    counts two restorations and no error, and ends with the value of [C] at
    both [A] and [B] and without [C].  When [C] is already gone at a
    restoration and the map of restored keys has an entry for it, the value
    is read from the key of the entry and no error is counted. *)
Theorem collapse (cswap cswap' : CidSwapper) (deal sched : list nat)
    (s0 : gmap Key bytes) (A B C : Key) (recs : list Swap) :
  (0 < NWorkers)%nat →
  clean_keys (query_keys (Prefix cswap) s0) →
  (∀ k m, k ∈ query_keys (Prefix cswap) s0 → candidate k = Some m →
          m ∈ query_keys (Prefix cswap) s0 → candidate m = None) →
  A ∈ query_keys (Prefix cswap) s0 → B ∈ query_keys (Prefix cswap) s0 →
  A ≠ B → candidate A = Some C → candidate B = Some C →
  recs ≡ₚ [mkSwap A C; mkSwap B C] →
  let '(_, err, s1, tr) := Run SyncSize NWorkers cswap false deal sched s0 in
  let '(total', err', s2, tr') := Revert SyncSize cswap' recs s1 in
  (err = None ∧ s1 !! A = None ∧ s1 !! B = None
   ∧ (∃ k v, k ∈ query_keys (Prefix cswap) s0 ∧ candidate k = Some C
             ∧ s0 !! k = Some v ∧ s1 !! C = Some v)
   ∧ (SwapCh cswap = true → mkSwap A C ∈ notified tr ∧ mkSwap B C ∈ notified tr))
  ∧ (total' = 2 ∧ err' = None
     ∧ s2 !! A = s1 !! C ∧ s2 !! B = s1 !! C ∧ s2 !! C = None)
  ∧ (∀ swker errored (m : gmap Key Key) (s : gmap Key bytes) old prev w,
       s !! C = None → m !! C = Some prev → s !! prev = Some w →
       run (unswapStep SyncSize cswap' (swker, errored, m) (mkSwap old C)) s =
         ((one_more swker, errored, <[C := old]> m), <[old := w]> s,
          [EGet C (inr ErrNotFound); ESync (syncPrefix swker) None;
           EGet prev (inl w); EPut old w None]
          ++ (if SwapCh cswap' then [ENotify (mkSwap C old)] else []))).
Proof.
  intros Hn Hclean Hfinal HA HB Hne HcA HcB Hrecs.
  destruct (Run _ _ _ _ _ _ _) as [[[total err] s1] tr] eqn:HRun.
  destruct (Revert _ _ _ _) as [[[total' err'] s2] tr'] eqn:HRev.
  set (keys := query_keys (Prefix cswap) s0) in *.
  apply Run_forward in HRun as (-> & (Hm1 & Hm2 & Hm3) & Hfine & Hnot); [|done..].
  fold keys in Hm1, Hm2, Hm3, Hfine, Hnot.
  set (cands := filter (λ k, is_Some (candidate k)) keys) in *.
  assert (HAc : A ∈ cands) by (apply list_elem_of_filter; split; [by rewrite HcA|done]).
  assert (HBc : B ∈ cands) by (apply list_elem_of_filter; split; [by rewrite HcB|done]).
  assert (HC : ∃ k v, k ∈ keys ∧ candidate k = Some C ∧ s0 !! k = Some v
                      ∧ s1 !! C = Some v).
  { destruct (Hm2 A C HAc HcA) as (k' & Hk' & Hc' & HsC).
    apply list_elem_of_filter in Hk' as [_ Hk'].
    destruct (query_keys_present (Prefix cswap) s0 k' Hk') as [v Hv].
    exists k', v. rewrite HsC. done. }
  assert (HAC : A ≠ C).
  { intros <-. by rewrite (Hfinal A A HA HcA HA) in HcA. }
  assert (HBC : B ≠ C).
  { intros <-. by rewrite (Hfinal B B HB HcB HB) in HcB. }
  assert (Hin : ∀ sw, sw ∈ recs ↔ sw = mkSwap A C ∨ sw = mkSwap B C).
  { intros sw. rewrite Hrecs. set_solver. }
  split; [|split].
  - split_and!; [done|by apply Hm1|by apply Hm1|done|].
    intros Hch. specialize (Hnot Hch).
    assert (Hsw : ∀ k, k ∈ cands → ∀ c, candidate k = Some c → mkSwap k c ∈ notified tr).
    { intros k Hk c Hc. rewrite <- Hnot in Hk.
      apply list_elem_of_fmap in Hk as ([o n] & -> & Hsw).
      pose proof Hsw as Hsw'. apply elem_of_notified in Hsw' as [i Hi].
      rewrite Forall_forall in Hfine. destruct (Hfine _ Hi) as [_ Hc'].
      simpl in *. by simplify_eq. }
    split; by apply Hsw.
  - rewrite Revert_map in HRev. destruct (run _ s1) as [[[n e] s2'] t] eqn:Hrun.
    apply unswapWorker_map in Hrun as (-> & -> & Hr1 & Hr2 & _).
    + change (0 <? u64 0) with false in HRev. injection HRev as <- <- <- <-.
      rewrite (Permutation_length Hrecs).
      split_and!; [done|done|..].
      * apply (Hr1 (mkSwap A C)), Hin. by left.
      * apply (Hr1 (mkSwap B C)), Hin. by right.
      * apply (Hr2 (mkSwap A C)), Hin. by left.
    + rewrite Hrecs. simpl. apply NoDup_cons. split; [set_solver|]. apply NoDup_singleton.
    + intros sw Hsw. destruct HC as (k & v & _ & _ & _ & HsC).
      apply Hin in Hsw as [-> | ->]; simpl; by rewrite HsC.
    + intros sw sw' Hsw Hsw'.
      apply Hin in Hsw as [-> | ->]; apply Hin in Hsw' as [-> | ->]; done.
  - intros swker errored m s old prev w. apply unswapStep_dedup.
Qed.

End Collapse.

Lemma collapse_witness :
  let '(_, err, s1, tr) :=
    Run 1 2 Sample.cswap false [0; 1; 1]%nat [1; 0; 0; 1]%nat Sample.store_collapse in
  let '(total', err', s2, tr') :=
    Revert 1 Sample.cswap [mkSwap Sample.B Sample.C; mkSwap Sample.A Sample.C] s1 in
  (err = None ∧ s1 !! Sample.A = None ∧ s1 !! Sample.B = None
   ∧ (∃ k v, k ∈ query_keys (Prefix Sample.cswap) Sample.store_collapse
             ∧ candidate k = Some Sample.C
             ∧ Sample.store_collapse !! k = Some v ∧ s1 !! Sample.C = Some v)
   ∧ (SwapCh Sample.cswap = true →
      mkSwap Sample.A Sample.C ∈ notified tr ∧ mkSwap Sample.B Sample.C ∈ notified tr))
  ∧ (total' = 2 ∧ err' = None
     ∧ s2 !! Sample.A = s1 !! Sample.C ∧ s2 !! Sample.B = s1 !! Sample.C
     ∧ s2 !! Sample.C = None)
  ∧ (∀ swker errored (m : gmap Key Key) (s : gmap Key bytes) old prev w,
       s !! Sample.C = None → m !! Sample.C = Some prev → s !! prev = Some w →
       run (unswapStep 1 Sample.cswap (swker, errored, m) (mkSwap old Sample.C)) s =
         ((one_more swker, errored, <[Sample.C := old]> m), <[old := w]> s,
          [EGet Sample.C (inr ErrNotFound); ESync (syncPrefix swker) None;
           EGet prev (inl w); EPut old w None]
          ++ (if SwapCh Sample.cswap then [ENotify (mkSwap Sample.C old)] else []))).
Proof.
  apply (collapse 1 2 Sample.cswap Sample.cswap [0; 1; 1]%nat [1; 0; 0; 1]%nat
           Sample.store_collapse Sample.A Sample.B Sample.C
           [mkSwap Sample.B Sample.C; mkSwap Sample.A Sample.C]).
  - lia.
  - intros k Hk. vm_compute in Hk.
    repeat (apply elem_of_cons in Hk as [->|Hk]); try reflexivity.
    by apply elem_of_nil in Hk.
  - intros k m Hk Hc Hm. vm_compute in Hk, Hm.
    repeat (apply elem_of_cons in Hk as [->|Hk]); try (by apply elem_of_nil in Hk);
      vm_compute in Hc; try discriminate; injection Hc as <-;
      repeat (apply elem_of_cons in Hm as [Hm|Hm]); try (by apply elem_of_nil in Hm);
      discriminate.
  - vm_compute. repeat constructor.
  - vm_compute. repeat constructor.
  - discriminate.
  - reflexivity.
  - reflexivity.
  - apply perm_swap.
Defined.

(** The map of restored keys at work: with a batch size of one byte, the
    reversal deletes [C] once [A] is restored, and restores [B] from [A]. *)
Example collapse_dedup_example :
  let s1 : gmap Key bytes := {[Sample.C := Sample.value]} in
  Revert 1 Sample.cswap [mkSwap Sample.A Sample.C; mkSwap Sample.B Sample.C] s1 =
    (2, None, {[Sample.A := Sample.value; Sample.B := Sample.value]},
     map (pair 0%nat)
       [EGet Sample.C (inl Sample.value); EPut Sample.A Sample.value None;
        ESync Sample.blocks None; EDelete Sample.C None;
        ENotify (mkSwap Sample.C Sample.A);
        EGet Sample.C (inr ErrNotFound); ESync Sample.blocks None;
        EGet Sample.A (inl Sample.value); EPut Sample.B Sample.value None;
        ENotify (mkSwap Sample.C Sample.B);
        ESync Sample.blocks None; ESync Sample.blocks None]).
Proof. vm_compute. reflexivity. Qed.

(** ** The log is written before the migration *)

Section PoolTraces.
Context {S : Type} `{!Batching S} {A : Type}.

(** Only the goroutines of the pool issue requests. *)
Lemma pool_exec_indices (sched : list nat) (pool : list (prog A)) (s : S)
    (rs : list A) (s' : S) (tr : list (nat * event)) :
  pool_exec sched pool s = (rs, s', tr) →
  Forall (λ ie, (ie.1 < length pool)%nat) tr.
Proof.
  intros Hexec. apply pool_exec_reach in Hexec.
  pose (I := λ st : @pool_state S A,
    length st.1.1 = length pool ∧ Forall (λ ie, (ie.1 < length pool)%nat) st.2).
  assert (HI : I (map Ret rs, s', tr)); [|by destruct HI].
  eapply (reach_inv I); [|exact Hexec|by split].
  intros pool1 s1 tr1 i p p' s2 e [Hlen Hall] Hp Hstep. split; simpl in *.
  - by rewrite length_insert.
  - apply Forall_app. split; [done|]. constructor; [|done]. simpl.
    rewrite <- Hlen. by eapply lookup_lt_Some.
Qed.

(** What holds of every request of every trace of each goroutine holds of
    every request of the pool. *)
Lemma pool_exec_Forall (P : event → Prop) (sched : list nat) (pool : list (prog A))
    (s : S) (rs : list A) (s' : S) (tr : list (nat * event)) :
  (∀ p t a, p ∈ pool → emits p t a → Forall P t) →
  pool_exec sched pool s = (rs, s', tr) →
  Forall (λ ie, P ie.2) tr.
Proof.
  intros HP Hexec. pose proof (pool_exec_indices _ _ _ _ _ _ Hexec) as Hidx.
  apply pool_exec_project in Hexec as [_ Hproj].
  rewrite Forall_forall in Hidx. apply Forall_forall. intros [i e] Hin.
  specialize (Hidx _ Hin). simpl in *.
  destruct (lookup_lt_is_Some_2 pool i Hidx) as [p Hp].
  destruct (Hproj i p Hp) as (a & _ & Hem).
  apply HP in Hem; [|by eapply list_elem_of_lookup_2].
  rewrite Forall_forall in Hem. apply Hem. unfold trace_of.
  apply list_elem_of_omap. exists (i, e). split; [done|]. simpl.
  by rewrite decide_True.
Qed.

End PoolTraces.


Section Silent.
Context `{KeyCodec} {S : Type} `{!Batching S}.
Variable SyncSize : Z.
Variable NWorkers : nat.

Lemma deletes_trace_requests (keys : list Key) (t : list event) (r : option error) :
  deletes_trace keys t r → Forall (λ e, is_request e = true) t.
Proof. induction 1; repeat constructor; done. Qed.

Lemma flush_trace_requests (p : Key) (keys : list Key) (t : list event)
    (r : option error) :
  flush_trace p keys t r → Forall (λ e, is_request e = true) t.
Proof.
  destruct 1 as [e|t r Hd]; [by repeat constructor|].
  constructor; [done|]. by eapply deletes_trace_requests.
Qed.

Lemma swap_outcome_requests (sw : swapWorker) (old new : Key) (t : list event)
    (sw' : swapWorker) (err : option error) :
  swap_outcome SyncSize sw old new t sw' err → Forall (λ e, is_request e = true) t.
Proof.
  intros [(e & -> & _)|[(v & e & -> & _)|(v & tf & -> & Hc)]];
    [by repeat constructor..|].
  do 2 (constructor; [done|]). cbv zeta in Hc. destruct (SyncSize <=? _).
  - destruct Hc as [Hf _]. by eapply flush_trace_requests.
  - destruct Hc as (-> & _). constructor.
Qed.


(** A dry run sends swaps and makes no request of the store. *)
Lemma Run_dry_quiet (cswap : CidSwapper) (deal sched : list nat) (s s' : S)
    (r : Z * option error) (tr : list (nat * event)) :
  Run SyncSize NWorkers cswap true deal sched s = (r, s', tr) →
  Forall (λ ie, is_request ie.2 = false) tr.
Proof.
  unfold Run. destruct (ds_Query _ s) as [[resultsCh|e] s1]; [|by intros [= <- <- <-]].
  unfold runWorkers. destruct (pool_exec _ _ _) as [[rs s2] tr2] eqn:Hexec.
  intros Heq. assert (tr = tr2) as -> by (by destruct (0 <? _); simplify_eq).
  eapply (pool_exec_Forall (λ e, is_request e = false)); [|exact Hexec].
  intros p t a Hp Hem. apply list_elem_of_fmap in Hp as (w & -> & _).
  by eapply dry_run_no_request.
Qed.





End Silent.


(** ** What a run may touch, on every datastore *)

Section Scope.
Context `{KeyCodec}.
Variable SyncSize : Z.

Lemma in_scope_mono (p : Key) (keys keys' : list Key) (e : event) :
  (∀ k, k ∈ keys → k ∈ keys') → in_scope p keys e → in_scope p keys' e.
Proof.
  intros Hsub. destruct e as [k r|n v r|k r|q r|sw]; simpl; [auto| |auto|auto|].
  - intros (k & Hk & Hc). exists k. auto.
  - intros [Hk Hc]. auto.
Qed.

Lemma deletes_trace_scope (p : Key) (cands keys : list Key) (t : list event)
    (r : option error) :
  (∀ k, k ∈ keys → k ∈ cands) → deletes_trace keys t r → Forall (in_scope p cands) t.
Proof.
  intros Hsub Hd. induction Hd as [|k keys e|k keys t r Hd IH].
  - constructor.
  - repeat constructor. simpl. apply Hsub. by left.
  - constructor; [simpl; apply Hsub; by left|]. apply IH. intros k' Hk'. apply Hsub. by right.
Qed.

Lemma flush_trace_scope (p : Key) (cands keys : list Key) (t : list event)
    (r : option error) :
  (∀ k, k ∈ keys → k ∈ cands) → flush_trace p keys t r → Forall (in_scope p cands) t.
Proof.
  intros Hsub [e|td r' Hd]; [by repeat constructor|].
  constructor; [done|]. by eapply deletes_trace_scope.
Qed.

Lemma swap_outcome_scope (sw : swapWorker) (old new : Key) (cands : list Key)
    (t : list event) (sw' : swapWorker) (err : option error) :
  old ∈ cands → candidate old = Some new →
  (∀ k, k ∈ toDelete sw → k ∈ cands) →
  swap_outcome SyncSize sw old new t sw' err →
  Forall (in_scope (syncPrefix sw) cands) t
  ∧ syncPrefix sw' = syncPrefix sw
  ∧ (∀ k, k ∈ toDelete sw' → k ∈ cands).
Proof.
  intros Hold Hc Htd [(e & -> & -> & ->)|[(v & e & -> & -> & ->)|(v & tf & -> & Hf)]].
  - split; [|done]. by repeat constructor.
  - split; [|done]. repeat constructor; [done|]. simpl. eauto.
  - assert (Htd' : ∀ k, k ∈ toDelete sw ++ [old] → k ∈ cands).
    { intros k Hk. apply elem_of_app in Hk as [Hk|Hk]; [auto|].
      by apply list_elem_of_singleton in Hk as ->. }
    cbv zeta in Hf. destruct (SyncSize <=? _).
    + destruct Hf as [Hf ->]. split; [|split].
      * constructor; [done|]. constructor; [simpl; eauto|].
        by eapply flush_trace_scope.
      * by destruct err.
      * destruct err; simpl; [done|]. intros k Hk. by apply elem_of_nil in Hk.
    + destruct Hf as (-> & -> & ->). split; [|done].
      constructor; [done|]. constructor; [simpl; eauto|constructor].
Qed.

Lemma candidates_elem (resultsCh : list Result) (k : Key) :
  k ∈ candidates resultsCh ↔
  ∃ res, res ∈ resultsCh ∧ res_Error res = None ∧ NewKey (res_Key res) = k
         ∧ is_Some (candidate k).
Proof.
  unfold candidates. rewrite list_elem_of_omap. split.
  - intros (res & Hin & Hres). exists res. split; [done|].
    destruct (res_Error res); [done|].
    destruct (candidate (NewKey (res_Key res))) eqn:Hc; [|done].
    injection Hres as <-. rewrite Hc. eauto.
  - intros (res & Hin & He & <- & [n Hn]). exists res. split; [done|].
    by rewrite He, Hn.
Qed.

Lemma candidates_app (l1 l2 : list Result) :
  candidates (l1 ++ l2) = candidates l1 ++ candidates l2.
Proof. unfold candidates. by rewrite omap_app. Qed.

(** The requests of a forward worker, whatever the store answers. *)
Lemma swapWorker_run_scope (cswap : CidSwapper) (dryRun : bool) (got : list Result)
    (t : list event) (r : Z * Z) :
  emits (swapWorker_run SyncSize cswap dryRun got) t r →
  Forall (in_scope (Prefix cswap) (candidates got)) t.
Proof.
  unfold swapWorker_run. intros Hr.
  apply emits_bind in Hr as (t1 & [sw errored] & t2 & H1 & H2 & ->).
  apply emits_bind in H2 as (t3 & [sw' errored'] & t4 & H3 & H4 & ->).
  apply emits_ret in H4 as [-> _]. rewrite app_nil_r.
  pose (I := λ (seen : list Result) (h : list event) (st : swapWorker * Z),
    syncPrefix st.1 = Prefix cswap
    ∧ Forall (in_scope (Prefix cswap) (candidates seen)) h
    ∧ ∀ k, k ∈ toDelete st.1 → k ∈ candidates seen).
  assert (HI : I ([] ++ got) ([] ++ t1) (sw, errored)).
  { eapply (forEach_emits_ind (swapStep SyncSize cswap dryRun) I); [| |exact H1].
    - intros seen res h [sw0 e0] t [sw1 e1] (Hp & Hh & Htd) Hstep.
      apply emits_swapStep in Hstep. unfold I in *. cbn [fst snd] in *.
      assert (Hmono : ∀ k, k ∈ candidates seen → k ∈ candidates (seen ++ [res])).
      { intros k Hk. rewrite candidates_app. apply elem_of_app. by left. }
      assert (Hh' : Forall (in_scope (Prefix cswap) (candidates (seen ++ [res]))) h).
      { eapply Forall_impl; [exact Hh|]. intros e. by apply in_scope_mono. }
      unfold swapStep_outcome in Hstep.
      destruct (res_Error res) eqn:He.
      { destruct Hstep as (-> & -> & ->). rewrite app_nil_r. auto. }
      destruct (candidate _) as [newKey|] eqn:Hc.
      2:{ destruct Hstep as (-> & -> & ->). rewrite app_nil_r. auto. }
      assert (Hin : NewKey (res_Key res) ∈ candidates (seen ++ [res])).
      { apply candidates_elem. exists res. split; [set_solver|]. by rewrite Hc. }
      assert (Hsent : Forall (in_scope (Prefix cswap) (candidates (seen ++ [res])))
                        (if SwapCh cswap
                         then [ENotify (mkSwap (NewKey (res_Key res)) newKey)] else [])).
      { destruct (SwapCh cswap); by repeat constructor. }
      destruct dryRun.
      { destruct Hstep as (-> & -> & ->). split; [done|]. split; [|auto].
        apply Forall_app. by split. }
      destruct Hstep as (t0 & err & Hs & -> & _).
      eapply swap_outcome_scope in Hs as (Ht0 & Hp' & Htd'); [|exact Hin|exact Hc|auto].
      rewrite Hp in *. split; [done|]. split; [|done].
      apply Forall_app. split; [done|]. apply Forall_app. split; [done|].
      destruct err; [constructor|done].
    - unfold I. cbn. split; [done|]. split; [constructor|].
      intros k Hk. by apply elem_of_nil in Hk. }
  destruct HI as (Hp & Hh & Htd). cbn [fst snd app] in *.
  apply Forall_app. split; [done|]. destruct dryRun.
  - apply emits_ret in H3 as [-> _]. constructor.
  - apply emits_finalSync in H3 as (tf & err & r2 & Hf & -> & _). rewrite Hp in *.
    apply Forall_app. split; [by eapply flush_trace_scope|by repeat constructor].
Qed.

Lemma received_elem {A} (n w : nat) (deal : list nat) (ch : list A) (x : A) :
  x ∈ received n w deal ch → x ∈ ch.
Proof.
  intros Hx.
  assert (Hall : Forall (λ y, y ∈ ch) (received n w deal ch)).
  { apply received_sublist. by apply Forall_forall. }
  rewrite Forall_forall in Hall. auto.
Qed.

Context {S : Type} `{!Batching S}.
Variable NWorkers : nat.

(** X1. On every datastore, whichever worker gets which result and however the
    workers interleave, in a dry run or not: when the query fails [Run] makes
    no request; otherwise every key it reads or deletes is a candidate among
    the results of the query, every key it writes is the key such a candidate
    is swapped for, it syncs the prefix only, and the swaps it sends are
    those of candidates. *)
Theorem Run_stays_in_scope (cswap : CidSwapper) (dryRun : bool)
    (deal sched : list nat) (s : S) :
  let '(_, _, tr) := Run SyncSize NWorkers cswap dryRun deal sched s in
  match (ds_Query (Prefix cswap) s).1 with
  | inr _ => tr = []
  | inl resultsCh =>
      Forall (λ ie, in_scope (Prefix cswap) (candidates resultsCh) ie.2) tr
  end.
Proof.
  unfold Run. destruct (ds_Query (Prefix cswap) s) as [[resultsCh|e] s0]; cbn [fst];
    [|done].
  unfold runWorkers. destruct (pool_exec sched _ s0) as [[rs s'] tr] eqn:Hexec.
  assert (Htr : Forall (λ ie, in_scope (Prefix cswap) (candidates resultsCh) ie.2) tr).
  { eapply (pool_exec_Forall (in_scope (Prefix cswap) (candidates resultsCh)));
      [|exact Hexec].
    intros p t a Hp Hem. apply list_elem_of_fmap in Hp as (w & -> & _).
    apply swapWorker_run_scope in Hem. eapply Forall_impl; [exact Hem|].
    intros e. apply in_scope_mono. intros k Hk.
    apply candidates_elem in Hk as (res & Hin & Hrest). apply candidates_elem.
    exists res. split; [by eapply received_elem|done]. }
  by destruct (0 <? _).
Qed.

End Scope.

Section RevertScope.
Variable SyncSize : Z.





Context {S : Type} `{!Batching S}.


End RevertScope.

(** ** A run without error is complete *)

Section Complete.
Context `{KeyCodec}.
Variable SyncSize : Z.

Lemma counted_zero (errored : Z) (err : option error) :
  0 ≤ errored < 2 ^ 64 - 1 → counted errored err = 0 → errored = 0 ∧ err = None.
Proof.
  intros Hb. destruct err as [e|]; simpl; [|done].
  rewrite u64_small by lia. lia.
Qed.

Lemma two_step_flush_deletes (p : Key) (keys : list Key) (k : Key) :
  k ∈ keys → EDelete k None ∈ two_step_flush p keys.
Proof.
  intros Hk. unfold two_step_flush. right.
  apply list_elem_of_fmap. by exists k.
Qed.

(** A forward worker that counts no error has met no failed result, has
    swapped every candidate it received for good, and returns their number. *)
Lemma swapWorker_run_complete (cswap : CidSwapper) (got : list Result)
    (t : list event) (n : Z) :
  Z.of_nat (length got) + 2 < 2 ^ 64 →
  emits (swapWorker_run SyncSize cswap false got) t (n, 0) →
  Forall (λ res, res_Error res = None) got
  ∧ n = u64 (Z.of_nat (length (candidates got)))
  ∧ ∀ k, k ∈ candidates got → swapped_ok t k.
Proof.
  intros Hbound. unfold swapWorker_run. intros Hr.
  apply emits_bind in Hr as (t1 & [sw errored] & t2 & H1 & H2 & ->).
  apply emits_bind in H2 as (t3 & [sw' errored'] & t4 & H3 & H4 & ->).
  apply emits_ret in H4 as [-> Heq]. injection Heq as Hn0 He0. subst n errored'.
  rewrite app_nil_r.
  pose (I := λ (seen : list Result) (h : list event) (st : swapWorker * Z),
    syncPrefix st.1 = Prefix cswap
    ∧ 0 ≤ st.2 ≤ Z.of_nat (length seen)
    ∧ (st.2 = 0 →
       Forall (λ res, res_Error res = None) seen
       ∧ swapped st.1 = u64 (Z.of_nat (length (candidates seen)))
       ∧ ∀ k, k ∈ candidates seen →
           ∃ new v, candidate k = Some new ∧ EGet k (inl v) ∈ h ∧ EPut new v None ∈ h
                    ∧ (EDelete k None ∈ h ∨ k ∈ toDelete st.1))).
  assert (HI : I got ([] ++ t1) (sw, errored)).
  { eapply (forEach_emits_prefix (swapStep SyncSize cswap false) I got); [| |exact H1].
    - intros seen res rest h [sw0 e0] t [sw1 e1] Hgot (Hp & Hb & Hz) Hstep.
      apply emits_swapStep in Hstep. unfold I in *. cbn [fst snd] in *.
      assert (Hlen : Z.of_nat (length seen) + 1 ≤ Z.of_nat (length got)).
      { rewrite Hgot, length_app. cbn [length]. lia. }
      rewrite length_app, candidates_snoc. cbn [length].
      unfold swapStep_outcome in Hstep. destruct (res_Error res) eqn:He.
      { destruct Hstep as (-> & -> & ->). split; [done|]. split.
        - pose proof (u64_nonneg (e0 + 1)). pose proof (u64_le (e0 + 1)). lia.
        - rewrite u64_small by lia. lia. }
      destruct (candidate _) as [newKey|] eqn:Hc.
      2:{ destruct Hstep as (-> & -> & ->). rewrite !app_nil_r. split; [done|].
          split; [lia|]. intros Hz0. destruct (Hz Hz0) as (Hres & Hsw & Hk).
          split; [|done]. apply Forall_app. split; [done|]. by repeat constructor. }
      destruct Hstep as (t0 & err & Hs & -> & ->).
      assert (Hp' : syncPrefix sw1 = Prefix cswap).
      { destruct Hs as [(e & _ & -> & _)|[(v & e & _ & -> & _)|(v & tf & _ & Hf)]];
          [done..|]. cbv zeta in Hf. destruct (SyncSize <=? _).
        - destruct Hf as [_ ->]. by destruct err.
        - by destruct Hf as (_ & _ & ->). }
      split; [done|]. split; [pose proof (counted_bounds e0 err); lia|].
      intros Hz0. apply counted_zero in Hz0 as [-> ->]; [|lia].
      destruct (Hz eq_refl) as (Hres & Hsw & Hk).
      split; [apply Forall_app; split; [done|by repeat constructor]|].
      destruct Hs as [(e & _ & _ & [=])|[(v & e & _ & _ & [=])|(v & tf & -> & Hf)]].
      cbv zeta in Hf.
      set (old := NewKey (res_Key res)) in *.
      assert (Hcount : u64 (swapped sw0 + 1)
                       = u64 (Z.of_nat (length (candidates seen ++ [old])))).
      { rewrite Hsw, u64_add_l, length_app. cbn [length]. f_equal. lia. }
      destruct (SyncSize <=? _).
      + destruct Hf as [Hf ->]. apply flush_trace_all_ok in Hf as ->. cbn [flushed swapped toDelete].
        split; [done|]. intros k Hin. apply elem_of_app in Hin as [Hin|Hin].
        * destruct (Hk k Hin) as (new & v' & Hcand & Hget & Hput & Hdel).
          exists new, v'. split; [done|]. split; [set_solver|]. split; [set_solver|].
          left. destruct Hdel as [Hdel|Hdel]; [set_solver|].
          rewrite !elem_of_app. right. left. do 2 right.
          apply two_step_flush_deletes. set_solver.
        * apply list_elem_of_singleton in Hin as ->. exists newKey, v.
          split; [done|]. split; [set_solver|]. split; [set_solver|]. left.
          rewrite !elem_of_app. right. left. do 2 right.
          apply two_step_flush_deletes. set_solver.
      + destruct Hf as (-> & _ & ->). cbn [swapped toDelete].
        split; [done|]. intros k Hin. apply elem_of_app in Hin as [Hin|Hin].
        * destruct (Hk k Hin) as (new & v' & Hcand & Hget & Hput & Hdel).
          exists new, v'. split; [done|]. split; [set_solver|]. split; [set_solver|].
          destruct Hdel as [Hdel|Hdel]; [left|right]; set_solver.
        * apply list_elem_of_singleton in Hin as ->. exists newKey, v.
          split; [done|]. split; [set_solver|]. split; [set_solver|]. right. set_solver.
    - unfold I. cbn. split; [done|]. split; [lia|]. intros _.
      split; [constructor|]. split; [done|]. intros k Hk. by apply elem_of_nil in Hk. }
  destruct HI as (Hp & Hb & Hz). cbn [fst snd app] in *.
  apply emits_finalSync in H3 as (tf & err & r2 & Hf & -> & -> & Hcnt).
  symmetry in Hcnt. apply counted_zero in Hcnt as [Hcnt ->].
  2:{ pose proof (counted_bounds errored err). lia. }
  apply counted_zero in Hcnt as [-> ->]; [|lia].
  destruct (Hz eq_refl) as (Hres & Hsw & Hk). rewrite Hp in Hf.
  apply flush_trace_all_ok in Hf as ->.
  split; [done|]. split; [done|]. intros k Hin.
  destruct (Hk k Hin) as (new & v & Hcand & Hget & Hput & Hdel).
  exists new, v. split; [done|]. split; [set_solver|]. split; [set_solver|].
  destruct Hdel as [Hdel|Hdel]; [set_solver|].
  rewrite !elem_of_app. right. left. by apply two_step_flush_deletes.
Qed.

Lemma received_cover {A} (n : nat) (deal : list nat) (ch : list A) (x : A) :
  (0 < n)%nat → x ∈ ch → ∃ w, (w < n)%nat ∧ x ∈ received n w deal ch.
Proof.
  intros Hn. revert deal. induction ch as [|y ch IH]; intros deal Hx.
  - by apply elem_of_nil in Hx.
  - apply elem_of_cons in Hx as [->|Hx].
    + exists (hd 0 deal mod n)%nat. split; [apply Nat.mod_upper_bound; lia|].
      cbn [received]. rewrite decide_True by done. set_solver.
    + destruct (IH (tl deal) Hx) as (w & Hw & Hin). exists w. split; [done|].
      cbn [received]. set_solver.
Qed.

Lemma length_join_map {A B} (g : A → list B) (l : list A) :
  Z.of_nat (length (mjoin (map g l))) = sum_list ((λ x, Z.of_nat (length (g x))) <$> l).
Proof.
  induction l as [|x l IH]; [done|]. cbn. rewrite length_app, Nat2Z.inj_add.
  unfold sum_list in *. cbn [foldr]. rewrite <- IH. done.
Qed.

Lemma u64_sum_list_u64 {A} (f : A → Z) (l : list A) :
  u64 (sum_list ((λ x, u64 (f x)) <$> l)) = u64 (sum_list (f <$> l)).
Proof.
  induction l as [|x l IH]; [done|]. unfold sum_list in *. cbn [fmap list_fmap foldr].
  rewrite u64_add_l, <- u64_add_r, IH, u64_add_r. done.
Qed.

(** The counts of workers that each return the number of candidates they
    received add up to the number of candidates. *)
Lemma total_of_counts (N : nat) (deal : list nat) (resultsCh : list Result)
    (rs : list (Z * Z)) :
  (0 < N)%nat → length rs = N →
  (∀ w, (w < N)%nat →
     ∃ e, rs !! w = Some (u64 (Z.of_nat (length (candidates
                            (received N w deal resultsCh)))), e)) →
  u64 (sum_list (fst <$> rs)) = u64 (Z.of_nat (length (candidates resultsCh))).
Proof.
  intros Hn Hlen Hall.
  assert (Hfst : fst <$> rs
                 = (λ w, u64 (Z.of_nat (length (candidates
                      (received N w deal resultsCh))))) <$> seq 0 N).
  { apply list_eq. intros w. rewrite !list_lookup_fmap.
    destruct (decide (w < N)%nat) as [Hw|Hw].
    - destruct (Hall w Hw) as (e & ->). by rewrite lookup_seq_lt.
    - rewrite (lookup_ge_None_2 rs) by lia. rewrite lookup_seq_ge by lia. done. }
  rewrite Hfst, u64_sum_list_u64. f_equal.
  rewrite <- (length_join_map (λ w, candidates (received N w deal resultsCh))).
  f_equal. apply Permutation_length. unfold candidates. by apply received_omap_perm.
Qed.

Context {S : Type} `{!Batching S}.
Variable NWorkers : nat.

(** X3. On every datastore, whichever worker gets which result and however the
    workers interleave: when a run of at least one worker that is not a dry
    run returns no error, and the results are few enough for the error
    counters not to wrap, then no result of the query carried an error, every
    candidate key among them was read, written with success under the key it
    is swapped for and deleted with success, all by one worker, and the count
    returned is the number of candidates. *)
Theorem Run_success_is_complete (cswap : CidSwapper) (deal sched : list nat) (s : S)
    (resultsCh : list Result) :
  (0 < NWorkers)%nat →
  (ds_Query (Prefix cswap) s).1 = inl resultsCh →
  Z.of_nat NWorkers * (Z.of_nat (length resultsCh) + 2) < 2 ^ 64 →
  let '(total, err, _, tr) := Run SyncSize NWorkers cswap false deal sched s in
  err = None →
  Forall (λ res, res_Error res = None) resultsCh
  ∧ total = u64 (Z.of_nat (length (candidates resultsCh)))
  ∧ ∀ k, k ∈ candidates resultsCh → ∃ w, swapped_ok (trace_of w tr) k.
Proof.
  intros Hn Hq Hsmall. unfold Run.
  destruct (ds_Query (Prefix cswap) s) as [[resultsCh'|e] s0]; cbn [fst] in Hq; [|done].
  injection Hq as ->. unfold runWorkers.
  destruct (pool_exec sched _ s0) as [[rs s'] tr] eqn:Hexec.
  apply pool_exec_project in Hexec as [Hlen Hproj].
  rewrite length_map, length_seq in Hlen.
  assert (Hworker : ∀ w, (w < NWorkers)%nat → ∃ n e, rs !! w = Some (n, e) ∧
            emits (swapWorker_run SyncSize cswap false
                     (received NWorkers w deal resultsCh)) (trace_of w tr) (n, e)).
  { intros w Hw. edestruct (Hproj w) as ([n e] & Ha & Hem).
    { rewrite list_lookup_fmap, lookup_seq_lt by done. reflexivity. }
    eauto. }
  assert (Hgot : ∀ w, Z.of_nat (length (received NWorkers w deal resultsCh)) + 2 < 2 ^ 64).
  { intros w. pose proof (received_length NWorkers w deal resultsCh). nia. }
  assert (Herr : Forall (λ r : Z * Z, 0 ≤ r.2 ≤ Z.of_nat (length resultsCh) + 2) rs).
  { apply Forall_lookup. intros w [n e] Hw.
    assert (Hlt : (w < NWorkers)%nat) by (rewrite <- Hlen; by eapply lookup_lt_Some).
    destruct (Hworker w Hlt) as (n' & e' & Hw' & Hem). rewrite Hw in Hw'.
    injection Hw' as <- <-. apply swapWorker_run_counts in Hem as [Hb _]. cbn.
    pose proof (received_length NWorkers w deal resultsCh). lia. }
  pose proof (fold_u64_sum fst rs 0) as Htotal.
  pose proof (fold_u64_sum snd rs 0) as Hnerr.
  change (u64 0) with 0 in Htotal, Hnerr. rewrite Z.add_0_l in Htotal, Hnerr.
  rewrite Htotal, Hnerr.
  pose proof (sum_list_bounds snd rs _ Herr) as [Hb Hiff].
  rewrite (u64_small (sum_list (snd <$> rs))) by (rewrite Hlen in Hb; lia).
  destruct (0 <? sum_list (snd <$> rs)) eqn:Hpos; [done|]. intros _.
  apply Z.ltb_ge in Hpos.
  assert (Hzero : ∀ w n e, rs !! w = Some (n, e) → e = 0).
  { intros w n e Hw. destruct (decide (0 < e)) as [Hlt|Hge].
    - assert (Hex : Exists (λ r : Z * Z, 0 < r.2) rs).
      { apply Exists_exists. exists (n, e). split; [by eapply list_elem_of_lookup_2|done]. }
      apply Hiff in Hex. lia.
    - rewrite Forall_lookup in Herr. specialize (Herr w (n, e) Hw). cbn in Herr. lia. }
  assert (Hdone : ∀ w, (w < NWorkers)%nat →
            ∃ n, rs !! w = Some (n, 0)
                 ∧ Forall (λ res, res_Error res = None) (received NWorkers w deal resultsCh)
                 ∧ n = u64 (Z.of_nat (length (candidates (received NWorkers w deal resultsCh))))
                 ∧ ∀ k, k ∈ candidates (received NWorkers w deal resultsCh) →
                        swapped_ok (trace_of w tr) k).
  { intros w Hw. destruct (Hworker w Hw) as (n & e & Hrs & Hem).
    pose proof (Hzero w n e Hrs) as ->. exists n. split; [done|].
    by apply swapWorker_run_complete in Hem. }
  split; [|split].
  - apply Forall_forall. intros res Hres.
    destruct (received_cover NWorkers deal resultsCh res Hn Hres) as (w & Hw & Hin).
    destruct (Hdone w Hw) as (n & _ & Hall & _). rewrite Forall_forall in Hall. auto.
  - apply (total_of_counts NWorkers deal resultsCh rs Hn Hlen).
    intros w Hw. destruct (Hdone w Hw) as (n & -> & _ & -> & _). eauto.
  - intros k Hk. apply candidates_elem in Hk as (res & Hres & He & Hkey & Hc).
    destruct (received_cover NWorkers deal resultsCh res Hn Hres) as (w & Hw & Hin).
    destruct (Hdone w Hw) as (n & _ & _ & _ & Hok). exists w. apply Hok.
    apply candidates_elem. by exists res.
Qed.

End Complete.

Lemma Run_success_is_complete_witness :
  let '(total, err, _, tr) :=
    Run Sample.syncSize 2 Sample.cswap false [0; 1; 1]%nat [1; 0; 0; 1]%nat
      Sample.store_collapse in
  err = None ∧ total = 2
  ∧ (∃ w, swapped_ok (trace_of w tr) Sample.A)
  ∧ (∃ w, swapped_ok (trace_of w tr) Sample.B).
Proof.
  assert (Hq : ∃ resultsCh,
             (ds_Query (Prefix Sample.cswap) Sample.store_collapse).1 = inl resultsCh
             ∧ length resultsCh = 3%nat
             ∧ candidates resultsCh = [Sample.B; Sample.A])
    by (eexists; split; [|split]; vm_compute; reflexivity).
  destruct Hq as (resultsCh & Hq & Hlen & Hcands).
  assert (Hsmall : Z.of_nat 2 * (Z.of_nat (length resultsCh) + 2) < 2 ^ 64)
    by (rewrite Hlen; reflexivity).
  pose proof (Run_success_is_complete Sample.syncSize 2 Sample.cswap [0; 1; 1]%nat
                [1; 0; 0; 1]%nat Sample.store_collapse resultsCh
                ltac:(lia) Hq Hsmall) as Hw.
  assert (Herr : (Run Sample.syncSize 2 Sample.cswap false [0; 1; 1]%nat
                    [1; 0; 0; 1]%nat Sample.store_collapse).1.1.2 = None)
    by (vm_compute; reflexivity).
  revert Hw Herr.
  destruct (Run _ _ _ _ _ _ _) as [[[total err] s'] tr]. cbn [fst snd].
  intros Hw Herr. destruct (Hw Herr) as (_ & Htotal & Hk). rewrite Hcands in Htotal, Hk.
  split; [exact Herr|]. split; [exact Htotal|].
  split; apply Hk; [right; left|left].
Defined.

(** ** Dry runs and runs without workers *)

Section PoolStore.
Context {S : Type} `{!Batching S} {A : Type}.

(** A pool that only sends leaves the store as it is. *)
Lemma pool_exec_quiet_store (sched : list nat) (pool : list (prog A)) (s s' : S)
    (rs : list A) (tr : list (nat * event)) :
  pool_exec sched pool s = (rs, s', tr) →
  Forall (λ ie, is_request ie.2 = false) tr → s' = s.
Proof.
  intros Hexec. apply pool_exec_reach in Hexec.
  pose (I := λ st : @pool_state S A,
    Forall (λ ie, is_request ie.2 = false) st.2 → st.1.2 = s).
  assert (HI : I (map Ret rs, s', tr)); [|exact HI].
  eapply (reach_inv I); [|exact Hexec|done].
  intros pool1 s1 tr1 i p p' s2 e HI Hp Hstep Hall. unfold I in *. cbn [fst snd] in *.
  apply Forall_app in Hall as [Hall He]. rewrite Forall_singleton in He. cbn in He.
  rewrite <- (HI Hall). destruct p as [a|k c|k v c|k c|q c|sw c]; simpl in Hstep.
  - done.
  - destruct (ds_Get k s1). simplify_eq/=.
  - destruct (ds_Put k v s1). simplify_eq/=.
  - destruct (ds_Delete k s1). simplify_eq/=.
  - destruct (ds_Sync q s1). simplify_eq/=.
  - by simplify_eq/=.
Qed.

(** What the goroutines did, one after the other, is what the pool did, up
    to the order. *)
Lemma trace_of_join_perm {B} (f : event → option B) (n : nat) (tr : list (nat * event)) :
  Forall (λ ie, (ie.1 < n)%nat) tr →
  omap (λ ie, f ie.2) tr ≡ₚ mjoin (map (λ w, omap f (trace_of w tr)) (seq 0 n)).
Proof.
  induction 1 as [|[i e] tr Hi Htr IH].
  - cbn. clear. generalize 0%nat. induction n as [|n IHn]; intros a; [done|]. cbn. apply IHn.
  - cbn [omap list_omap snd]. cbn [fst] in Hi.
    assert (Heq : map (λ w, omap f (trace_of w ((i, e) :: tr))) (seq 0 n)
                  = map (λ w, (if decide (i = w) then omap f [e] else [])
                              ++ omap f (trace_of w tr)) (seq 0 n)).
    { apply map_ext. intros w. unfold trace_of. cbn [omap list_omap fst snd].
      destruct (decide (i = w)); [|done]. cbn. by destruct (f e). }
    rewrite Heq, join_map_app_perm, join_map_single, decide_True by lia.
    fold (omap (λ ie, f ie.2) tr). rewrite <- IH. cbn. by destruct (f e).
Qed.

End PoolStore.

Lemma join_map_fmap {A B C} (g : B → C) (a : A → list B) (l : list A) :
  mjoin (map (λ w, g <$> a w) l) = g <$> mjoin (map a l).
Proof.
  induction l as [|x l IH]; [done|]. cbn [map].
  change (mjoin (?x :: ?l)) with (x ++ mjoin l). by rewrite IH, fmap_app.
Qed.

Lemma join_map_nil {A B} (l : list A) : mjoin (map (λ _, @nil B) l) = [].
Proof. by induction l. Qed.

Section DryRun.
Context `{KeyCodec}.
Variable SyncSize : Z.

Lemma swap_of_candidate (k n : Key) : candidate k = Some n → swap_of k = mkSwap k n.
Proof. unfold swap_of. by intros ->. Qed.

(** What a forward worker does in a dry run: it sends the swap of every
    candidate it receives, in order, and counts them. *)
Lemma swapWorker_run_dry (cswap : CidSwapper) (got : list Result) (t : list event)
    (n e : Z) :
  emits (swapWorker_run SyncSize cswap true got) t (n, e) →
  t = (if SwapCh cswap then (λ k, ENotify (swap_of k)) <$> candidates got else [])
  ∧ n = u64 (Z.of_nat (length (candidates got))).
Proof.
  unfold swapWorker_run. intros Hr.
  apply emits_bind in Hr as (t1 & [sw errored] & t2 & H1 & H2 & ->).
  apply emits_bind in H2 as (t3 & [sw' errored'] & t4 & H3 & H4 & ->).
  apply emits_ret in H4 as [-> Heq]. injection Heq as -> ->.
  apply emits_ret in H3 as [-> Heq]. injection Heq as -> ->. rewrite !app_nil_r.
  pose (I := λ (seen : list Result) (h : list event) (st : swapWorker * Z),
    h = (if SwapCh cswap then (λ k, ENotify (swap_of k)) <$> candidates seen else [])
    ∧ swapped st.1 = u64 (Z.of_nat (length (candidates seen)))).
  assert (HI : I ([] ++ got) ([] ++ t1) (sw, errored)); [|exact HI].
  eapply (forEach_emits_ind (swapStep SyncSize cswap true) I); [| |exact H1].
  - intros seen res h [sw0 e0] t [sw1 e1] [Hh Hsw] Hstep.
    apply emits_swapStep in Hstep. unfold I in *. cbn [fst snd] in *.
    rewrite candidates_snoc. unfold swapStep_outcome in Hstep.
    destruct (res_Error res).
    { destruct Hstep as (-> & -> & ->). by rewrite !app_nil_r. }
    destruct (candidate _) as [newKey|] eqn:Hc.
    2:{ destruct Hstep as (-> & -> & ->). by rewrite !app_nil_r. }
    destruct Hstep as (-> & -> & ->). split.
    + rewrite Hh. destruct (SwapCh cswap); [|done].
      rewrite fmap_app. cbn [fmap list_fmap]. by rewrite (swap_of_candidate _ _ Hc).
    + cbn [one_more swapped]. rewrite Hsw, u64_add_l, length_app. cbn [length].
      f_equal. lia.
  - unfold I. cbn. by destruct (SwapCh cswap).
Qed.

Context {S : Type} `{!Batching S}.
Variable NWorkers : nat.

(** What a dry run does, on every datastore. *)
Lemma Run_dry_facts (cswap : CidSwapper) (deal sched : list nat) (s s0 s' : S)
    (resultsCh : list Result) (total : Z) (err : option error)
    (tr : list (nat * event)) :
  ds_Query (Prefix cswap) s = (inl resultsCh, s0) →
  Run SyncSize NWorkers cswap true deal sched s = (total, err, s', tr) →
  s' = s0
  ∧ Forall (λ ie, is_request ie.2 = false) tr
  ∧ ((0 < NWorkers)%nat →
     total = u64 (Z.of_nat (length (candidates resultsCh)))
     ∧ notified tr ≡ₚ (if SwapCh cswap then swap_of <$> candidates resultsCh else [])).
Proof.
  intros Hq HRun.
  pose proof (Run_dry_quiet _ _ _ _ _ _ _ _ _ HRun) as Hquiet.
  unfold Run in HRun. rewrite Hq in HRun. unfold runWorkers in HRun.
  destruct (pool_exec sched _ s0) as [[rs s1] tr1] eqn:Hexec.
  assert (Heq : total = fold_left (λ acc r, u64 (acc + r.1)) rs 0 ∧ s' = s1 ∧ tr = tr1)
    by (destruct (0 <? _); by simplify_eq).
  clear HRun. destruct Heq as (-> & <- & <-).
  split; [by eapply pool_exec_quiet_store|]. split; [done|]. intros Hn.
  pose proof (pool_exec_indices _ _ _ _ _ _ Hexec) as Hidx.
  rewrite length_map, length_seq in Hidx.
  apply pool_exec_project in Hexec as [Hlen Hproj].
  rewrite length_map, length_seq in Hlen.
  assert (Hworker : ∀ w, (w < NWorkers)%nat →
            ∃ e, rs !! w = Some (u64 (Z.of_nat (length (candidates
                                   (received NWorkers w deal resultsCh)))), e)
                 ∧ trace_of w tr = (if SwapCh cswap
                      then (λ k, ENotify (swap_of k)) <$> candidates
                             (received NWorkers w deal resultsCh)
                      else [])).
  { intros w Hw. edestruct (Hproj w) as ([n e] & Ha & Hem).
    { rewrite list_lookup_fmap, lookup_seq_lt by done. reflexivity. }
    apply swapWorker_run_dry in Hem as [Ht ->]. eauto. }
  split.
  - pose proof (fold_u64_sum fst rs 0) as Htotal.
    change (u64 0) with 0 in Htotal. rewrite Z.add_0_l in Htotal. rewrite Htotal.
    apply (total_of_counts NWorkers deal resultsCh rs Hn Hlen).
    intros w Hw. destruct (Hworker w Hw) as (e & -> & _). eauto.
  - unfold notified.
    rewrite (trace_of_join_perm (λ e, match e with ENotify sw => Some sw | _ => None end)
               NWorkers tr Hidx).
    assert (Hmap : map (λ w, omap (λ e, match e with ENotify sw => Some sw | _ => None end)
                               (trace_of w tr)) (seq 0 NWorkers)
                   = map (λ w, if SwapCh cswap
                               then swap_of <$> candidates (received NWorkers w deal resultsCh)
                               else []) (seq 0 NWorkers)).
    { apply map_ext_in. intros w Hw. apply in_seq in Hw.
      destruct (Hworker w) as (e & _ & ->); [lia|].
      destruct (SwapCh cswap); [|done].
      induction (candidates _) as [|k l IH]; [done|]. cbn. by rewrite IH. }
    rewrite Hmap. destruct (SwapCh cswap).
    + rewrite join_map_fmap. apply fmap_Permutation.
      unfold candidates. by apply received_omap_perm.
    + by rewrite join_map_nil.
Qed.

(** X4. On every datastore, whichever worker gets which result and however the
    workers interleave: a dry run makes no request of the store after its
    query and leaves the store as the query left it; and with at least one
    worker it returns the number of candidate keys among the results and,
    when the swapper has a channel, sends the swap of each of them once. *)
Theorem Run_dry_run (cswap : CidSwapper) (deal sched : list nat) (s : S) :
  let '(total, _, s', tr) := Run SyncSize NWorkers cswap true deal sched s in
  match ds_Query (Prefix cswap) s with
  | (inr _, s0) => s' = s0 ∧ tr = []
  | (inl resultsCh, s0) =>
      s' = s0
      ∧ Forall (λ ie, is_request ie.2 = false) tr
      ∧ ((0 < NWorkers)%nat →
         total = u64 (Z.of_nat (length (candidates resultsCh)))
         ∧ notified tr ≡ₚ (if SwapCh cswap then swap_of <$> candidates resultsCh else []))
  end.
Proof.
  destruct (Run _ _ _ _ _ _ s) as [[[total err] s'] tr] eqn:HRun.
  destruct (ds_Query (Prefix cswap) s) as [[resultsCh|e] s0] eqn:Hq.
  - by eapply Run_dry_facts.
  - unfold Run in HRun. rewrite Hq in HRun. by simplify_eq.
Qed.

(** X5. With no worker, [Run] only makes its query: it returns 0 and no error
    (the error of the query when it fails), whatever is in the store. *)
Theorem Run_no_workers (cswap : CidSwapper) (dryRun : bool) (deal sched : list nat)
    (s : S) :
  Run SyncSize 0 cswap dryRun deal sched s =
  match ds_Query (Prefix cswap) s with
  | (inr err, s') => (0, Some err, s', [])
  | (inl _, s') => (0, None, s', [])
  end.
Proof.
  unfold Run. destruct (ds_Query (Prefix cswap) s) as [[resultsCh|e] s0]; [|done].
  unfold runWorkers. cbn [seq map]. by rewrite pool_exec_nil.
Qed.

End DryRun.

(** ** Errors and their causes *)

Section Causes.
Context `{KeyCodec}.
Variable SyncSize : Z.

Lemma counted_pos (errored : Z) (err : option error) :
  0 ≤ errored < 2 ^ 64 - 1 → (0 < counted errored err ↔ 0 < errored ∨ is_Some err).
Proof.
  intros Hb. destruct err as [e|]; simpl.
  - rewrite u64_small by lia. split; [intros _; right; eauto|lia].
  - split; [by left|]. intros [Hpos|[? [=]]]. done.
Qed.

Lemma deletes_trace_failed (keys : list Key) (t : list event) (r : option error) :
  deletes_trace keys t r → (is_Some r ↔ Exists (λ e, event_failed e = true) t).
Proof.
  induction 1 as [|k keys e|k keys t r Hd IH].
  - split; [by intros [? [=]]|by intros ?%Exists_nil].
  - split; [intros _; by left|eauto].
  - rewrite IH, Exists_cons. cbn. split; [by right|]. by intros [[=]|?].
Qed.

Lemma flush_trace_failed (p : Key) (keys : list Key) (t : list event) (r : option error) :
  flush_trace p keys t r → (is_Some r ↔ Exists (λ e, event_failed e = true) t).
Proof.
  intros [e|td r' Hd].
  - split; [intros _; by left|eauto].
  - rewrite (deletes_trace_failed _ _ _ Hd), Exists_cons. cbn.
    split; [by right|]. by intros [[=]|?].
Qed.

Lemma swap_outcome_failed (sw : swapWorker) (old new : Key) (t : list event)
    (sw' : swapWorker) (err : option error) :
  swap_outcome SyncSize sw old new t sw' err →
  (is_Some err ↔ Exists (λ e, event_failed e = true) t).
Proof.
  intros [(e & -> & _ & ->)|[(v & e & -> & _ & ->)|(v & tf & -> & Hf)]].
  - split; [intros _; by left|eauto].
  - split; [intros _; right; by left|eauto].
  - rewrite !Exists_cons. cbn. cbv zeta in Hf. destruct (SyncSize <=? _).
    + destruct Hf as [Hf _]. rewrite (flush_trace_failed _ _ _ _ Hf). naive_solver.
    + destruct Hf as (-> & -> & _). rewrite Exists_nil. split; [by intros [? [=]]|].
      naive_solver.
Qed.

(** A forward worker counts an error exactly when a result it received
    carried an error or a request it made failed. *)
Lemma swapWorker_run_errors (cswap : CidSwapper) (dryRun : bool) (got : list Result)
    (t : list event) (n e : Z) :
  Z.of_nat (length got) + 2 < 2 ^ 64 →
  emits (swapWorker_run SyncSize cswap dryRun got) t (n, e) →
  0 < e ↔ Exists (λ res, is_Some (res_Error res)) got
          ∨ Exists (λ e, event_failed e = true) t.
Proof.
  intros Hbound. unfold swapWorker_run. intros Hr.
  apply emits_bind in Hr as (t1 & [sw errored] & t2 & H1 & H2 & ->).
  apply emits_bind in H2 as (t3 & [sw' errored'] & t4 & H3 & H4 & ->).
  apply emits_ret in H4 as [-> Heq]. injection Heq as -> ->. rewrite app_nil_r.
  pose (I := λ (seen : list Result) (h : list event) (st : swapWorker * Z),
    0 ≤ st.2 ≤ Z.of_nat (length seen)
    ∧ (0 < st.2 ↔ Exists (λ res, is_Some (res_Error res)) seen
                   ∨ Exists (λ e, event_failed e = true) h)).
  assert (HI : I got ([] ++ t1) (sw, errored)).
  { eapply (forEach_emits_prefix (swapStep SyncSize cswap dryRun) I got); [| |exact H1].
    - intros seen res rest h [sw0 e0] t [sw1 e1] Hgot [Hb Hiff] Hstep.
      apply emits_swapStep in Hstep. unfold I in *. cbn [fst snd] in *.
      assert (Hlen : Z.of_nat (length seen) + 1 ≤ Z.of_nat (length got)).
      { rewrite Hgot, length_app. cbn [length]. lia. }
      rewrite length_app, !Exists_app, Exists_cons, Exists_nil. cbn [length].
      assert (Hstep' : ∃ err : option error,
                 e1 = counted e0 err
                 ∧ (is_Some err ↔ is_Some (res_Error res)
                                  ∨ Exists (λ e, event_failed e = true) t)).
      { unfold swapStep_outcome in Hstep. destruct (res_Error res) as [e|] eqn:He.
        { destruct Hstep as (-> & _ & ->). exists (Some e). split; [done|].
          split; [by left|eauto]. }
        assert (Hno : ¬ is_Some (@None error)) by (by intros [? [=]]).
        destruct (candidate _) as [newKey|].
        2:{ destruct Hstep as (-> & _ & ->). exists None. split; [done|].
            rewrite Exists_nil. tauto. }
        assert (Hsent : ¬ Exists (λ e, event_failed e = true)
                          (if SwapCh cswap
                           then [ENotify (mkSwap (NewKey (res_Key res)) newKey)] else [])).
        { destruct (SwapCh cswap); [|by intros ?%Exists_nil].
          rewrite Exists_cons, Exists_nil. cbn. by intros [[=]|[]]. }
        destruct dryRun.
        { destruct Hstep as (-> & _ & ->). exists None. split; [done|]. tauto. }
        destruct Hstep as (t0 & err & Hs & -> & ->). exists err. split; [done|].
        rewrite (swap_outcome_failed _ _ _ _ _ _ Hs), Exists_app.
        destruct err; [rewrite Exists_nil|]; tauto. }
      destruct Hstep' as (err & -> & Herr).
      split; [pose proof (counted_bounds e0 err); lia|].
      rewrite counted_pos by lia. tauto.
    - unfold I. cbn. split; [lia|]. rewrite !Exists_nil. lia. }
  destruct HI as [Hb Hiff]. cbn [fst snd app] in *. rewrite Exists_app.
  destruct dryRun.
  - apply emits_ret in H3 as [-> Heq]. injection Heq as -> ->.
    rewrite Exists_nil. tauto.
  - apply emits_finalSync in H3 as (tf & err & r2 & Hf & -> & _ & ->).
    pose proof (counted_bounds errored err).
    rewrite !counted_pos by lia. rewrite (flush_trace_failed _ _ _ _ Hf).
    rewrite Exists_app, Exists_cons, Exists_nil.
    assert (Hr2 : is_Some r2 ↔ event_failed (ESync (syncPrefix sw) r2) = true).
    { destruct r2; cbn; split; eauto; by intros [? [=]] || done. }
    tauto.
Qed.

Context {S : Type} `{!Batching S}.
Variable NWorkers : nat.

(** X6. On every datastore, whichever worker gets which result and however the
    workers interleave, in a dry run or not, with at least one worker and
    results few enough for the error counters not to wrap: [Run] returns the
    error of the query when the query fails; otherwise it returns an error
    exactly when a result of the query carried an error or a request of a
    worker failed. *)
Theorem Run_error_iff_failure (cswap : CidSwapper) (dryRun : bool)
    (deal sched : list nat) (s : S) :
  (0 < NWorkers)%nat →
  let '(_, err, _, tr) := Run SyncSize NWorkers cswap dryRun deal sched s in
  match (ds_Query (Prefix cswap) s).1 with
  | inr e => err = Some e
  | inl resultsCh =>
      Z.of_nat NWorkers * (Z.of_nat (length resultsCh) + 2) < 2 ^ 64 →
      err ≠ None ↔ Exists (λ res, is_Some (res_Error res)) resultsCh
                   ∨ Exists (λ ie, event_failed ie.2 = true) tr
  end.
Proof.
  intros Hn. unfold Run.
  destruct (ds_Query (Prefix cswap) s) as [[resultsCh|e] s0]; cbn [fst]; [|done].
  unfold runWorkers.
  destruct (pool_exec sched _ s0) as [[rs s'] tr] eqn:Hexec.
  pose proof (pool_exec_indices _ _ _ _ _ _ Hexec) as Hidx.
  rewrite length_map, length_seq in Hidx.
  apply pool_exec_project in Hexec as [Hlen Hproj].
  rewrite length_map, length_seq in Hlen.
  assert (Hgoal : Z.of_nat NWorkers * (Z.of_nat (length resultsCh) + 2) < 2 ^ 64 →
            (0 <? fold_left (λ acc r, u64 (acc + r.2)) rs 0) = true
            ↔ Exists (λ res, is_Some (res_Error res)) resultsCh
              ∨ Exists (λ ie, event_failed ie.2 = true) tr).
  { intros Hsmall.
    assert (Hworker : ∀ w, (w < NWorkers)%nat → ∃ n e, rs !! w = Some (n, e) ∧
              emits (swapWorker_run SyncSize cswap dryRun
                       (received NWorkers w deal resultsCh)) (trace_of w tr) (n, e)).
    { intros w Hw. edestruct (Hproj w) as ([n e] & Ha & Hem).
      { rewrite list_lookup_fmap, lookup_seq_lt by done. reflexivity. }
      eauto. }
    assert (Hgot : ∀ w, Z.of_nat (length (received NWorkers w deal resultsCh)) + 2 < 2 ^ 64).
    { intros w. pose proof (received_length NWorkers w deal resultsCh). nia. }
    assert (Herr : Forall (λ r : Z * Z, 0 ≤ r.2 ≤ Z.of_nat (length resultsCh) + 2) rs).
    { apply Forall_lookup. intros w [n e] Hw.
      assert (Hlt : (w < NWorkers)%nat) by (rewrite <- Hlen; by eapply lookup_lt_Some).
      destruct (Hworker w Hlt) as (n' & e' & Hw' & Hem). rewrite Hw in Hw'.
      injection Hw' as <- <-. apply swapWorker_run_counts in Hem as [Hb _]. cbn.
      pose proof (received_length NWorkers w deal resultsCh). lia. }
    pose proof (fold_u64_sum snd rs 0) as Hnerr.
    change (u64 0) with 0 in Hnerr. rewrite Z.add_0_l in Hnerr. rewrite Hnerr.
    pose proof (sum_list_bounds snd rs _ Herr) as [Hb Hiff].
    rewrite (u64_small (sum_list (snd <$> rs))) by (rewrite Hlen in Hb; lia).
    rewrite Z.ltb_lt, Hiff, Exists_exists. split.
    - intros ([n e] & Hin & Hpos). cbn in Hpos.
      apply list_elem_of_lookup in Hin as [w Hw].
      assert (Hlt : (w < NWorkers)%nat) by (rewrite <- Hlen; by eapply lookup_lt_Some).
      destruct (Hworker w Hlt) as (n' & e' & Hw' & Hem). rewrite Hw in Hw'.
      injection Hw' as <- <-.
      apply swapWorker_run_errors in Hem; [|done]. apply Hem in Hpos as [Hres|Hev].
      + left. apply Exists_exists in Hres as (res & Hres & He). apply Exists_exists.
        exists res. split; [by eapply received_elem|done].
      + right. apply Exists_exists in Hev as (ev & Hev & He). apply Exists_exists.
        unfold trace_of in Hev. apply list_elem_of_omap in Hev as ([i ev'] & Hin & Hsome).
        cbn in Hsome. destruct (decide (i = w)); [|done]. injection Hsome as ->.
        by exists (i, ev).
    - intros [Hres|Hev].
      + apply Exists_exists in Hres as (res & Hres & He).
        destruct (received_cover NWorkers deal resultsCh res Hn Hres) as (w & Hw & Hin).
        destruct (Hworker w Hw) as (n & e & Hrs & Hem).
        exists (n, e). split; [by eapply list_elem_of_lookup_2|]. cbn.
        apply swapWorker_run_errors in Hem; [|done]. apply Hem. left.
        apply Exists_exists. by exists res.
      + apply Exists_exists in Hev as ([i ev] & Hin & He). cbn in He.
        rewrite Forall_forall in Hidx. pose proof (Hidx _ Hin) as Hi. cbn in Hi.
        destruct (Hworker i Hi) as (n & e & Hrs & Hem).
        exists (n, e). split; [by eapply list_elem_of_lookup_2|]. cbn.
        apply swapWorker_run_errors in Hem; [|done]. apply Hem. right.
        apply Exists_exists. exists ev. split; [|done]. unfold trace_of.
        apply list_elem_of_omap. exists (i, ev). split; [done|]. cbn.
        by rewrite decide_True. }
  destruct (0 <? _) eqn:Hpos; intros Hsmall; specialize (Hgoal Hsmall).
  - split; [intros _; by apply Hgoal|done].
  - split; [done|]. intros Hc. apply Hgoal in Hc. done.
Qed.

End Causes.

Lemma Run_error_iff_failure_witness :
  let '(_, err, _, tr) :=
    Run Sample.syncSize 2 Sample.cswap false [] [] Sample.store_first_put_fails in
  err ≠ None ∧ Exists (λ ie, event_failed ie.2 = true) tr.
Proof.
  pose proof (Run_error_iff_failure Sample.syncSize 2 Sample.cswap false [] []
                Sample.store_first_put_fails ltac:(lia)) as Hw.
  assert (Hq : ∃ resultsCh,
             (ds_Query (Prefix Sample.cswap) Sample.store_first_put_fails).1
             = inl resultsCh
             ∧ length resultsCh = 3%nat
             ∧ Forall (λ res, res_Error res = None) resultsCh)
    by (eexists; split; [|split]; [vm_compute; reflexivity..|]; repeat constructor).
  destruct Hq as (resultsCh & Hq & Hlen & Hres).
  assert (Herr : (Run Sample.syncSize 2 Sample.cswap false [] []
                    Sample.store_first_put_fails).1.1.2 ≠ None)
    by (vm_compute; discriminate).
  rewrite Hq in Hw. revert Hw Herr.
  destruct (Run _ _ _ _ _ _ _) as [[[total err] s'] tr]. cbn [fst snd].
  intros Hw Herr. split; [exact Herr|].
  apply Hw in Herr as [Hex|Hex]; [|exact Hex|rewrite Hlen; reflexivity].
  apply Exists_exists in Hex as (res & Hin & [e He]).
  rewrite Forall_forall in Hres. rewrite (Hres res Hin) in He. discriminate.
Defined.

(** ** The runs on the in-memory datastore *)

Section Counts.
Context `{KeyCodec}.
Variable SyncSize : Z.

(** A forward worker none of whose results carried an error and none of
    whose requests failed counts no error and returns the number of
    candidates it received. *)
Lemma swapWorker_run_count_ok (cswap : CidSwapper) (dryRun : bool) (got : list Result)
    (t : list event) (n e : Z) :
  emits (swapWorker_run SyncSize cswap dryRun got) t (n, e) →
  Forall (λ res, res_Error res = None) got →
  Forall (λ ev, event_failed ev = false) t →
  n = u64 (Z.of_nat (length (candidates got))) ∧ e = 0.
Proof.
  unfold swapWorker_run. intros Hr Hgot Hok.
  apply emits_bind in Hr as (t1 & [sw errored] & t2 & H1 & H2 & ->).
  apply emits_bind in H2 as (t3 & [sw' errored'] & t4 & H3 & H4 & ->).
  apply emits_ret in H4 as [-> Heq]. injection Heq as -> ->. rewrite app_nil_r in Hok.
  apply Forall_app in Hok as [Hok1 Hok3].
  assert (Hnone : ∀ (err : option error) (l : list event),
            (is_Some err ↔ Exists (λ ev, event_failed ev = true) l) →
            Forall (λ ev, event_failed ev = false) l → err = None).
  { intros err l Hiff Hl. destruct err as [x|]; [|done].
    destruct Hiff as [Hiff _]. specialize (Hiff ltac:(eauto)).
    apply Exists_exists in Hiff as (ev & Hev & Hf). rewrite Forall_forall in Hl.
    rewrite (Hl ev Hev) in Hf. done. }
  pose (I := λ (seen : list Result) (h : list event) (st : swapWorker * Z),
    Forall (λ ev, event_failed ev = false) h →
    st.2 = 0 ∧ swapped st.1 = u64 (Z.of_nat (length (candidates seen)))).
  assert (HI : I got ([] ++ t1) (sw, errored)).
  { eapply (forEach_emits_prefix (swapStep SyncSize cswap dryRun) I got); [| |exact H1].
    - intros seen res rest h [sw0 e0] t [sw1 e1] Hg HIh Hstep Hall.
      apply Forall_app in Hall as [Hh Ht]. destruct (HIh Hh) as [He0 Hsw].
      cbn [fst snd] in *. subst e0.
      assert (Hres : res_Error res = None).
      { rewrite Forall_forall in Hgot. apply Hgot. rewrite Hg. set_solver. }
      apply emits_swapStep in Hstep. unfold swapStep_outcome in Hstep.
      rewrite candidates_snoc, Hres. rewrite Hres in Hstep.
      destruct (candidate _) as [newKey|].
      2:{ destruct Hstep as (_ & -> & ->). by rewrite app_nil_r. }
      assert (Hcount : u64 (swapped sw0 + 1)
                       = u64 (Z.of_nat (length (candidates seen ++ [NewKey (res_Key res)])))).
      { rewrite Hsw, u64_add_l, length_app. cbn [length]. f_equal. lia. }
      destruct dryRun.
      { by destruct Hstep as (_ & -> & ->). }
      destruct Hstep as (t0 & err & Hs & -> & ->).
      apply Forall_app in Ht as [Ht0 _].
      pose proof (Hnone _ _ (swap_outcome_failed _ _ _ _ _ _ _ Hs) Ht0) as ->.
      split; [done|].
      destruct Hs as [(e & _ & _ & [=])|[(v & e & _ & _ & [=])|(v & tf & _ & Hf)]].
      cbv zeta in Hf. destruct (SyncSize <=? _).
      + by destruct Hf as [_ ->].
      + by destruct Hf as (_ & _ & ->).
    - by intros _. }
  destruct (HI Hok1) as [He Hsw]. cbn [fst snd] in *. subst errored. destruct dryRun.
  - apply emits_ret in H3 as [-> Heq]. by injection Heq as -> ->.
  - apply emits_finalSync in H3 as (tf & err & r2 & Hf & -> & -> & ->).
    apply Forall_app in Hok3 as [Htf Hr2].
    pose proof (Hnone _ _ (flush_trace_failed _ _ _ _ Hf) Htf) as ->.
    rewrite Forall_singleton in Hr2. destruct r2; [done|]. done.
Qed.

Lemma event_fine_ok (s0 : gmap Key bytes) (cands : list Key) (e : event) :
  event_fine s0 cands e → event_failed e = false.
Proof.
  destruct e as [k r|k v r|k r|p r|sw]; simpl; [| | | |done].
  - by intros (_ & v & _ & ->).
  - by intros (-> & _).
  - by intros (-> & _).
  - by intros ->.
Qed.

Lemma swap_of_Old (l : list Swap) :
  Forall (λ sw, candidate (Old sw) = Some (New sw)) l → swap_of <$> (Old <$> l) = l.
Proof.
  induction 1 as [|[o m] l Hc Hl IH]; [done|]. cbn [fmap list_fmap Old New] in *.
  by rewrite IH, (swap_of_candidate o m Hc).
Qed.

Variable NWorkers : nat.

(** On the in-memory datastore, a pool of forward workers whose requests
    all succeed returns the number of candidates and no error. *)
Lemma runWorkers_count_ok (cswap : CidSwapper) (dryRun : bool) (deal sched : list nat)
    (resultsCh : list Result) (s0 s1 : gmap Key bytes) (total : Z) (err : option error)
    (tr : list (nat * event)) :
  (0 < NWorkers)%nat →
  Forall (λ res, res_Error res = None) resultsCh →
  runWorkers sched
    (map (λ w, swapWorker_run SyncSize cswap dryRun (received NWorkers w deal resultsCh))
         (seq 0 NWorkers)) s0 = (total, err, s1, tr) →
  Forall (λ ie, event_failed ie.2 = false) tr →
  total = u64 (Z.of_nat (length (candidates resultsCh))) ∧ err = None.
Proof.
  intros Hn Hres. unfold runWorkers.
  destruct (pool_exec sched _ s0) as [[rs s'] tr'] eqn:Hexec. intros Heq Hok.
  assert (Htr : tr' = tr) by (destruct (0 <? _); by simplify_eq). subst tr'.
  apply pool_exec_project in Hexec as [Hlen Hproj].
  rewrite length_map, length_seq in Hlen.
  assert (Hworker : ∀ w, (w < NWorkers)%nat →
            rs !! w = Some (u64 (Z.of_nat (length (candidates
                                   (received NWorkers w deal resultsCh)))), 0)).
  { intros w Hw. edestruct (Hproj w) as ([n e] & Ha & Hem).
    { rewrite list_lookup_fmap, lookup_seq_lt by done. reflexivity. }
    apply swapWorker_run_count_ok in Hem as [-> ->]; [done| |].
    - by apply received_sublist.
    - apply Forall_forall. intros ev Hev. unfold trace_of in Hev.
      apply list_elem_of_omap in Hev as ([i ev'] & Hin & Hsome). cbn in Hsome.
      destruct (decide (i = w)); [|done]. injection Hsome as ->.
      rewrite Forall_forall in Hok. exact (Hok _ Hin). }
  pose proof (fold_u64_sum fst rs 0) as Htotal.
  pose proof (fold_u64_sum snd rs 0) as Hnerr.
  change (u64 0) with 0 in Htotal, Hnerr. rewrite Z.add_0_l in Htotal, Hnerr.
  rewrite Htotal, Hnerr in Heq.
  rewrite (sum_list_zero snd) in Heq.
  2:{ apply Forall_lookup. intros w r Hw.
      assert (Hlt : (w < NWorkers)%nat) by (rewrite <- Hlen; by eapply lookup_lt_Some).
      rewrite (Hworker w Hlt) in Hw. by injection Hw as <-. }
  change (0 <? u64 0) with false in Heq. injection Heq as <- <- <-.
  split; [|done]. apply (total_of_counts NWorkers deal resultsCh rs Hn Hlen).
  intros w Hw. rewrite (Hworker w Hw). eauto.
Qed.

(** X7. On the in-memory datastore, for at least one worker, whichever worker
    gets which key and however the workers interleave: when the keys under
    the prefix are clean and no key a candidate is swapped for is itself a
    candidate of the store, the forward run returns the number of candidates
    and no error; the candidates are gone, every key a candidate is swapped
    for holds the value of a candidate swapped for it, every other key is as
    before; and with a channel the swap of every candidate is sent once. *)
Theorem Run_migrates (cswap : CidSwapper) (deal sched : list nat) (s0 : gmap Key bytes) :
  (0 < NWorkers)%nat →
  clean_keys (query_keys (Prefix cswap) s0) →
  (∀ k m, k ∈ query_keys (Prefix cswap) s0 → candidate k = Some m →
          m ∈ query_keys (Prefix cswap) s0 → candidate m = None) →
  let cands := filter (λ k, is_Some (candidate k)) (query_keys (Prefix cswap) s0) in
  let '(total, err, s1, tr) := Run SyncSize NWorkers cswap false deal sched s0 in
  total = u64 (Z.of_nat (length cands)) ∧ err = None
  ∧ migrated s0 cands s1
  ∧ (SwapCh cswap = true → notified tr ≡ₚ swap_of <$> cands).
Proof.
  intros Hn Hclean Hfinal cands.
  destruct (Run _ _ _ _ _ _ s0) as [[[total err] s1] tr] eqn:HRun.
  pose proof HRun as HRun'.
  apply Run_forward in HRun' as (_ & Hmig & Hfine & Hnot); [|done..].
  fold cands in Hmig, Hfine, Hnot.
  rewrite Run_map in HRun. apply runWorkers_count_ok in HRun as [-> ->]; [|done| |].
  - rewrite candidates_query by done. fold cands. split; [done|]. split; [done|].
    split; [done|]. intros Hch. rewrite <- (Hnot Hch).
    rewrite swap_of_Old; [done|].
    apply Forall_forall. intros sw Hsw. apply elem_of_notified in Hsw as [i Hin].
    rewrite Forall_forall in Hfine. by destruct (Hfine _ Hin) as [_ Hc].
  - apply Forall_forall. intros res Hres. by apply list_elem_of_fmap in Hres as (k & -> & _).
  - eapply Forall_impl; [exact Hfine|]. intros [i e]. apply event_fine_ok.
Qed.

End Counts.

Lemma Run_migrates_witness :
  let cands := filter (λ k, is_Some (candidate k))
                 (query_keys (Prefix Sample.cswap) Sample.store_collapse) in
  let '(total, err, s1, tr) :=
    Run Sample.syncSize 2 Sample.cswap false [0; 1; 1]%nat [1; 0; 0; 1]%nat
      Sample.store_collapse in
  total = u64 (Z.of_nat (length cands)) ∧ err = None
  ∧ migrated Sample.store_collapse cands s1
  ∧ (SwapCh Sample.cswap = true → notified tr ≡ₚ swap_of <$> cands).
Proof.
  apply (Run_migrates Sample.syncSize 2 Sample.cswap [0; 1; 1]%nat
           [1; 0; 0; 1]%nat Sample.store_collapse).
  - lia.
  - intros k Hk. vm_compute in Hk.
    repeat (apply elem_of_cons in Hk as [->|Hk]); try reflexivity.
    apply elem_of_nil in Hk. destruct Hk.
  - intros k m Hk Hc Hm. vm_compute in Hk, Hm.
    repeat (apply elem_of_cons in Hk as [->|Hk]); try (apply elem_of_nil in Hk; destruct Hk);
      vm_compute in Hc; try discriminate; injection Hc as <-;
      repeat (apply elem_of_cons in Hm as [Hm|Hm]); try (apply elem_of_nil in Hm; destruct Hm);
      discriminate.
Defined.

Section Frame.
Context {S : Type} `{!Batching S} {A : Type}.

(** When the requests [Q] leave the store as it is and are answered as [R]
    says, a pool that makes these requests only ends with the store it
    started with. *)
Lemma pool_exec_frame (Q R : event → Prop) (sched : list nat) (pool : list (prog A))
    (s s' : S) (rs : list A) (tr : list (nat * event)) :
  (∀ (p p' : prog A) (s1 s2 : S) (e : event),
     step p s1 = Some (p', s2, e) → Q e → s2 = s1 ∧ R e) →
  pool_exec sched pool s = (rs, s', tr) →
  Forall (λ ie, Q ie.2) tr → s' = s ∧ Forall (λ ie, R ie.2) tr.
Proof.
  intros Hstep Hexec. apply pool_exec_reach in Hexec.
  pose (I := λ st : @pool_state S A,
    Forall (λ ie, Q ie.2) st.2 → st.1.2 = s ∧ Forall (λ ie, R ie.2) st.2).
  assert (HI : I (map Ret rs, s', tr)); [|exact HI].
  eapply (reach_inv I); [|exact Hexec|].
  - intros pool1 s1 tr1 i p p' s2 e HI Hp Hs Hall. unfold I in *. cbn [fst snd] in *.
    apply Forall_app in Hall as [Hall He]. rewrite Forall_singleton in He. cbn in He.
    destruct (HI Hall) as [<- HR]. destruct (Hstep _ _ _ _ _ Hs He) as [-> HRe].
    split; [done|]. apply Forall_app. split; [done|]. by constructor.
  - intros _. split; [done|constructor].
Qed.

End Frame.

Section MapRuns2.
Context `{KeyCodec}.
Variable SyncSize : Z.
Variable NWorkers : nat.

Lemma candidates_none (keys : list Key) :
  (∀ k, k ∈ keys → candidate (NewKey (KeyString k)) = None) →
  candidates (map (λ k, mkResult (KeyString k) None) keys) = [].
Proof.
  induction keys as [|k keys IH]; intros Hnone; [done|].
  cbn [map]. rewrite candidates_cons. cbn [res_Error res_Key].
  rewrite (Hnone k) by by left. apply IH. intros k' Hk'. apply Hnone. by right.
Qed.

Lemma elem_of_query_keys (prefix : Key) (s : gmap Key bytes) (k : Key) :
  k ∈ query_keys prefix s ↔ prefix `prefix_of` k ∧ is_Some (s !! k).
Proof.
  unfold query_keys. rewrite list_elem_of_filter. split.
  - intros [Hp Hk]. split; [done|].
    apply list_elem_of_fmap in Hk as ([k' v] & -> & Hkv).
    apply elem_of_map_to_list in Hkv. by exists v.
  - intros [Hp [v Hv]]. split; [done|]. apply list_elem_of_fmap.
    exists (k, v). split; [done|]. by apply elem_of_map_to_list.
Qed.

(** On the in-memory datastore, a run over keys none of which is a
    candidate. *)
Lemma Run_no_candidates (cswap : CidSwapper) (dryRun : bool) (deal sched : list nat)
    (s0 s1 : gmap Key bytes) (total : Z) (err : option error) (tr : list (nat * event)) :
  (∀ k, k ∈ query_keys (Prefix cswap) s0 → candidate (NewKey (KeyString k)) = None) →
  Run SyncSize NWorkers cswap dryRun deal sched s0 = (total, err, s1, tr) →
  total = 0 ∧ err = None ∧ s1 = s0
  ∧ Forall (λ ie, ie.2 = ESync (Prefix cswap) None) tr.
Proof.
  intros Hnone. rewrite Run_map. apply candidates_none in Hnone.
  destruct (decide (0 < NWorkers)%nat) as [Hn|Hn].
  2:{ assert (NWorkers = 0%nat) as -> by lia. unfold runWorkers. cbn [seq map].
      rewrite pool_exec_nil. cbn. intros [= <- <- <- <-]. done. }
  intros HRun. pose proof HRun as HRun'. unfold runWorkers in HRun'.
  destruct (pool_exec sched _ s0) as [[rs s'] tr'] eqn:Hexec.
  assert (Heq : s' = s1 ∧ tr' = tr) by (destruct (0 <? _); by simplify_eq).
  destruct Heq as [-> ->]. clear HRun'.
  assert (Hsync : Forall (λ ie, ∃ r, ie.2 = ESync (Prefix cswap) r) tr).
  { eapply (pool_exec_Forall (S := gmap Key bytes) (λ e, ∃ r, e = ESync (Prefix cswap) r));
      [|exact Hexec].
    intros p t a Hp Hem. apply list_elem_of_fmap in Hp as (w & -> & _).
    apply swapWorker_run_scope in Hem. eapply Forall_impl; [exact Hem|].
    intros e He.
    assert (Hno : ∀ k, k ∉ candidates (received NWorkers w deal
                     (map (λ k, mkResult (KeyString k) None)
                          (query_keys (Prefix cswap) s0)))).
    { intros k Hk. apply candidates_elem in Hk as (res & Hres & Hrest).
      apply received_elem in Hres.
      assert (Hin : k ∈ candidates (map (λ k, mkResult (KeyString k) None)
                                        (query_keys (Prefix cswap) s0)))
        by (apply candidates_elem; eauto).
      rewrite Hnone in Hin. by apply elem_of_nil in Hin. }
    destruct e as [k r|n v r|k r|q r|sw]; simpl in He.
    - by apply Hno in He.
    - destruct He as (k & Hk & _). by apply Hno in Hk.
    - by apply Hno in He.
    - subst q. eauto.
    - destruct He as [Hk _]. by apply Hno in Hk. }
  eapply (pool_exec_frame (S := gmap Key bytes) (λ e, ∃ r, e = ESync (Prefix cswap) r)
            (λ e, e = ESync (Prefix cswap) None)) in Hsync as [-> Hsync];
    [| |exact Hexec].
  2:{ intros p p' sa sb e Hs [r ->].
      destruct p as [a|k c|k v c|k c|q c|sw c]; simpl in Hs; by simplify_eq. }
  apply runWorkers_count_ok in HRun as [-> ->]; [|done| |].
  - rewrite Hnone. done.
  - apply Forall_forall. intros res Hres. by apply list_elem_of_fmap in Hres as (k & -> & _).
  - eapply Forall_impl; [exact Hsync|]. by intros [i e] ->.
Qed.

(** X8. On the in-memory datastore, for any number of workers, in a dry run or
    not: when no key under the prefix is a candidate (each decodes to no
    identifier or to one of version 0), [Run] returns 0 and no error, leaves
    the store as it is, and only syncs the prefix. *)
Theorem Run_nothing_to_migrate (cswap : CidSwapper) (dryRun : bool)
    (deal sched : list nat) (s0 : gmap Key bytes) :
  (∀ k, k ∈ query_keys (Prefix cswap) s0 → candidate (NewKey (KeyString k)) = None) →
  let '(total, err, s1, tr) := Run SyncSize NWorkers cswap dryRun deal sched s0 in
  total = 0 ∧ err = None ∧ s1 = s0
  ∧ Forall (λ ie, ie.2 = ESync (Prefix cswap) None) tr.
Proof.
  intros Hnone. destruct (Run _ _ _ _ _ _ s0) as [[[total err] s1] tr] eqn:HRun.
  by eapply Run_no_candidates.
Qed.

(** X9. On the in-memory datastore, with at least one worker: when the keys
    under the prefix are clean and every key a candidate is swapped for
    is clean and no candidate, a second forward run after a first one, with
    any deal of the keys and any interleaving in both, returns 0 and no
    error, leaves the migrated store as it is, and only syncs the prefix. *)
Theorem Run_idempotent (cswap : CidSwapper) (deal sched deal' sched' : list nat)
    (s0 : gmap Key bytes) :
  (0 < NWorkers)%nat →
  clean_keys (query_keys (Prefix cswap) s0) →
  (∀ k m, k ∈ query_keys (Prefix cswap) s0 → candidate k = Some m →
          candidate (NewKey (KeyString m)) = None) →
  let '(_, _, s1, _) := Run SyncSize NWorkers cswap false deal sched s0 in
  let '(total, err, s2, tr) := Run SyncSize NWorkers cswap false deal' sched' s1 in
  total = 0 ∧ err = None ∧ s2 = s1
  ∧ Forall (λ ie, ie.2 = ESync (Prefix cswap) None) tr.
Proof.
  intros Hn Hclean Htarget.
  destruct (Run _ _ _ _ _ _ s0) as [[[total1 err1] s1] tr1] eqn:HRun1.
  destruct (Run _ _ _ _ _ _ s1) as [[[total err] s2] tr] eqn:HRun2.
  apply Run_forward in HRun1 as (_ & (Hm1 & Hm2 & Hm3) & _ & _); [|done|done|].
  2:{ intros k m Hk Hc Hm. rewrite <- (Hclean m Hm). exact (Htarget k m Hk Hc). }
  eapply Run_no_candidates; [|exact HRun2].
  set (cands := filter (λ k, is_Some (candidate k)) (query_keys (Prefix cswap) s0)) in *.
  intros k1 Hk1. apply elem_of_query_keys in Hk1 as [Hp [v Hv]].
  destruct (decide (k1 ∈ cands)) as [Hin|Hout].
  { by rewrite (Hm1 k1 Hin) in Hv. }
  destruct (decide (k1 ∈ omap candidate cands)) as [Ht|Hnt].
  { apply list_elem_of_omap in Ht as (k & Hk & Hc).
    apply list_elem_of_filter in Hk as [_ Hk]. exact (Htarget k k1 Hk Hc). }
  rewrite Hm3 in Hv; [|done|].
  2:{ intros k Hk Hc. apply Hnt. apply list_elem_of_omap. eauto. }
  assert (Hq : k1 ∈ query_keys (Prefix cswap) s0) by (apply elem_of_query_keys; eauto).
  rewrite (Hclean k1 Hq). destruct (candidate k1) eqn:Hc; [|done].
  exfalso. apply Hout. apply list_elem_of_filter. split; [by rewrite Hc|done].
Qed.

(** X10. On the in-memory datastore: when the old keys of the swaps are distinct,
    none of them is the new key of a swap, and every new key is in the store,
    [Revert] returns the number of swaps and no error; every old key holds
    the value its new key held, every new key is gone, and every other key is
    as before. *)
Theorem Revert_restores_swaps (cswap : CidSwapper) (recs : list Swap)
    (s1 : gmap Key bytes) :
  NoDup (Old <$> recs) →
  (∀ sw, sw ∈ recs → is_Some (s1 !! New sw)) →
  (∀ sw sw', sw ∈ recs → sw' ∈ recs → Old sw ≠ New sw') →
  let '(total, err, s2, _) := Revert SyncSize cswap recs s1 in
  total = u64 (Z.of_nat (length recs)) ∧ err = None
  ∧ (∀ sw, sw ∈ recs → s2 !! Old sw = s1 !! New sw)
  ∧ (∀ sw, sw ∈ recs → s2 !! New sw = None)
  ∧ (∀ x, (∀ sw, sw ∈ recs → x ≠ Old sw ∧ x ≠ New sw) → s2 !! x = s1 !! x).
Proof.
  intros Hnd Hpresent Hdisj. rewrite Revert_map.
  destruct (run _ s1) as [[[n e] s2] t] eqn:Hrun.
  apply unswapWorker_map in Hrun as (-> & -> & Hr1 & Hr2 & Hr3); [|done..].
  change (0 <? u64 0) with false. split; [|done].
  unfold u64. by rewrite Z.mod_mod.
Qed.

Lemma unswapLoop_nothing (cswap : CidSwapper) (recs : list Swap) (s : gmap Key bytes)
    (swker : swapWorker) (errored : Z) :
  u64 errored = errored →
  (∀ sw, sw ∈ recs → s !! New sw = None) →
  run (forEach (unswapStep SyncSize cswap) (swker, errored, ∅) recs) s =
    ((swker, u64 (errored + Z.of_nat (length recs)), ∅), s,
     (λ sw, EGet (New sw) (inr ErrNotFound)) <$> recs).
Proof.
  revert errored. induction recs as [|sw recs IH]; intros errored Herr Hnew.
  { cbn. by rewrite Z.add_0_r, Herr. }
  cbn [forEach]. rewrite run_bind.
  assert (Hstep : run (unswapStep SyncSize cswap (swker, errored, ∅) sw) s
                  = ((swker, u64 (errored + 1), ∅), s, [EGet (New sw) (inr ErrNotFound)])).
  { unfold unswapStep, swap. cbn. rewrite (Hnew sw) by by left. cbn.
    by rewrite lookup_empty. }
  rewrite Hstep, IH.
  - cbn [length fmap list_fmap app]. rewrite u64_add_l.
    by replace (errored + 1 + Z.of_nat (length recs))
      with (errored + Z.of_nat (S (length recs))) by lia.
  - apply u64_idem.
  - intros sw' Hsw'. apply Hnew. by right.
Qed.

(** X11. On the in-memory datastore: when none of the new keys of the swaps is in
    the store (as after a reversal, or before any migration), [Revert] reads
    each of them in turn and finds none, restores nothing and returns 0,
    leaves the store as it is, and returns an error as soon as there is a
    swap (fewer than 2^64 of them). *)
Theorem Revert_nothing_to_revert (cswap : CidSwapper) (recs : list Swap)
    (s : gmap Key bytes) :
  (∀ sw, sw ∈ recs → s !! New sw = None) →
  Z.of_nat (length recs) < 2 ^ 64 →
  let '(total, err, s', tr) := Revert SyncSize cswap recs s in
  total = 0 ∧ (err = None ↔ recs = []) ∧ s' = s
  ∧ tr = pair 0%nat <$> (((λ sw, EGet (New sw) (inr ErrNotFound)) <$> recs)
                         ++ [ESync (Prefix cswap) None; ESync (Prefix cswap) None]).
Proof.
  intros Hnew Hlen. rewrite Revert_map. unfold unswapWorker, unswapLoop.
  rewrite run_bind, unswapLoop_nothing by done.
  rewrite Z.add_0_l, u64_small by lia. cbn.
  rewrite (u64_small (Z.of_nat (length recs))) by lia.
  destruct recs as [|sw recs]; [done|].
  assert (Hpos : (0 <? Z.of_nat (length (sw :: recs))) = true).
  { apply Z.ltb_lt. cbn [length]. lia. }
  rewrite Hpos. done.
Qed.

End MapRuns2.

Lemma Run_nothing_to_migrate_witness :
  let '(total, err, s1, tr) :=
    Run Sample.syncSize 2 Sample.cswap false [] [] Sample.store_migrated in
  total = 0 ∧ err = None ∧ s1 = Sample.store_migrated
  ∧ Forall (λ ie, ie.2 = ESync (Prefix Sample.cswap) None) tr.
Proof.
  apply (Run_nothing_to_migrate Sample.syncSize 2 Sample.cswap false [] []
           Sample.store_migrated).
  intros k Hk. vm_compute in Hk.
  repeat (apply elem_of_cons in Hk as [->|Hk]); try reflexivity.
  apply elem_of_nil in Hk. destruct Hk.
Defined.

Lemma Run_idempotent_witness :
  let '(_, _, s1, _) :=
    Run Sample.syncSize 2 Sample.cswap false [0; 1; 1]%nat [1; 0; 0; 1]%nat
      Sample.store_collapse in
  let '(total, err, s2, tr) :=
    Run Sample.syncSize 2 Sample.cswap false [1; 1]%nat [0; 0; 1]%nat s1 in
  total = 0 ∧ err = None ∧ s2 = s1
  ∧ Forall (λ ie, ie.2 = ESync (Prefix Sample.cswap) None) tr.
Proof.
  apply (Run_idempotent Sample.syncSize 2 Sample.cswap [0; 1; 1]%nat [1; 0; 0; 1]%nat
           [1; 1]%nat [0; 0; 1]%nat Sample.store_collapse).
  - lia.
  - intros k Hk. vm_compute in Hk.
    repeat (apply elem_of_cons in Hk as [->|Hk]); try reflexivity.
    apply elem_of_nil in Hk. destruct Hk.
  - intros k m Hk Hc. vm_compute in Hk.
    repeat (apply elem_of_cons in Hk as [->|Hk]); try (apply elem_of_nil in Hk; destruct Hk);
      vm_compute in Hc; try discriminate; injection Hc as <-; reflexivity.
Defined.

Lemma Revert_restores_swaps_witness :
  let recs := [mkSwap Sample.A Sample.C; mkSwap Sample.D Sample.E] in
  let '(total, err, s2, _) :=
    Revert Sample.syncSize Sample.cswap recs Sample.store_migrated in
  total = u64 (Z.of_nat (length recs)) ∧ err = None
  ∧ (∀ sw, sw ∈ recs → s2 !! Old sw = Sample.store_migrated !! New sw)
  ∧ (∀ sw, sw ∈ recs → s2 !! New sw = None)
  ∧ (∀ x, (∀ sw, sw ∈ recs → x ≠ Old sw ∧ x ≠ New sw) →
          s2 !! x = Sample.store_migrated !! x).
Proof.
  intros recs.
  apply (Revert_restores_swaps Sample.syncSize Sample.cswap recs Sample.store_migrated).
  - repeat constructor.
    + intros Hin. apply list_elem_of_singleton in Hin. discriminate.
    + intros Hin. apply elem_of_nil in Hin. destruct Hin.
  - intros sw Hsw.
    repeat (apply elem_of_cons in Hsw as [->|Hsw]);
      try (apply elem_of_nil in Hsw; destruct Hsw); vm_compute; eauto.
  - intros sw sw' Hsw Hsw'.
    repeat (apply elem_of_cons in Hsw as [->|Hsw]);
      try (apply elem_of_nil in Hsw; destruct Hsw);
      repeat (apply elem_of_cons in Hsw' as [->|Hsw']);
      try (apply elem_of_nil in Hsw'; destruct Hsw'); discriminate.
Defined.

Lemma Revert_nothing_to_revert_witness :
  let recs := [mkSwap Sample.A Sample.C; mkSwap Sample.B Sample.C] in
  let '(total, err, s', tr) :=
    Revert Sample.syncSize Sample.cswap recs Sample.store_collapse in
  total = 0 ∧ (err = None ↔ recs = []) ∧ s' = Sample.store_collapse
  ∧ tr = pair 0%nat <$> (((λ sw, EGet (New sw) (inr ErrNotFound)) <$> recs)
                         ++ [ESync (Prefix Sample.cswap) None;
                             ESync (Prefix Sample.cswap) None]).
Proof.
  intros recs.
  apply (Revert_nothing_to_revert Sample.syncSize Sample.cswap recs Sample.store_collapse).
  - intros sw Hsw.
    repeat (apply elem_of_cons in Hsw as [->|Hsw]);
      try (apply elem_of_nil in Hsw; destruct Hsw); reflexivity.
  - reflexivity.
Defined.

(** ** The log file and the version file *)

Section Log.
Context `{KeyCodec}.


(** X12. The line [Apply] logs for the swap of a clean candidate key is read
    back by [Revert] as that swap: a log that starts with the lines of such
    swaps is read as these swaps, in order, followed by what the rest of the
    log is read as, with the error of the rest if any. *)
Theorem scanBackup_reads_log (sws : list Swap) (rest : list string) :
  Forall (λ sw, NewKey (KeyString (Old sw)) = Old sw
                ∧ candidate (Old sw) = Some (New sw)) sws →
  Migration.scanBackup ((Migration.logLine <$> sws) ++ rest)
  = (sws ++ (Migration.scanBackup rest).1, (Migration.scanBackup rest).2).
Proof.
  induction 1 as [|[old new] sws [Hclean Hc] Hall IH].
  - cbn [fmap list_fmap app]. by destruct (Migration.scanBackup rest).
  - cbn [fmap list_fmap app Migration.scanBackup]. rewrite IH.
    unfold Migration.logLine. cbn [Old New] in *. rewrite Hclean.
    unfold candidate in Hc.
    destruct (dsKeyToCid (NewKey (BaseNamespace old))) as [c|e]; [|done].
    destruct (Version c =? 0); [done|]. by injection Hc as <-.
Qed.

(** X13. [Revert] stops reading the log at the first line whose last segment is
    no identifier: the swaps of the lines before it are returned with the
    error of that line, and the lines after it are not read. *)
Theorem scanBackup_stops (good rest : list string) (bad : string) (sws : list Swap)
    (err : error) :
  Migration.scanBackup good = (sws, None) →
  dsKeyToCid (NewKey (BaseNamespace (NewKey bad))) = inr err →
  Migration.scanBackup (good ++ bad :: rest) = (sws, Some err)
  ∧ length sws = length good.
Proof.
  revert sws. induction good as [|text good IH]; intros sws Hgood Hbad.
  - cbn in Hgood. injection Hgood as <-. cbn. by rewrite Hbad.
  - cbn [app Migration.scanBackup] in *.
    destruct (dsKeyToCid (NewKey (BaseNamespace (NewKey text)))) as [c|e]; [|done].
    destruct (Migration.scanBackup good) as [sws' e'] eqn:Hg.
    injection Hgood as <- ->. destruct (IH sws' eq_refl Hbad) as [-> Hlen].
    split; [done|]. cbn. by rewrite Hlen.
Qed.

Context {S : Type} `{!Batching S}.
Variable SyncSize : Z.
Variable NWorkers : nat.

(** X14. Whatever the datastore and the collaborators answer: [Apply] does nothing
    at all on a repository that is not at version 8; it sets the version to 9
    exactly when it returns no error and leaves it as it is otherwise; it
    never touches the renamed backup; and it only ever appends to the backup
    file. *)
Theorem Apply_version_and_log (out : Outcomes)
    (dryPlan realPlan : Key → list nat * list nat) (repo : Repo S) :
  let '(err, repo', acts) := Migration.Apply SyncSize NWorkers out dryPlan realPlan repo in
  (version repo ≠ "8"%string → err ≠ None ∧ repo' = repo ∧ acts = [])
  ∧ (err = None → version repo' = "9"%string)
  ∧ (err ≠ None → version repo' = version repo)
  ∧ backup_reverted repo' = backup_reverted repo
  ∧ (backup repo' = backup repo
     ∨ ∃ new, backup repo' = Some (default [] (backup repo) ++ new)).
Proof.
  unfold Migration.Apply, Migration.CheckVersion.
  destruct (lock_err out); [by repeat split; eauto|].
  destruct (decide (version repo = "8"%string)) as [Hv|Hv]; [|by repeat split; eauto].
  destruct (open_err out); [by repeat split; eauto|].
  destruct (stat_err out); [by repeat split; eauto|].
  destruct (file_err out); [by repeat split; eauto|].
  destruct (Migration.runPrefixes _ _ true true _ _ _) as [[e1 s1] tr1].
  destruct e1 as [e1|].
  { cbn. repeat split; try done. eauto. }
  destruct (Migration.runPrefixes _ _ false false _ _ _) as [[e2 s2] tr2].
  destruct e2 as [e2|]; [cbn; repeat split; try done; eauto|].
  destruct (writeVersion_err out); cbn; repeat split; try done; eauto.
Qed.


End Log.

Lemma scanBackup_reads_log_witness :
  Migration.scanBackup
    ((Migration.logLine <$> [mkSwap Sample.A Sample.C; mkSwap Sample.B Sample.C])
       ++ ["/blocks/zz"%string; KeyString Sample.D])
  = ([mkSwap Sample.A Sample.C; mkSwap Sample.B Sample.C]
       ++ (Migration.scanBackup ["/blocks/zz"%string; KeyString Sample.D]).1,
     (Migration.scanBackup ["/blocks/zz"%string; KeyString Sample.D]).2).
Proof.
  apply (scanBackup_reads_log [mkSwap Sample.A Sample.C; mkSwap Sample.B Sample.C]).
  repeat constructor; reflexivity.
Defined.

Lemma scanBackup_stops_witness :
  Migration.scanBackup [KeyString Sample.A; "/blocks/zz"%string; KeyString Sample.B]
  = ([mkSwap Sample.A Sample.C], Some (Err "illegal key data"))
  ∧ length [mkSwap Sample.A Sample.C] = length [KeyString Sample.A].
Proof.
  apply (scanBackup_stops [KeyString Sample.A] [KeyString Sample.B] "/blocks/zz"
           [mkSwap Sample.A Sample.C] (Err "illegal key data")); reflexivity.
Defined.

(** ** Apply, then Revert *)

Section EndToEnd.
Context `{KeyCodec}.
Variable SyncSize : Z.
Variable NWorkers : nat.







End EndToEnd.


(** ** Swaps are sent once written *)

Section SentAfterWritten.
Context `{KeyCodec}.
Variable SyncSize : Z.

Lemma sent_after_written_app (h t : list event) :
  sent_after_written h →
  (∀ pre sw post, t = pre ++ ENotify sw :: post →
     ∃ v, EGet (Old sw) (inl v) ∈ pre ∧ EPut (New sw) v None ∈ pre) →
  sent_after_written (h ++ t).
Proof.
  intros Hh Ht pre sw post Heq.
  apply app_eq_mid in Heq as [(m & -> & _)|(m & -> & ->)].
  - by apply (Hh pre sw m).
  - destruct (Ht m sw post eq_refl) as (v & Hg & Hp). exists v. set_solver.
Qed.

Lemma no_send_requests (t : list event) :
  Forall (λ e, is_request e = true) t →
  ∀ pre sw post, t = pre ++ ENotify sw :: post →
    ∃ v, EGet (Old sw) (inl v) ∈ pre ∧ EPut (New sw) v None ∈ pre.
Proof.
  intros Hall pre sw post ->. apply Forall_app in Hall as [_ Hall].
  apply Forall_cons in Hall as [Hs _]. done.
Qed.

(** The requests of a forward worker that is not in a dry run, whatever the
    store answers. *)
Lemma swapWorker_run_sent (cswap : CidSwapper) (got : list Result) (t : list event)
    (r : Z * Z) :
  emits (swapWorker_run SyncSize cswap false got) t r → sent_after_written t.
Proof.
  unfold swapWorker_run. intros Hr.
  apply emits_bind in Hr as (t1 & [sw errored] & t2 & H1 & H2 & ->).
  apply emits_bind in H2 as (t3 & [sw' errored'] & t4 & H3 & H4 & ->).
  apply emits_ret in H4 as [-> _]. rewrite app_nil_r.
  apply emits_finalSync in H3 as (tf & err & r2 & Hf & -> & _).
  apply sent_after_written_app.
  - refine (forEach_emits_inv (swapStep SyncSize cswap false)
              (λ h _, sent_after_written h) got _ [] _ _ _ _ H1).
    + intros h [sw0 e0] res t [sw1 e1] _ Hh Hstep. apply emits_swapStep in Hstep.
      apply sent_after_written_app; [done|]. unfold swapStep_outcome in Hstep.
      destruct (res_Error res).
      { destruct Hstep as (-> & _). intros pre s post Heq. by destruct pre. }
      destruct (candidate _) as [newKey|].
      2:{ destruct Hstep as (-> & _). intros pre s post Heq. by destruct pre. }
      destruct Hstep as (t0 & err0 & Hs & -> & _).
      pose proof (swap_outcome_requests _ _ _ _ _ _ _ Hs) as Hreq.
      destruct err0 as [e|].
      { rewrite app_nil_r. by apply no_send_requests. }
      destruct (SwapCh cswap); [|rewrite app_nil_r; by apply no_send_requests].
      intros pre s post Heq.
      apply app_eq_mid in Heq as [(m & -> & _)|(m & -> & Hm)].
      { apply Forall_app in Hreq as [_ Hreq]. by apply Forall_cons in Hreq as [? _]. }
      destruct m as [|x m]; [|by destruct m]. injection Hm as <- <-. rewrite app_nil_r.
      destruct Hs as [(e & _ & _ & [=])|[(v & e & _ & _ & [=])|(v & tf0 & -> & _)]].
      exists v. cbn [Old New]. set_solver.
    + intros pre s post Heq. by destruct pre.
  - apply no_send_requests. apply Forall_app.
    split; [by eapply flush_trace_requests|by repeat constructor].
Qed.

Context {S : Type} `{!Batching S}.
Variable NWorkers : nat.

(** X18. On every datastore, whichever worker gets which result and however
    the workers interleave: in a run that is not a dry run, a worker sends a
    swap only after it has read the old key and written the value it read,
    with success, under the new key. *)
Theorem Run_sends_after_writing (cswap : CidSwapper) (deal sched : list nat) (s : S)
    (w : nat) :
  let '(_, _, tr) := Run SyncSize NWorkers cswap false deal sched s in
  sent_after_written (trace_of w tr).
Proof.
  unfold Run. destruct (ds_Query (Prefix cswap) s) as [[resultsCh|e] s0].
  2:{ intros pre sw post Heq. by destruct pre. }
  unfold runWorkers. destruct (pool_exec sched _ s0) as [[rs s'] tr] eqn:Hexec.
  assert (Hgoal : sent_after_written (trace_of w tr)); [|by destruct (0 <? _)].
  pose proof (pool_exec_indices _ _ _ _ _ _ Hexec) as Hidx.
  rewrite length_map, length_seq in Hidx.
  apply pool_exec_project in Hexec as [_ Hproj].
  destruct (decide (w < NWorkers)%nat) as [Hw|Hw].
  - edestruct (Hproj w) as (a & _ & Hem).
    { rewrite list_lookup_fmap, lookup_seq_lt by done. reflexivity. }
    by eapply swapWorker_run_sent.
  - assert (Hnil : trace_of w tr = []).
    { unfold trace_of. clear -Hidx Hw. induction Hidx as [|[i e] tr Hi Htr IH]; [done|].
      cbn in *. rewrite decide_False by lia. exact IH. }
    rewrite Hnil. intros pre sw post Heq. by destruct pre.
Qed.

End SentAfterWritten.

(** ** A failed Apply *)

Section FailedApply.
Context `{KeyCodec} {S : Type} `{!Batching S}.
Variable SyncSize : Z.
Variable NWorkers : nat.

(** X17. Whatever the datastore and the collaborators answer: when [Apply]
    fails on a repository at version 8, also after it has migrated some
    keys, the version is still 8, so that [Revert] on the repository it
    leaves fails and does nothing at all. *)
Theorem failed_Apply_blocks_Revert (out out' : Outcomes)
    (dryPlan realPlan : Key → list nat * list nat) (repo : Repo S) :
  version repo = "8"%string →
  let '(err, repo', _) := Migration.Apply SyncSize NWorkers out dryPlan realPlan repo in
  err ≠ None →
  let '(err', repo'', acts') := Migration.Revert SyncSize out' repo' in
  version repo' = "8"%string ∧ err' ≠ None ∧ repo'' = repo' ∧ acts' = [].
Proof.
  intros Hver.
  assert (Hrev : ∀ r : Repo S, version r = "8"%string →
            let '(err', r', acts') := Migration.Revert SyncSize out' r in
            version r = "8"%string ∧ err' ≠ None ∧ r' = r ∧ acts' = []).
  { intros r Hr. unfold Migration.Revert, Migration.CheckVersion.
    destruct (lock_err out'); [done|]. rewrite Hr.
    by destruct (decide ("8"%string = "9"%string)). }
  unfold Migration.Apply, Migration.CheckVersion.
  destruct (lock_err out); [intros _; by apply Hrev|].
  destruct (decide (version repo = "8"%string)); [|intros _; by apply Hrev].
  destruct (open_err out); [intros _; by apply Hrev|].
  destruct (stat_err out); [intros _; by apply Hrev|].
  destruct (file_err out); [intros _; by apply Hrev|].
  destruct (Migration.runPrefixes _ _ true true _ _ _) as [[e1 s1] tr1].
  destruct e1 as [e1|]; [intros _; by apply Hrev|].
  destruct (Migration.runPrefixes _ _ false false _ _ _) as [[e2 s2] tr2].
  destruct e2 as [e2|]; [intros _; by apply Hrev|].
  destruct (writeVersion_err out); [intros _; by apply Hrev|done].
Qed.

End FailedApply.

Lemma failed_Apply_blocks_Revert_witness :
  let '(err, repo', _) :=
    Migration.Apply Sample.syncSize 2 all_ok Sample.plan Sample.plan
      Sample.repo8_failing in
  err ≠ None
  ∧ let '(err', repo'', acts') := Migration.Revert Sample.syncSize all_ok repo' in
    version repo' = "8"%string ∧ err' ≠ None ∧ repo'' = repo' ∧ acts' = [].
Proof.
  pose proof (failed_Apply_blocks_Revert Sample.syncSize 2 all_ok all_ok Sample.plan
                Sample.plan Sample.repo8_failing eq_refl) as Hw.
  assert (Herr : (Migration.Apply Sample.syncSize 2 all_ok Sample.plan Sample.plan
                    Sample.repo8_failing).1.1 ≠ None)
    by (vm_compute; discriminate).
  revert Hw Herr.
  destruct (Migration.Apply _ _ _ _ _ _) as [[err repo'] acts]. cbn [fst].
  intros Hw Herr. split; [exact Herr|exact (Hw Herr)].
Defined.
